(** * shap/plots.py: the interaction ranker [approx_interactions]

    A shallow embedding of [approx_interactions] (plots.py, lines 135-167)
    and of the three places where plotting functions pick a colouring
    feature automatically (lines 88-89, 402-403 and 461-462), followed by
    the parts of [dependence_plot], [summary_plot], [visualize],
    [joint_plot], [interaction_plot] and [plot] that decide what is drawn
    and which exception ends a call.

    Numbers.  numpy works on IEEE doubles; here array entries are real
    numbers and the numpy primitives ([np.sum], [np.abs], [np.std],
    [np.corrcoef], [np.argsort]) are their textbook definitions in exact
    arithmetic.  Rounding, infinities and NaN are outside this model.
    Where rounding decides a branch, in the guard of line 163 on windows
    of equal values, lines 161-164 are given once more on binary64 floats
    (module [F64]).

    Effects.  Python exceptions are the [Raise] results of type [result];
    the global random generator used by [np.random.shuffle] is a state that
    is threaded through the call. *)

From Stdlib Require Import Reals Lra Lia List Arith Bool.
From Stdlib Require String.
Import String.StringSyntax.
From Stdlib Require Import Permutation Sorted.
From Stdlib Require OrderedTypeEx.
From Stdlib Require PrimFloat.
Import ListNotations.

Open Scope R_scope.

(** ** Python values, exceptions *)

Module Py.

Inductive exn : Type :=
| ValueError      (* range() arg 3 must not be zero *)
| IndexError      (* index out of bounds, bad index array *)
| AttributeError  (* 'int' object has no attribute 'shape' *)
| TypeError       (* 'int' object is not subscriptable *)
| NameError.      (* name is not defined *)

Inductive result (A : Type) : Type :=
| Ok (a : A)
| Raise (e : exn).

Arguments Ok {A} a.
Arguments Raise {A} e.

Definition bind {A B : Type} (m : result A) (k : A -> result B) : result B :=
  match m with
  | Ok a => k a
  | Raise e => Raise e
  end.

(** A [for] loop that appends one value per iteration and stops at the
    first exception. *)
Fixpoint for_each {A B : Type} (body : A -> result B) (l : list A)
  : result (list B) :=
  match l with
  | [] => Ok []
  | a :: l' =>
      bind (body a) (fun b => bind (for_each body l') (fun bs => Ok (b :: bs)))
  end.

(** [range(start, stop, step)] for a step that is not negative: CPython
    refuses a zero step, and otherwise yields [start + k*step] for
    [k < (stop - start + step - 1) // step]. *)
Definition range (start stop step : nat) : result (list nat) :=
  match step with
  | O => Raise ValueError
  | S _ =>
      Ok (map (fun k => (start + k * step)%nat)
              (seq 0 ((stop - start + step - 1) / step)))
  end.

(** [l[i:j]] on a sequence, with Python's clamping to the length. *)
Definition slice {A : Type} (l : list A) (i j : nat) : list A :=
  firstn (j - i) (skipn i l).

(** [l[k]] on a sequence, for [k >= 0]. *)
Definition getitem {A : Type} (l : list A) (k : nat) : result A :=
  match nth_error l k with
  | Some a => Ok a
  | None => Raise IndexError
  end.

End Py.

Export Py.

Notation "x <- m ;; k" := (bind m (fun x => k))
  (at level 61, m at next level, right associativity).

(** ** numpy, in exact arithmetic *)

Module Np.

(** A two-dimensional array of floats: its shape and its entries. *)
Record ndarray : Type := mk_ndarray {
  shape0 : nat;
  shape1 : nat;
  item : nat -> nat -> R
}.

Definition Rltb (x y : R) : bool := if Rlt_dec x y then true else false.
Definition Rleb (x y : R) : bool := if Rle_dec x y then true else false.

Definition arange (n : nat) : list nat := seq 0 n.

Definition sum (l : list R) : R := fold_right Rplus 0 l.

Definition abs (l : list R) : list R := map Rabs l.

Definition mean (l : list R) : R := sum l / INR (length l).

(** The sum of the squared deviations from the mean. *)
Definition ssd (l : list R) : R := sum (map (fun x => Rsqr (x - mean l)) l).

(** [np.std(l)], the population standard deviation (ddof = 0), in exact
    arithmetic: equal values have the deviation 0 here, which they need
    not have in binary64 (see [F64.std] below). *)
Definition std (l : list R) : R :=
  sqrt (mean (map (fun x => Rsqr (x - mean l)) l)).

(** An entry of [np.cov(a, b)]: the sample covariance (ddof = 1). *)
Definition cov (a b : list R) : R :=
  sum (map (fun p => (fst p - mean a) * (snd p - mean b)) (combine a b))
  / (INR (length a) - 1).

(** [np.corrcoef(a, b)[0,1]]: the covariance divided by both standard
    deviations, one after the other.  (numpy then clips the value to
    [-1, 1], which changes nothing in exact arithmetic: see
    [corrcoef01_clip].) *)
Definition corrcoef01 (a b : list R) : R :=
  cov a b / sqrt (cov a a) / sqrt (cov b b).

(** [a[inds, j]] for row indices [inds] and a column [j] that are in
    range. *)
Definition column (a : ndarray) (inds : list nat) (j : nat) : list R :=
  map (fun r => item a r j) inds.

(** [np.clip(x, lo, hi)] on a number. *)
Definition clip (x lo hi : R) : R := Rmax lo (Rmin hi x).

(** [a[idx]] for an index array [idx] whose entries are in range. *)
Definition take (a : list R) (idx : list nat) : list R :=
  map (fun k => nth k a 0) idx.

(** [np.argsort]: the indices of [a] in ascending order of their entries.
    The model is the stable insertion sort; numpy's default sort does not
    promise how ties are broken. *)
Fixpoint insert_by (key : nat -> R) (i : nat) (l : list nat) : list nat :=
  match l with
  | [] => [i]
  | j :: l' =>
      if Rleb (key i) (key j) then i :: l else j :: insert_by key i l'
  end.

Definition argsort (a : list R) : list nat :=
  fold_right (insert_by (fun k => nth k a 0)) [] (seq 0 (length a)).

End Np.

(** ** plots.py *)

(** What a parameter of [approx_interactions] can be bound to by the
    callers in this module: a Python [int] that is
    not negative, or a float matrix. *)
Inductive pyval : Type :=
| PyInt (n : nat)
| PyArray (a : Np.ndarray).

Section Plots.

(** The state of numpy's global random generator, and
    [np.random.shuffle] on an index array: the shuffled array and the
    next state. *)
Variable rng : Type.
Variable shuffle : list nat -> rng -> list nat * rng.

(** [X.shape] *)
Definition shape (X : pyval) : result (nat * nat) :=
  match X with
  | PyInt _ => Raise AttributeError
  | PyArray a => Ok (Np.shape0 a, Np.shape1 a)
  end.

(** [X[inds, j]] for an index array [inds] and a column [j]. *)
Definition getcol (X : pyval) (inds : list nat) (j : pyval)
  : result (list R) :=
  match X with
  | PyInt _ => Raise TypeError
  | PyArray a =>
      match j with
      | PyArray _ => Raise IndexError
      | PyInt j =>
          if (j <? Np.shape1 a)%nat
             && forallb (fun r => (r <? Np.shape0 a)%nat) inds
          then Ok (Np.column a inds j)
          else Raise IndexError
      end
  end.

(** [i == index] for the loop counter [i]. *)
Definition int_eq (i : nat) (index : pyval) : bool :=
  match index with
  | PyInt j => (i =? j)%nat
  | PyArray _ => false
  end.

(** Line 142: the cap of 10000 rows (written as a product, the numbers
    being unary). *)
Definition max_rows : nat := 100 * 100.

(** Line 158: the threshold 1e-8. *)
Definition eps : R := / 100000000.

(** Lines 142-147: the rows that are looked at. *)
Definition sample_rows (n : nat) (g : rng) : list nat * rng :=
  if (max_rows <? n)%nat then
    let '(a, g') := shuffle (Np.arange n) g in
    (firstn max_rows a, g')
  else (Np.arange n, g).

(** Line 153. *)
Definition bin_width (len_x : nat) : nat := Nat.min (len_x / 10) 50.

(** Line 163: the test that guards a window at offset [i]. *)
Definition window_scored (shap_ref val_other : list R) (inc : nat)
  (i : nat) : bool :=
  Np.Rltb 0 (Np.std (slice val_other i (i + inc)))
  && Np.Rltb 0 (Np.std (slice shap_ref i (i + inc))).

(** Lines 163-164: one pass of the window loop, at offset [i]. *)
Definition window_step (shap_ref val_other : list R) (inc : nat)
  (v : R) (i : nat) : R :=
  if window_scored shap_ref val_other inc i
  then v + Rabs (Np.corrcoef01 (slice shap_ref i (i + inc))
                               (slice val_other i (i + inc)))
  else v.

(** Lines 161-164. *)
Definition window_loop (shap_ref val_other : list R) (len_x inc : nat)
  : result R :=
  offsets <- range 0 len_x inc ;;
  Ok (fold_left (window_step shap_ref val_other inc) offsets 0).

(** Lines 156-164: the body of the loop over the columns, for the column
    [i].  (The window loop reuses the name [i] for its offsets; the loop
    over the columns takes its next value from its own iterator and the
    body does not read [i] after the window loop, so the columns are
    visited in order all the same.) *)
Definition score (index X : pyval) (inds srt : list nat)
  (shap_ref : list R) (len_x inc : nat) (i : nat) : result R :=
  col <- getcol X inds (PyInt i) ;;
  let val_other := Np.take col srt in
  if int_eq i index || Np.Rltb (Np.sum (Np.abs val_other)) eps
  then Ok 0
  else window_loop shap_ref val_other len_x inc.

(** What the function has computed when the loop over the columns
    starts (lines 149-153). *)
Record prepared : Type := mk_prepared {
  p_x : list R;
  p_srt : list nat;
  p_shap_ref : list R;
  p_inc : nat
}.

Definition prepare (index shap_values X : pyval) (inds : list nat)
  : result prepared :=
  x <- getcol X inds index ;;
  let srt := Np.argsort x in
  shap_ref <- getcol shap_values inds index ;;
  let shap_ref := Np.take shap_ref srt in
  let inc := bin_width (length x) in
  Ok (mk_prepared x srt shap_ref inc).

(** Lines 154-165: the list [interactions]. *)
Definition interactions (index X : pyval) (inds : list nat) (ncols : nat)
  (p : prepared) : result (list R) :=
  for_each (score index X inds (p_srt p) (p_shap_ref p)
                  (length (p_x p)) (p_inc p))
           (seq 0 ncols).

(** Line 167. *)
Definition rank (scores : list R) : list nat :=
  Np.argsort (map Ropp (Np.abs scores)).

(** Lines 149-167, for the sampled rows [inds]. *)
Definition rank_rows (index shap_values X : pyval) (inds : list nat)
  (ncols : nat) : result (list nat) :=
  p <- prepare index shap_values X inds ;;
  scores <- interactions index X inds ncols p ;;
  Ok (rank scores).

(** Lines 135-167: the result, or the exception, and the state in which
    the generator is left. *)
Definition approx_interactions (index shap_values X : pyval) (g : rng)
  : result (list nat) * rng :=
  match shape X with
  | Raise e => (Raise e, g)
  | Ok (n, f) =>
      let '(inds, g') := sample_rows n g in
      (rank_rows index shap_values X inds f, g')
  end.

(** *** The callers: how a plot picks the feature it is coloured by *)

(** What plots.py binds at module level: the ranker, and the other
    imports and functions. *)
Inductive global : Type :=
| GRanker
| GOther.

Local Open Scope string_scope.

Definition module_globals : list (String.string * global) :=
  [ ("warnings", GOther); ("gaussian_kde", GOther); ("Instance", GOther);
    ("Model", GOther); ("AdditiveExplanation", GOther);
    ("IdentityLink", GOther); ("DenseData", GOther); ("iml", GOther);
    ("np", GOther); ("pl", GOther); ("LinearSegmentedColormap", GOther);
    ("cdict1", GOther); ("red_blue", GOther);
    ("dependence_plot", GOther); ("approx_interactions", GRanker);
    ("summary_plot", GOther); ("visualize", GOther);
    ("joint_plot", GOther); ("interaction_plot", GOther);
    ("plot", GOther) ].

Fixpoint lookup (name : String.string)
  (env : list (String.string * global)) : result global :=
  match env with
  | [] => Raise NameError
  | (n, v) :: env' => if String.eqb name n then Ok v else lookup name env'
  end.

(** [name(a, b, c)] for a global name.  Only the call of the ranker is
    followed: no line of the module calls another global with these
    arguments, and [TypeError] stands for whatever such a call would
    do. *)
Definition call_global (name : String.string) (a b c : pyval) (g : rng)
  : result (list nat) * rng :=
  match lookup name module_globals with
  | Raise e => (Raise e, g)
  | Ok GRanker => approx_interactions a b c g
  | Ok GOther => (Raise TypeError, g)
  end.

(** The argument that names the colouring feature: left to the function
    (["auto"] in [dependence_plot], [None] in the other two) or given. *)
Inductive choice : Type :=
| Auto
| Given (k : nat).

(** Lines 88-89 of [dependence_plot]. *)
Definition dependence_plot_interaction_index (ind : nat)
  (shap_values features : Np.ndarray) (interaction_index : choice)
  (g : rng) : result nat * rng :=
  match interaction_index with
  | Given k => (Ok k, g)
  | Auto =>
      let '(r, g') :=
        call_global "approx_interactions"
                    (PyInt ind) (PyArray shap_values) (PyArray features) g in
      (l <- r ;; getitem l 0, g')
  end.

(** Lines 402-403 of [joint_plot]. *)
Definition joint_plot_other_ind (ind : nat) (X shap_value_matrix : Np.ndarray)
  (other_ind : choice) (other_auto_ind : nat) (g : rng)
  : result nat * rng :=
  match other_ind with
  | Given k => (Ok k, g)
  | Auto =>
      let '(r, g') :=
        call_global "interactions"
                    (PyArray X) (PyArray shap_value_matrix) (PyInt ind) g in
      (l <- r ;; getitem l other_auto_ind, g')
  end.

(** Lines 461-462 of [interaction_plot]. *)
Definition interaction_plot_interaction_index (ind : nat)
  (X shap_value_matrix : Np.ndarray) (interaction_index : choice)
  (g : rng) : result nat * rng :=
  match interaction_index with
  | Given k => (Ok k, g)
  | Auto =>
      let '(r, g') :=
        call_global "approx_interactions"
                    (PyArray X) (PyArray shap_value_matrix) (PyInt ind) g in
      (l <- r ;; getitem l 0, g')
  end.

End Plots.

Local Close Scope string_scope.

Arguments sample_rows {rng} shuffle n g.
Arguments approx_interactions {rng} shuffle index shap_values X g.
Arguments call_global {rng} shuffle name a b c g.
Arguments dependence_plot_interaction_index {rng} shuffle ind shap_values
  features interaction_index g.
Arguments joint_plot_other_ind {rng} shuffle ind X shap_value_matrix
  other_ind other_auto_ind g.
Arguments interaction_plot_interaction_index {rng} shuffle ind X
  shap_value_matrix interaction_index g.

(** ** Lines 161-164 in binary64

    The definitions above compute with exact numbers.  numpy computes with
    binary64 floats, and there the standard deviation of a window of equal
    values need not be 0: the mean of 0.1, 0.1, 0.1 is rounded above 0.1.
    These are lines 161-164 on floats, following [np.std] and
    [np.corrcoef] operation by operation, for windows of fewer than eight
    rows, whose entries numpy adds up one by one. *)

Module F64.

Import PrimFloat.

(** [float(n)] *)
Fixpoint of_nat (n : nat) : float :=
  match n with
  | O => 0%float
  | S n' => (of_nat n' + 1)%float
  end.

(** The double next to 0.1. *)
Definition tenth : float := 0x1.999999999999ap-4%float.

(** [np.add.reduce]: from 0, entry by entry. *)
Definition sum (l : list float) : float := fold_left add l 0%float.

Definition mean (l : list float) : float :=
  (sum l / of_nat (length l))%float.

(** [np.std]: the deviations from the mean, squared, their mean and its
    square root. *)
Definition std (l : list float) : float :=
  let arrmean := mean l in
  let x := map (fun a => (a - arrmean)%float) l in
  let x := map (fun d => (d * d)%float) x in
  sqrt (sum x / of_nat (length l))%float.

(** [np.dot] of two rows. *)
Definition dot (a b : list float) : float :=
  sum (map (fun p => (fst p * snd p)%float) (combine a b)).

(** An entry of [np.cov(a, b)]: the rows less their means, their product,
    times [1 / (N - 1)]. *)
Definition cov (a b : list float) : float :=
  let xa := map (fun x => (x - mean a)%float) a in
  let xb := map (fun x => (x - mean b)%float) b in
  (dot xa xb * (1 / (of_nat (length a) - 1)))%float.

Definition clip (x lo hi : float) : float :=
  if ltb x lo then lo else if ltb hi x then hi else x.

(** [np.corrcoef(a, b)[0,1]] *)
Definition corrcoef01 (a b : list float) : float :=
  clip (cov a b / sqrt (cov a a) / sqrt (cov b b))%float
       (-1)%float 1%float.

(** Line 163. *)
Definition window_scored (shap_ref val_other : list float) (inc i : nat)
  : bool :=
  ltb 0%float (std (slice val_other i (i + inc)))
  && ltb 0%float (std (slice shap_ref i (i + inc))).

(** Lines 163-164. *)
Definition window_step (shap_ref val_other : list float) (inc : nat)
  (v : float) (i : nat) : float :=
  if window_scored shap_ref val_other inc i
  then (v + abs (corrcoef01 (slice shap_ref i (i + inc))
                            (slice val_other i (i + inc))))%float
  else v.

(** Lines 161-164. *)
Definition window_loop (shap_ref val_other : list float) (len_x inc : nat)
  : result float :=
  offsets <- range 0 len_x inc ;;
  Ok (fold_left (window_step shap_ref val_other inc) offsets 0%float).

End F64.

(** ** Vocabulary of the specification *)

(** What one window adds to a score, in the words of the specification:
    the absolute Pearson correlation when both series vary in the window,
    and nothing otherwise. *)
Definition window_term (shap_ref val_other : list R) (inc i : nat) : R :=
  if Req_dec_T (Np.std (slice shap_ref i (i + inc))) 0 then 0
  else if Req_dec_T (Np.std (slice val_other i (i + inc))) 0 then 0
  else Rabs (Np.corrcoef01 (slice shap_ref i (i + inc))
                           (slice val_other i (i + inc))).

(** The number of windows of a candidate that are scored. *)
Definition scored_windows (shap_ref val_other : list R) (len_x inc : nat)
  : nat :=
  match range 0 len_x inc with
  | Ok offsets => length (filter (window_scored shap_ref val_other inc) offsets)
  | Raise _ => 0
  end.

(** The number of windows that the loop visits. *)
Definition window_count (len_x inc : nat) : nat := (len_x + inc - 1) / inc.

(** The input is as the specification asks: two matrices of one shape and
    a target column of theirs. *)
Definition valid_input (index : nat) (shap_values X : Np.ndarray) : Prop :=
  Np.shape0 shap_values = Np.shape0 X
  /\ Np.shape1 shap_values = Np.shape1 X
  /\ (index < Np.shape1 X)%nat.

(** [i] stands before [j] in the ranking [r]. *)
Definition before (r : list nat) (i j : nat) : Prop :=
  exists a b, nth_error r a = Some i /\ nth_error r b = Some j /\ (a < b)%nat.

(** The entries of [a] under another shape. *)
Definition reshaped (n f : nat) (a : Np.ndarray) : Np.ndarray :=
  Np.mk_ndarray n f (Np.item a).

(** A possible outcome of the sampling of [n] rows: [max_rows] distinct
    row indices, in some order. *)
Definition is_sample (n : nat) (p : list nat) : Prop :=
  length p = max_rows /\ NoDup p /\ Forall (fun r => (r < n)%nat) p.

(** The position of the first [x] in [l] (the length of [l] when there is
    none). *)
Fixpoint index_of (x : nat) (l : list nat) : nat :=
  match l with
  | [] => 0%nat
  | y :: l' => if (x =? y)%nat then 0%nat else S (index_of x l')
  end.

(** The rows below [n] that are not in [p], in ascending order. *)
Definition rows_outside (n : nat) (p : list nat) : list nat :=
  filter (fun x => negb (existsb (Nat.eqb x) p)) (seq 0 n).

(** The renaming of the rows that sends the sample [p], entry by entry, to
    the sample [q], and the rows outside [p] to the rows outside [q]. *)
Definition rename (n : nat) (p q : list nat) (x : nat) : nat :=
  nth (index_of x (p ++ rows_outside n p)) (q ++ rows_outside n q) 0%nat.

(** *** Inputs of the examples *)

(** A matrix of a given shape whose entries are all [c]. *)
Definition full (n f : nat) (c : R) : Np.ndarray :=
  Np.mk_ndarray n f (fun _ _ => c).

(** Twenty rows and three columns: the first two columns hold the row
    number, the third is zero. *)
Definition ramp : Np.ndarray :=
  Np.mk_ndarray 20 3 (fun r c => if (c =? 2)%nat then 0 else INR r).

(** Attributions that are the row number in every column. *)
Definition ramp_shap : Np.ndarray :=
  Np.mk_ndarray 20 3 (fun r _ => INR r).

(** A generator whose shuffle leaves the array as it is. *)
Definition no_shuffle (l : list nat) (g : unit) : list nat * unit := (l, g).

(** ** Further vocabulary: changes of the input *)


(** The matrix whose row [r] is the row [nth r rows] of [a]. *)
Definition reorder_rows (rows : list nat) (a : Np.ndarray) : Np.ndarray :=
  Np.mk_ndarray (Np.shape0 a) (Np.shape1 a)
                (fun r c => Np.item a (nth r rows 0%nat) c).

(** ** summary_plot: which features get a row (lines 205-210, 300) *)

(** Where an [int] index of a slice falls in a sequence of length [len]:
    counted from the end when negative, and clamped to the sequence. *)
Definition clamp_index (len : nat) (i : Z) : nat :=
  Z.to_nat (if (i <? 0)%Z then Z.max 0 (i + Z.of_nat len)
            else Z.min i (Z.of_nat len)).

(** [l[start:]] *)
Definition slice_from {A : Type} (l : list A) (start : Z) : list A :=
  skipn (clamp_index (length l) start) l.

(** [l[:stop]] *)
Definition slice_to {A : Type} (l : list A) (stop : Z) : list A :=
  firstn (clamp_index (length l) stop) l.

(** [np.arange(n)] for an [int] that can be negative. *)
Definition arange_int (n : Z) : list nat := seq 0 (Z.to_nat n).

(** [np.sum(np.abs(shap_values), axis=0)] *)
Definition abs_column_sums (shap_values : Np.ndarray) : list R :=
  map (fun c => Np.sum (Np.abs (Np.column shap_values
                                  (Np.arange (Np.shape0 shap_values)) c)))
      (seq 0 (Np.shape1 shap_values)).

(** Lines 205-210 of [summary_plot]. *)
Definition feature_order (sort : bool) (max_display : Z)
  (shap_values : Np.ndarray) : list nat :=
  if sort then
    let feature_order :=
      Np.argsort (slice_to (abs_column_sums shap_values) (-1)) in
    slice_from feature_order
               (- Z.min max_display (Z.of_nat (length feature_order)))
  else
    arange_int (Z.min max_display (Z.of_nat (Np.shape1 shap_values) - 1)).

(** A feature name or a displayed value: a string or a number. *)
Inductive cell : Type :=
| CStr (s : String.string)
| CNum (x : R).

(** Line 300: [[feature_names[i] for i in feature_order]], for
    [feature_names] that is [None] or a sequence of names. *)
Definition tick_labels (feature_names : option (list cell))
  (order : list nat) : result (list cell) :=
  for_each (fun i => match feature_names with
                     | None => Raise TypeError
                     | Some names => getitem names i
                     end)
           order.

(** The magnitude by which [summary_plot] orders the column [c]. *)
Definition magnitude (shap_values : Np.ndarray) (c : nat) : R :=
  Np.sum (Np.abs (Np.column shap_values
                    (Np.arange (Np.shape0 shap_values)) c)).

(** What [summary_plot] can get as its [features]: [None], a pandas
    DataFrame, a list of names, a one-dimensional array, or a matrix of
    numbers. *)
Inductive features_arg : Type :=
| FNone
| FDataFrame (columns : list cell) (values : Np.ndarray)
| FList (items : list cell)
| FVector (values : list cell)
| FMatrix (values : Np.ndarray).

(** What [features] is after line 203: [None], a one-dimensional array or
    a matrix. *)
Inductive shown_features : Type :=
| KNone
| KVector (values : list cell)
| KMatrix (values : Np.ndarray).

Definition or_given (feature_names : option (list cell)) (names : list cell)
  : option (list cell) :=
  match feature_names with
  | None => Some names
  | Some given => Some given
  end.

(** Lines 193-203 of [summary_plot]: [features] and [feature_names]
    after the conversion. *)
Definition summary_plot_arguments (features : features_arg)
  (feature_names : option (list cell))
  : result (shown_features * option (list cell)) :=
  match features with
  | FDataFrame columns values =>
      Ok (KMatrix values, or_given feature_names columns)
  | FList items => Ok (KNone, or_given feature_names items)
  | FNone => Raise AttributeError
  | FVector values =>
      match feature_names with
      | None => Ok (KNone, Some values)
      | Some names => Ok (KVector values, Some names)
      end
  | FMatrix values => Ok (KMatrix values, feature_names)
  end.

(** ** Columns of strings: dictionaries and codes *)

Module Cat.

(** What these helpers can raise: [KeyError] for a key that a dictionary
    does not hold, or one of the exceptions above. *)
Inductive failure : Type :=
| KeyError (key : String.string)
| Builtin (e : exn).

Definition attempt (A : Type) : Type := (failure + A)%type.

Definition attempt_bind {A B : Type} (m : attempt A) (k : A -> attempt B)
  : attempt B :=
  match m with
  | inl f => inl f
  | inr a => k a
  end.

(** A [dict] with string keys: its items in the order of insertion, each
    key once. *)
Definition dict (V : Type) : Type := list (String.string * V).

(** [d[k]] *)
Fixpoint dict_get {V : Type} (d : dict V) (k : String.string) : attempt V :=
  match d with
  | [] => inl (KeyError k)
  | (k', v) :: d' => if String.eqb k k' then inr v else dict_get d' k
  end.

(** [d[k] = v]: a key that is there keeps its place. *)
Fixpoint dict_set {V : Type} (d : dict V) (k : String.string) (v : V)
  : dict V :=
  match d with
  | [] => [(k, v)]
  | (k', v') :: d' =>
      if String.eqb k k' then (k', v) :: d' else (k', v') :: dict_set d' k v
  end.

(** [list(d.keys())] *)
Definition dict_keys {V : Type} (d : dict V) : list String.string :=
  map fst d.

(** [[d[k] for k in keys]] *)
Fixpoint lookup_all {V : Type} (d : dict V) (keys : list String.string)
  : attempt (list V) :=
  match keys with
  | [] => inr []
  | k :: keys' =>
      attempt_bind (dict_get d k) (fun v =>
      attempt_bind (lookup_all d keys') (fun vs => inr (v :: vs)))
  end.

(** [l.sort()] on strings, which Python compares by code points. *)
Fixpoint insert_name (s : String.string) (l : list String.string)
  : list String.string :=
  match l with
  | [] => [s]
  | t :: l' => if String.leb s t then s :: l else t :: insert_name s l'
  end.

Definition sort_names (l : list String.string) : list String.string :=
  fold_right insert_name [] l.

(** [{n: i for i, n in enumerate(names)}] *)
Definition name_codes (names : list String.string) : dict nat :=
  fold_left (fun d p => dict_set d (snd p) (fst p))
            (combine (seq 0 (length names)) names) [].

(** A column as the plots get it.  [Strs]: Python strings, in a list or
    in an array of dtype object; the test [type(x[0]) == str] holds for
    them.  [NpStrs]: an array of strings of numpy's own (dtype [<U]); its
    entries are of the type [numpy.str_], for which the test fails.
    [Nums]: an array of numbers. *)
Inductive column_arg : Type :=
| Strs (l : list String.string)
| NpStrs (l : list String.string)
| Nums (l : list R).

Section SetOrder.

(** [list(set(x))]: the distinct strings of [x], in an order that Python
    does not fix. *)
Variable list_of_set : list String.string -> list String.string.

(** Lines 488-491 of [plot], 453-456 of [interaction_plot], 411-414 and
    419-422 of [joint_plot]: the names, the dictionary and the codes of a
    column of strings. *)
Definition encode (x : list String.string)
  : list String.string * dict nat * attempt (list nat) :=
  let xnames := sort_names (list_of_set x) in
  let name_map := name_codes xnames in
  (xnames, name_map, lookup_all name_map x).

(** Lines 487-493 and 509-510 of [plot] (452-459 and 480-481 of
    [interaction_plot]): [xv], what is put on the x axis, and the ticks
    with their labels that line 510 sets when the call gets there and
    [type(x[0]) == str].  [x[0]] fails on a column without rows. *)
Definition plot_axis (x : column_arg)
  : attempt (column_arg * option (list nat * list String.string)) :=
  match x with
  | Strs [] | NpStrs [] | Nums [] => inl (Builtin IndexError)
  | Nums _ | NpStrs _ => inr (x, None)
  | Strs xs =>
      let '(xnames, name_map, xv) := encode xs in
      attempt_bind xv (fun xv =>
      attempt_bind (lookup_all name_map xnames) (fun ticks =>
      inr (Nums (map INR xv), Some (ticks, xnames))))
  end.

(** Lines 410-424 and 435-436 of [joint_plot]: the ticks of the x axis
    that line 437 sets when the call gets there.  The dictionary of the y
    column is bound to the same name [name_map] as that of the x
    column. *)
Definition joint_plot_xticks (x y : column_arg)
  : attempt (option (list nat * list String.string)) :=
  match x with
  | Strs [] | NpStrs [] | Nums [] => inl (Builtin IndexError)
  | Nums _ | NpStrs _ =>
      match y with
      | Strs [] | NpStrs [] | Nums [] => inl (Builtin IndexError)
      | Nums _ | NpStrs _ => inr None
      | Strs ys =>
          let '(ynames, name_map, yv) := encode ys in
          attempt_bind yv (fun _ => inr None)
      end
  | Strs xs =>
      let '(xnames, name_map, xv) := encode xs in
      attempt_bind xv (fun _ =>
      match y with
      | Strs [] | NpStrs [] | Nums [] => inl (Builtin IndexError)
      | Nums _ | NpStrs _ =>
          attempt_bind (lookup_all name_map xnames) (fun ticks =>
          inr (Some (ticks, xnames)))
      | Strs ys =>
          let '(ynames, name_map, yv) := encode ys in
          attempt_bind yv (fun _ =>
          attempt_bind (lookup_all name_map xnames) (fun ticks =>
          inr (Some (ticks, xnames))))
      end)
  end.

End SetOrder.

(** Lines 76-80 of [dependence_plot]: the dictionary from the displayed
    names to the raw values, filled row by row. *)
Definition name_map_of (xv : list R) (xd : list String.string)
  : attempt (dict R) :=
  fold_left (fun acc i =>
               attempt_bind acc (fun name_map =>
               match nth_error xd i, nth_error xv i with
               | Some name, Some v => inr (dict_set name_map name v)
               | _, _ => inl (Builtin IndexError)
               end))
            (seq 0 (length xv)) (inr []).

(** Lines 76-80 and 131 of [dependence_plot], for the raw values [xv] and
    the displayed values [xd] of the plotted column: the ticks and their
    labels that line 131 sets when the call gets there and
    [type(xd[0]) == str].  The ticks of the colour bar are made in the
    same way from [cv] and [cd] (lines 94-98 and 107-109). *)
Definition dependence_xticks (xv : list R) (xd : column_arg)
  : attempt (option (list R * list String.string)) :=
  match xd with
  | Strs [] | NpStrs [] | Nums [] => inl (Builtin IndexError)
  | Nums _ | NpStrs _ => inr None
  | Strs names =>
      attempt_bind (name_map_of xv names) (fun name_map =>
      let xnames := dict_keys name_map in
      attempt_bind (lookup_all name_map xnames) (fun ticks =>
      inr (Some (ticks, xnames))))
  end.

(** The place of the first [s] in [names] (their number when there is
    none). *)
Fixpoint position (names : list String.string) (s : String.string) : nat :=
  match names with
  | [] => 0%nat
  | t :: names' => if String.eqb s t then 0%nat else S (position names' s)
  end.

(** The distinct strings of a column in ascending order: what
    [list(set(x))] followed by [sort()] gives for any order of the set. *)
Definition sorted_names (x : list String.string) : list String.string :=
  sort_names (nodup String.string_dec x).

(** The loop of lines 78-79 by recursion on the rows, from a dictionary
    [d]. *)
Fixpoint fill (d : dict R) (xv : list R) (xd : list String.string)
  : attempt (dict R) :=
  match xv, xd with
  | [], _ => inr d
  | _ :: _, [] => inl (Builtin IndexError)
  | v :: xv', s :: xd' => fill (dict_set d s v) xv' xd'
  end.

(** The distinct strings of a list, in the order of their first
    appearance. *)
Fixpoint first_appearances (seen l : list String.string)
  : list String.string :=
  match l with
  | [] => []
  | s :: l' =>
      if existsb (String.eqb s) seen then first_appearances seen l'
      else s :: first_appearances (s :: seen) l'
  end.

(** The value in the last row whose displayed name is [name]. *)
Fixpoint last_value (xv : list R) (xd : list String.string)
  (name : String.string) : option R :=
  match xv, xd with
  | v :: xv', s :: xd' =>
      match last_value xv' xd' name with
      | Some w => Some w
      | None => if String.eqb name s then Some v else None
      end
  | _, _ => None
  end.

End Cat.

(** ** dependence_plot up to the choice of the colouring feature
    (lines 54-89) *)

Module Dep.

Import Cat.

(** [features]: a matrix, or a pandas DataFrame with its column labels. *)
Inductive frame : Type :=
| Matrix (values : Np.ndarray)
| DataFrame (columns : list cell) (values : Np.ndarray).

Definition frame_values (features : frame) : Np.ndarray :=
  match features with
  | Matrix values => values
  | DataFrame _ values => values
  end.

(** A matrix of displayed values, by its columns. *)
Record table : Type := mk_table {
  t_cols : nat;
  t_column : nat -> column_arg
}.

(** [display_features]: [None], a matrix, or a DataFrame. *)
Inductive display_arg : Type :=
| DNone
| DTable (t : table)
| DDataFrame (columns : list cell) (t : table).

(** [feature_names]: [None], a single name, or a sequence of names. *)
Inductive names_arg : Type :=
| NNone
| NStr (s : String.string)
| NList (names : list cell).

Definition lift {A : Type} (r : result A) : attempt A :=
  match r with
  | Ok a => inr a
  | Raise e => inl (Builtin e)
  end.

Definition or_columns (feature_names : names_arg) (columns : list cell)
  : names_arg :=
  match feature_names with
  | NNone => NList columns
  | _ => feature_names
  end.

(** Lines 55-64: the feature matrix, the names, and the displayed values
    when they are not the features themselves. *)
Definition convert (features : frame) (feature_names : names_arg)
  (display_features : display_arg)
  : Np.ndarray * names_arg * option table :=
  let '(features, feature_names) :=
    match features with
    | DataFrame columns values => (values, or_columns feature_names columns)
    | Matrix values => (values, feature_names)
    end in
  match display_features with
  | DDataFrame columns t =>
      (features, or_columns feature_names columns, Some t)
  | DTable t => (features, feature_names, Some t)
  | DNone => (features, feature_names, None)
  end.

(** [a[:,ind]] for an [ind] that is not negative. *)
Definition matrix_column (a : Np.ndarray) (ind : nat) : attempt (list R) :=
  if (ind <? Np.shape1 a)%nat
  then inr (Np.column a (Np.arange (Np.shape0 a)) ind)
  else inl (Builtin IndexError).

(** Line 74. *)
Definition display_column (display : option table) (features : Np.ndarray)
  (ind : nat) : attempt column_arg :=
  match display with
  | None => attempt_bind (matrix_column features ind) (fun xd => inr (Nums xd))
  | Some t => if (ind <? t_cols t)%nat then inr (t_column t ind)
              else inl (Builtin IndexError)
  end.

(** Lines 76-80. *)
Definition make_name_map (xv : list R) (xd : column_arg)
  : attempt (option (dict R)) :=
  match xd with
  | Strs [] | NpStrs [] | Nums [] => inl (Builtin IndexError)
  | Nums _ | NpStrs _ => inr None
  | Strs names => attempt_bind (name_map_of xv names) (fun m => inr (Some m))
  end.

(** Lines 83-85. *)
Definition feature_name (feature_names : names_arg) (ind : nat)
  : attempt cell :=
  match feature_names with
  | NNone => inl (Builtin TypeError)
  | NStr s => lift (getitem [CStr s] ind)
  | NList names => lift (getitem names ind)
  end.

(** Lines 73-85: what is read before the colouring feature is chosen. *)
Definition before_selection (ind : nat) (shap_values features : Np.ndarray)
  (feature_names : names_arg) (display : option table) : attempt cell :=
  attempt_bind (matrix_column features ind) (fun xv =>
  attempt_bind (display_column display features ind) (fun xd =>
  attempt_bind (matrix_column shap_values ind) (fun s =>
  attempt_bind (make_name_map xv xd) (fun _ =>
  feature_name feature_names ind)))).

Section Selection.

Variable rng : Type.
Variable shuffle : list nat -> rng -> list nat * rng.

(** Lines 54-89 of [dependence_plot], for two-dimensional [shap_values]
    and [features] and an [ind] that is not negative: the index of the
    colouring feature.  (A negative [ind] counts the columns from the end
    in lines 73-75 and 85 and is no column index for the ranker.) *)
Definition selection (ind : nat) (shap_values : Np.ndarray)
  (features : frame) (feature_names : names_arg)
  (display_features : display_arg) (interaction_index : choice) (g : rng)
  : attempt nat * rng :=
  let '(features, feature_names, display) :=
    convert features feature_names display_features in
  match before_selection ind shap_values features feature_names display with
  | inl f => (inl f, g)
  | inr _ =>
      let '(r, g') :=
        dependence_plot_interaction_index shuffle ind shap_values features
                                          interaction_index g in
      (lift r, g')
  end.

End Selection.

Arguments selection {rng} shuffle ind shap_values features feature_names
  display_features interaction_index g.

End Dep.

(** ** visualize (lines 307-385) *)

Module Vis.

Local Open Scope string_scope.

(** A matrix of displayed values, strings or numbers. *)
Record ctable : Type := mk_ctable {
  crows : nat;
  ccols : nat;
  cell_at : nat -> nat -> cell
}.

(** What [shap_values] can be: something that is no numpy array, a
    one-dimensional array, or a matrix. *)
Inductive shap_arg : Type :=
| SOther
| SVector (values : list R)
| SMatrix (values : Np.ndarray).

(** What [features] and [data] can be. *)
Inductive vfeatures : Type :=
| VNone
| VDataFrame (columns : list cell) (values : ctable)
| VSeries (index : list cell) (values : list cell)
| VList (items : list cell)
| VVector (values : list cell)
| VMatrix (values : ctable).

(** What [features] is after line 334: [None], a one-dimensional array or
    a matrix. *)
Inductive converted : Type :=
| CNone
| CVector (values : list cell)
| CMatrix (values : ctable).

(** An [AdditiveExplanation] of iml with what [visualize] puts into it;
    iml's constructors are taken to store their arguments.  [fill] is the
    entry of the 1 x [groups] array that is given to [Instance] and to
    [DenseData], 0 or 1. *)
Record explanation : Type := mk_explanation {
  base_value : R;
  out_value : R;
  effects : list R;
  fill : R;
  groups : nat;
  group_display_values : list cell;
  out_names : list String.string;
  group_names : list cell
}.

Inductive visualized : Type :=
| Delegated                      (* the result of [iml.visualize] *)
| One (e : explanation)
| Many (es : list explanation).

(** The row [i] of a matrix. *)
Definition row (a : Np.ndarray) (i : nat) : list R :=
  map (Np.item a i) (seq 0 (Np.shape1 a)).

Definition crow (t : ctable) (i : nat) : list cell :=
  map (cell_at t i) (seq 0 (ccols t)).

(** [t.flatten()] *)
Definition flatten (t : ctable) : list cell :=
  concat (map (crow t) (seq 0 (crows t))).

Definition blank : cell := CStr "".

(** Lines 311-314. *)
Definition with_data (features data : vfeatures) : vfeatures :=
  match data with
  | VNone => features
  | _ => match features with
         | VNone => data
         | _ => features
         end
  end.

Definition or_names (feature_names : option (list cell))
  (names : list cell) : option (list cell) :=
  match feature_names with
  | None => Some names
  | Some given => Some given
  end.

(** Lines 320-334.  The test of line 328 compares [str(type(features))]
    with the string [list], which it never is: a list goes on to line 332
    and has no [shape], as [None] has none. *)
Definition convert (features : vfeatures) (feature_names : option (list cell))
  : result (converted * option (list cell)) :=
  match features with
  | VDataFrame columns values =>
      Ok (CMatrix values, or_names feature_names columns)
  | VSeries index values =>
      Ok (CVector values, or_names feature_names index)
  | VNone | VList _ => Raise AttributeError
  | VVector values =>
      match feature_names with
      | None => Ok (CNone, Some values)
      | Some names => Ok (CVector values, Some names)
      end
  | VMatrix values => Ok (CMatrix values, feature_names)
  end.

(** Lines 336-337. *)
Definition as_matrix (shap_values : list R) : Np.ndarray :=
  Np.mk_ndarray 1 (length shap_values) (fun _ c => nth c shap_values 0).

(** [shap_values[i,-1]] *)
Definition last_entry (a : Np.ndarray) (i : nat) : result R :=
  match Np.shape1 a with
  | O => Raise IndexError
  | S c => Ok (Np.item a i c)
  end.

(** Lines 343-344 and 366-367. *)
Definition default_names (feature_names : option (list cell))
  (a : Np.ndarray) : list cell :=
  match feature_names with
  | None => repeat blank (Np.shape1 a - 1)
  | Some names => names
  end.

(** Lines 350-360 and 373-383: the explanation of the row [i]. *)
Definition explain (a : Np.ndarray) (i : nat) (one_or_zero : R)
  (names display : list cell) (outs : list String.string)
  : result explanation :=
  base <- last_entry a i ;;
  Ok (mk_explanation base
                     (Np.sum (row a i))
                     (removelast (row a i))
                     one_or_zero
                     (length names)
                     display
                     outs
                     names).

(** Lines 368-371: the displayed values of the row [i], [features[i,:]]
    when there are features. *)
Definition display_row (features : converted) (names : list cell) (i : nat)
  : result (list cell) :=
  match features with
  | CNone => Ok (repeat blank (length names))
  | CMatrix t => if (i <? crows t)%nat then Ok (crow t i)
                 else Raise IndexError
  | CVector _ => Raise IndexError
  end.

(** Lines 345-348. *)
Definition display_flat (features : converted) (names : list cell)
  : list cell :=
  match features with
  | CNone => repeat blank (length names)
  | CMatrix t => flatten t
  | CVector values => values
  end.

(** The array after line 337. *)
Definition array_of (shap_values : shap_arg) : Np.ndarray :=
  match shap_values with
  | SMatrix a => a
  | SVector values => as_matrix values
  | SOther => as_matrix []
  end.

(** Lines 339-340. *)
Definition or_default (out_names : option (list String.string))
  : list String.string :=
  match out_names with
  | None => ["output value"]
  | Some outs => outs
  end.

Definition visualize (shap_values : shap_arg) (features : vfeatures)
  (feature_names : option (list cell))
  (out_names : option (list String.string)) (data : vfeatures)
  : result visualized :=
  let features := with_data features data in
  match shap_values with
  | SOther => Ok Delegated
  | SVector _ | SMatrix _ =>
      converted <- convert features feature_names ;;
      let '(features, feature_names) := converted in
      let a := array_of shap_values in
      let outs := or_default out_names in
      let names := default_names feature_names a in
      if (Np.shape0 a =? 1)%nat then
        e <- explain a 0 0 names (display_flat features names) outs ;;
        Ok (One e)
      else
        es <- for_each (fun i =>
                          display <- display_row features names i ;;
                          explain a i 1 names display outs)
                       (seq 0 (Np.shape0 a)) ;;
        Ok (Many es)
  end.

(** The explanations that a result holds. *)
Definition explanations (v : visualized) : list explanation :=
  match v with
  | Delegated => []
  | One e => [e]
  | Many es => es
  end.

(** Whether [features[i,:]] can be read for every [i < n]. *)
Definition rows_shown (features : converted) (n : nat) : Prop :=
  match features with
  | CNone => True
  | CMatrix t => (n <= crows t)%nat
  | CVector _ => False
  end.

(** Example inputs: SHAP values for two features and the base value, of
    two samples, and feature values of three samples. *)
Definition two_rows : Np.ndarray :=
  Np.mk_ndarray 2 3 (fun i c => INR (i + c)).

Definition one_row : Np.ndarray :=
  Np.mk_ndarray 1 3 (fun i c => INR (i + c)).

Definition no_columns : Np.ndarray :=
  Np.mk_ndarray 2 0 (fun i c => 0).

Definition three_samples : ctable :=
  mk_ctable 3 2 (fun i c => CNum (INR (10 * i + c))).

Definition age_sex : list cell := [CStr "age"; CStr "sex"].

Local Close Scope string_scope.

End Vis.

(** ** summary_plot: the layout of the dots of one row (lines 219-235) *)

Module Dots.

Definition row_height : R := 4 / 10.

Definition nbins : R := 100.

Definition Reqb (x y : R) : bool := if Req_dec_T x y then true else false.

(** [np.min] and [np.max], which refuse an array without entries. *)
Definition amin (l : list R) : result R :=
  match l with
  | [] => Raise ValueError
  | x :: l' => Ok (fold_left Rmin l' x)
  end.

Definition amax (l : list R) : result R :=
  match l with
  | [] => Raise ValueError
  | x :: l' => Ok (fold_left Rmax l' x)
  end.

(** [np.round]: to the nearest integer, and to the even one of two that
    are equally near. *)
Definition round (x : R) : R :=
  let f := Int_part x in
  let r := x - IZR f in
  if Np.Rltb r (1 / 2) then IZR f
  else if Np.Rltb (1 / 2) r then IZR (f + 1)
  else if Z.even f then IZR f
  else IZR (f + 1).

(** Line 224: the bin of every row. *)
Definition quantize (shaps : list R) : result (list R) :=
  mx <- amax shaps ;;
  mn <- amin shaps ;;
  Ok (map (fun s => round (nbins * (s - mn) / (mx - mn + eps))) shaps).

(** Line 225: the rows in the order of their bins, ties being broken by
    the draws [noise] of [np.random.randn(N)]. *)
Definition bin_order (quant noise : list R) : list nat :=
  Np.argsort (map (fun p => fst p + snd p * / 1000000) (combine quant noise)).

(** Line 232. *)
Definition layer_offset (layer : nat) : R :=
  INR layer * (INR (layer mod 2) * 2 - 1).

(** [ys[ind] = v] *)
Definition setitem (ys : list R) (ind : nat) (v : R) : result (list R) :=
  if (ind <? length ys)%nat
  then Ok (firstn ind ys ++ v :: skipn (S ind) ys)
  else Raise IndexError.

Record dot_state : Type := mk_dot_state {
  layer : nat;
  last_bin : R;
  ys : list R
}.

(** Lines 230-234, one turn of the loop. *)
Definition dot_step (quant : list R) (st : dot_state) (ind : nat)
  : result dot_state :=
  q <- getitem quant ind ;;
  let layer := if Reqb q (last_bin st) then layer st else 0%nat in
  ys' <- setitem (ys st) ind (layer_offset layer) ;;
  Ok (mk_dot_state (S layer) q ys').

(** Lines 229-234. *)
Fixpoint dot_loop (quant : list R) (st : dot_state) (inds : list nat)
  : result dot_state :=
  match inds with
  | [] => Ok st
  | ind :: inds' =>
      st' <- dot_step quant st ind ;;
      dot_loop quant st' inds'
  end.

(** Line 235.  When [np.max(ys)] is 0 numpy divides by zero: it warns,
    the factor is infinite and the entries of [ys] that are 0 become nan;
    [None] stands for the array that results. *)
Definition scale (ys : list R) : result (option (list R)) :=
  m <- amax ys ;;
  if Reqb m 0 then Ok None
  else Ok (Some (map (fun y => y * (row_height / m)) ys)).

(** Lines 219-235: the vertical offsets of the dots of one feature, for
    its column [shaps] of SHAP values. *)
Definition dot_offsets (shaps noise : list R) : result (option (list R)) :=
  quant <- quantize shaps ;;
  st <- dot_loop quant (mk_dot_state 0 (-1) (repeat 0 (length shaps)))
                 (bin_order quant noise) ;;
  scale (ys st).

(** The draws keep the order of the bins when none of them moves a bin by
    a half or more. *)
Definition small_noise (noise : list R) : Prop :=
  Forall (fun n => Rabs n * / 1000000 < 1 / 2) noise.

(** The layers that the loop counts, one for each turn. *)
Fixpoint layers_from (quant : list R) (layer : nat) (last : R)
  (inds : list nat) : list nat :=
  match inds with
  | [] => []
  | ind :: inds' =>
      let q := nth ind quant 0 in
      let l := if Reqb q last then layer else 0%nat in
      l :: layers_from quant (S l) q inds'
  end.

End Dots.

(** ** summary_plot: the colours of a violin (lines 263-267) *)

Module Violin.

(** The number of points of [xs], [np.linspace(..., 100)]. *)
Definition len_xs : nat := 100.

(** Line 264. *)
Definition window_size (n : nat) : nat := Nat.max 10 (n / 20).

(** [np.mean], which warns and gives nan for an array without entries;
    [None] stands for nan. *)
Definition nan_mean (l : list R) : option R :=
  match l with
  | [] => None
  | _ :: _ => Some (Np.mean l)
  end.

(** Lines 265-267, for the column [values] of feature values. *)
Definition smooth_values (values : list R) : list (option R) :=
  let window_size := window_size (length values) in
  map (fun j => nan_mean (slice values (Nat.max 0 (j - window_size))
                                       (Nat.min len_xs (j + window_size))))
      (seq 0 (len_xs - 1)).

End Violin.

(** ** summary_plot with dots, from the arguments to the labels
    (lines 193-243 and 300) *)

Module Summary.

(** What the function can stop with: one of the exceptions above, or the
    assertion of line 240. *)
Inductive stop : Type :=
| Raised (e : exn)
| AssertionError.

Definition run (A : Type) : Type := (stop + A)%type.

Definition of_result {A : Type} (r : result A) : run A :=
  match r with
  | Ok a => inr a
  | Raise e => inl (Raised e)
  end.

(** Lines 237-243: what the colours of a row need.  [features[:,i]] is
    read for the percentiles before the numbers of rows are compared. *)
Definition colours (features : shown_features) (i n : nat) : run unit :=
  match features with
  | KNone => inr tt
  | KVector _ => inl (Raised IndexError)
  | KMatrix values =>
      if (i <? Np.shape1 values)%nat
      then if (Np.shape0 values =? n)%nat then inr tt else inl AssertionError
      else inl (Raised IndexError)
  end.

(** Lines 218-243: the row of the column [i], with the draws [noise] of
    line 225; the offsets of its dots. *)
Definition draw_row (features : shown_features) (shap_values : Np.ndarray)
  (noise : list R) (i : nat) : run (option (list R)) :=
  let shaps := Np.column shap_values (Np.arange (Np.shape0 shap_values)) i in
  match of_result (Dots.dot_offsets shaps noise) with
  | inl e => inl e
  | inr ys =>
      match colours features i (length shaps) with
      | inl e => inl e
      | inr _ => inr ys
      end
  end.

(** Lines 217-243: the rows in their order; [noise pos] are the draws for
    the row at the position [pos]. *)
Fixpoint draw_rows (features : shown_features) (shap_values : Np.ndarray)
  (noise : nat -> list R) (pos : nat) (order : list nat)
  : run (list (option (list R))) :=
  match order with
  | [] => inr []
  | i :: order' =>
      match draw_row features shap_values (noise pos) i with
      | inl e => inl e
      | inr ys =>
          match draw_rows features shap_values noise (S pos) order' with
          | inl e => inl e
          | inr rows => inr (ys :: rows)
          end
      end
  end.

(** Lines 193-243 and 300 for [plot_type="dot"], the default: the offsets
    of the dots of every row, and the labels of the rows.  A column index
    from [feature_order] is a column of [shap_values]. *)
Definition summary_plot_dot (features : features_arg)
  (feature_names : option (list cell)) (sort : bool) (max_display : Z)
  (shap_values : Np.ndarray) (noise : nat -> list R)
  : run (list (option (list R)) * list cell) :=
  match summary_plot_arguments features feature_names with
  | Raise e => inl (Raised e)
  | Ok (features, feature_names) =>
      let feature_order := feature_order sort max_display shap_values in
      match draw_rows features shap_values noise 0 feature_order with
      | inl e => inl e
      | inr rows =>
          match tick_labels feature_names feature_order with
          | Raise e => inl (Raised e)
          | Ok labels => inr (rows, labels)
          end
      end
  end.

End Summary.
(** ** Facts about the numpy primitives *)

Module NpFacts.
Import Np.

Lemma Rltb_true x y : Rltb x y = true <-> x < y.
Proof. unfold Rltb. destruct (Rlt_dec x y); split; intros; try easy. Qed.

Lemma Rltb_false x y : Rltb x y = false <-> y <= x.
Proof.
  unfold Rltb. destruct (Rlt_dec x y); split; intros; try easy; lra.
Qed.

Lemma Rleb_true x y : Rleb x y = true <-> x <= y.
Proof. unfold Rleb. destruct (Rle_dec x y); split; intros; try easy. Qed.

Lemma Rleb_false x y : Rleb x y = false <-> y < x.
Proof.
  unfold Rleb. destruct (Rle_dec x y); split; intros; try easy; lra.
Qed.

(** *** argsort *)

Section Argsort.
Variable key : nat -> R.

Lemma insert_by_perm i l : Permutation (insert_by key i l) (i :: l).
Proof.
  induction l as [|j l IH]; simpl.
  - apply Permutation_refl.
  - destruct (Rleb (key i) (key j)).
    + apply Permutation_refl.
    + eapply perm_trans; [apply perm_skip, IH | apply perm_swap].
Qed.

Lemma insert_by_sorted i l :
  StronglySorted (fun a b => key a <= key b) l ->
  StronglySorted (fun a b => key a <= key b) (insert_by key i l).
Proof.
  induction 1 as [|j l Hs IH Hall]; simpl.
  - constructor; constructor.
  - destruct (Rleb (key i) (key j)) eqn:E.
    + apply Rleb_true in E.
      constructor; [constructor; assumption|].
      constructor; [exact E|].
      rewrite Forall_forall in *. intros k Hk.
      specialize (Hall k Hk). simpl in Hall. lra.
    + apply Rleb_false in E.
      constructor; [exact IH|].
      rewrite Forall_forall in *. intros k Hk.
      apply (Permutation_in _ (insert_by_perm i l)) in Hk.
      destruct Hk as [<-|Hk]; [lra | auto].
Qed.

Lemma fold_insert_perm l :
  Permutation (fold_right (insert_by key) [] l) l.
Proof.
  induction l as [|i l IH]; simpl; [constructor|].
  eapply perm_trans; [apply insert_by_perm | apply perm_skip, IH].
Qed.

Lemma fold_insert_sorted l :
  StronglySorted (fun a b => key a <= key b) (fold_right (insert_by key) [] l).
Proof.
  induction l as [|i l IH]; simpl; [constructor|].
  apply insert_by_sorted, IH.
Qed.

End Argsort.

Lemma argsort_perm a : Permutation (argsort a) (seq 0 (length a)).
Proof. apply fold_insert_perm. Qed.

Lemma argsort_sorted a :
  StronglySorted (fun i j => nth i a 0 <= nth j a 0) (argsort a).
Proof. apply (fold_insert_sorted (fun k => nth k a 0)). Qed.

Lemma argsort_length a : length (argsort a) = length a.
Proof.
  rewrite (Permutation_length (argsort_perm a)). apply length_seq.
Qed.

Lemma argsort_in_range a k : In k (argsort a) -> (k < length a)%nat.
Proof.
  intros H. apply (Permutation_in _ (argsort_perm a)) in H.
  apply in_seq in H. lia.
Qed.

Lemma take_length a idx : length (take a idx) = length idx.
Proof. apply length_map. Qed.

(** *** sums, standard deviation *)

Lemma sum_sqr_nonneg (f : R -> R) l : 0 <= sum (map (fun x => Rsqr (f x)) l).
Proof.
  induction l as [|x l IH]; simpl; [lra|].
  pose proof (Rle_0_sqr (f x)). lra.
Qed.

Lemma sum_abs_nonneg l : 0 <= sum (abs l).
Proof.
  induction l as [|x l IH]; simpl; [lra|].
  pose proof (Rabs_pos x). lra.
Qed.

Lemma std_nonneg l : 0 <= std l.
Proof. apply sqrt_pos. Qed.

Lemma std_ssd l : std l = sqrt (ssd l / INR (length l)).
Proof. unfold std, ssd, mean. now rewrite length_map. Qed.

Lemma std_singleton x : std [x] = 0.
Proof.
  rewrite std_ssd. unfold ssd, mean. simpl.
  replace ((x + 0) / 1) with x by field.
  replace (x - x) with 0 by ring. rewrite Rsqr_0.
  replace ((0 + 0) / 1) with 0 by field. apply sqrt_0.
Qed.

Lemma std_nil : std [] = 0.
Proof.
  rewrite std_ssd. unfold ssd. simpl. unfold Rdiv. rewrite Rmult_0_l.
  apply sqrt_0.
Qed.

Lemma sum_constant c l : Forall (eq c) l -> sum l = INR (length l) * c.
Proof.
  induction 1 as [|x l <- _ IH]; [simpl; lra|].
  change (sum (c :: l)) with (c + sum l). rewrite IH.
  change (length (c :: l)) with (S (length l)). rewrite S_INR. lra.
Qed.

(** In exact arithmetic equal values have the standard deviation 0. *)
Lemma std_constant c l : Forall (eq c) l -> std l = 0.
Proof.
  intros H. destruct l as [|x l]; [apply std_nil|].
  assert (Hm : mean (x :: l) = c).
  { unfold mean. rewrite (sum_constant c _ H). field.
    apply not_0_INR. discriminate. }
  unfold std. rewrite Hm.
  assert (E : map (fun y => Rsqr (y - c)) (x :: l)
              = map (fun _ => 0) (x :: l)).
  { apply map_ext_in. intros y Hy. rewrite Forall_forall in H.
    rewrite <- (H y Hy). unfold Rsqr. ring. }
  rewrite E. unfold mean.
  assert (Hz : sum (map (fun _ : R => 0) (x :: l)) = 0).
  { generalize (x :: l). intros l'.
    induction l' as [|a l' IH]; simpl; [reflexivity | lra]. }
  rewrite Hz. unfold Rdiv. rewrite Rmult_0_l. apply sqrt_0.
Qed.

Lemma std_pos_ssd l : 0 < std l -> 0 < ssd l /\ (2 <= length l)%nat.
Proof.
  intros H.
  destruct l as [|x [|y l]].
  - rewrite std_nil in H. lra.
  - rewrite std_singleton in H. lra.
  - split; [|simpl; lia].
    rewrite std_ssd in H.
    set (n := INR (length (x :: y :: l))) in *.
    assert (Hn : 0 < n) by (apply lt_0_INR; simpl; lia).
    destruct (Rle_or_gt (ssd (x :: y :: l)) 0) as [Hle|Hgt]; [|lra].
    exfalso.
    assert (Hq : ssd (x :: y :: l) / n <= 0).
    { unfold Rdiv. pose proof (Rinv_0_lt_compat n Hn). nra. }
    rewrite (sqrt_neg_0 _ Hq) in H. lra.
Qed.

(** *** Pearson's coefficient lies in [-1, 1] *)

(** The sum of the products of the deviations from two given centres. *)
Lemma sum_dev_self (m : R) l :
  sum (map (fun p => (fst p - m) * (snd p - m)) (combine l l))
  = sum (map (fun x => Rsqr (x - m)) l).
Proof.
  induction l as [|x l IH]; simpl; [reflexivity|].
  rewrite IH. unfold Rsqr. ring.
Qed.

Lemma cov_self a : cov a a = ssd a / (INR (length a) - 1).
Proof. unfold cov, ssd. now rewrite sum_dev_self. Qed.

Lemma sum_dev_quadratic (ma mb t : R) a :
  forall b, length a = length b ->
  sum (map (fun p => Rsqr (t * (fst p - ma) + (snd p - mb))) (combine a b))
  = sum (map (fun x => Rsqr (x - ma)) a) * (t * t)
    + 2 * sum (map (fun p => (fst p - ma) * (snd p - mb)) (combine a b)) * t
    + sum (map (fun y => Rsqr (y - mb)) b).
Proof.
  induction a as [|x a IH]; intros [|y b] Hlen; simpl in *; try discriminate.
  - ring.
  - rewrite (IH b) by lia. unfold Rsqr. ring.
Qed.

Lemma discriminant_nonpos (A P B : R) :
  0 <= A -> (forall t, 0 <= A * (t * t) + 2 * P * t + B) -> P * P <= A * B.
Proof.
  intros HA H.
  destruct (Req_dec A 0) as [->|HA0].
  - destruct (Req_dec P 0) as [->|HP0]; [lra|].
    exfalso. specialize (H (- (B + 1) / (2 * P))).
    replace (0 * (- (B + 1) / (2 * P) * (- (B + 1) / (2 * P)))
             + 2 * P * (- (B + 1) / (2 * P)) + B) with (-1) in H
      by (field; exact HP0).
    lra.
  - assert (HApos : 0 < A) by lra.
    specialize (H (- P / A)).
    replace (A * (- P / A * (- P / A)) + 2 * P * (- P / A) + B)
      with ((A * B - P * P) / A) in H by (field; exact HA0).
    apply Rmult_le_compat_r with (r := A) in H; [|lra].
    replace ((A * B - P * P) / A * A) with (A * B - P * P) in H
      by (field; exact HA0).
    lra.
Qed.

Lemma cauchy_schwarz (ma mb : R) a b :
  length a = length b ->
  Rsqr (sum (map (fun p => (fst p - ma) * (snd p - mb)) (combine a b)))
  <= sum (map (fun x => Rsqr (x - ma)) a)
     * sum (map (fun y => Rsqr (y - mb)) b).
Proof.
  intros Hlen. unfold Rsqr at 1.
  apply discriminant_nonpos.
  - apply (sum_sqr_nonneg (fun x => x - ma)).
  - intros t. rewrite <- (sum_dev_quadratic ma mb t a b Hlen).
    clear Hlen. generalize (combine a b). intros l.
    induction l as [|p l IH]; simpl; [lra|].
    pose proof (Rle_0_sqr (t * (fst p - ma) + (snd p - mb))). lra.
Qed.

Lemma corrcoef01_bound a b :
  length a = length b -> 0 < std a -> 0 < std b ->
  Rabs (corrcoef01 a b) <= 1.
Proof.
  intros Hlen Ha Hb.
  apply std_pos_ssd in Ha. destruct Ha as [Ha Hn].
  apply std_pos_ssd in Hb. destruct Hb as [Hb _].
  unfold corrcoef01. rewrite !cov_self. rewrite <- Hlen.
  set (d := INR (length a) - 1).
  assert (Hd : 0 < d).
  { unfold d. apply le_INR in Hn. simpl in Hn. lra. }
  set (C := sum (map (fun p => (fst p - mean a) * (snd p - mean b))
                     (combine a b))).
  assert (HC : cov a b = C / d) by reflexivity.
  rewrite HC.
  assert (Hcs : Rsqr C <= ssd a * ssd b) by (apply cauchy_schwarz, Hlen).
  assert (Hsa : 0 < sqrt (ssd a / d)).
  { apply sqrt_lt_R0. apply Rdiv_lt_0_compat; assumption. }
  assert (Hsb : 0 < sqrt (ssd b / d)).
  { apply sqrt_lt_R0. apply Rdiv_lt_0_compat; assumption. }
  assert (Hprod : sqrt (ssd a / d) * sqrt (ssd b / d) = sqrt (ssd a * ssd b) / d).
  { rewrite <- sqrt_mult_alt by (apply Rlt_le, Rdiv_lt_0_compat; assumption).
    replace (ssd a / d * (ssd b / d)) with (ssd a * ssd b / Rsqr d)
      by (unfold Rsqr; field; lra).
    rewrite sqrt_div_alt by (apply Rlt_0_sqr; lra).
    rewrite sqrt_Rsqr by lra. reflexivity. }
  assert (Habs : Rabs C <= sqrt (ssd a * ssd b)).
  { rewrite <- sqrt_Rsqr_abs. apply sqrt_le_1_alt. exact Hcs. }
  assert (Hs : 0 < sqrt (ssd a * ssd b)).
  { apply sqrt_lt_R0. apply Rmult_lt_0_compat; assumption. }
  replace (C / d / sqrt (ssd a / d) / sqrt (ssd b / d))
    with (C / d / (sqrt (ssd a / d) * sqrt (ssd b / d))) by (field; lra).
  rewrite Hprod.
  replace (C / d / (sqrt (ssd a * ssd b) / d))
    with (C / sqrt (ssd a * ssd b)) by (field; lra).
  unfold Rdiv. rewrite Rabs_mult.
  rewrite (Rabs_right (/ _)) by (apply Rle_ge, Rlt_le, Rinv_0_lt_compat, Hs).
  apply Rmult_le_reg_r with (r := sqrt (ssd a * ssd b)); [exact Hs|].
  rewrite Rmult_assoc, Rinv_l by lra.
  lra.
Qed.

Lemma corrcoef01_clip a b :
  length a = length b -> 0 < std a -> 0 < std b ->
  clip (corrcoef01 a b) (-1) 1 = corrcoef01 a b.
Proof.
  intros Hlen Ha Hb.
  pose proof (corrcoef01_bound a b Hlen Ha Hb) as H.
  assert (H' : -1 <= corrcoef01 a b <= 1).
  { unfold Rabs in H. destruct (Rcase_abs (corrcoef01 a b)); lra. }
  unfold clip. rewrite Rmin_right by lra. apply Rmax_right. lra.
Qed.

(** *** Windows of two entries *)

Lemma mean_pair a b : mean [a; b] = (a + b) / 2.
Proof. unfold mean. simpl. field. Qed.

Lemma ssd_pair a b : ssd [a; b] = Rsqr (a - b) / 2.
Proof.
  unfold ssd. rewrite mean_pair. simpl. unfold Rsqr. field.
Qed.

Lemma std_pair a b : std [a; b] = Rabs (a - b) / 2.
Proof.
  rewrite std_ssd, ssd_pair. simpl length.
  replace (Rsqr (a - b) / 2 / INR 2) with (Rsqr ((a - b) / 2))
    by (simpl; unfold Rsqr; field).
  rewrite sqrt_Rsqr_abs. unfold Rdiv. rewrite Rabs_mult.
  rewrite (Rabs_right (/ 2)) by lra. reflexivity.
Qed.

Lemma std_pair_pos a b : a <> b -> 0 < std [a; b].
Proof.
  intros H. rewrite std_pair.
  assert (0 < Rabs (a - b)) by (apply Rabs_pos_lt; lra). lra.
Qed.

Lemma cov_pair a b c d : cov [a; b] [c; d] = (a - b) * (c - d) / 2.
Proof.
  unfold cov. rewrite !mean_pair. simpl. field.
Qed.

Lemma corrcoef01_pair a b c d :
  a <> b -> c <> d -> Rabs (corrcoef01 [a; b] [c; d]) = 1.
Proof.
  intros Hab Hcd. unfold corrcoef01. rewrite !cov_pair.
  set (u := a - b). set (w := c - d).
  assert (Hu : u <> 0) by (unfold u; lra).
  assert (Hw : w <> 0) by (unfold w; lra).
  assert (Huu : 0 < u * u / 2) by nra.
  assert (Hww : 0 < w * w / 2) by nra.
  set (sa := sqrt (u * u / 2)). set (sb := sqrt (w * w / 2)).
  assert (Hsa : 0 < sa) by (apply sqrt_lt_R0, Huu).
  assert (Hsb : 0 < sb) by (apply sqrt_lt_R0, Hww).
  assert (Hsa2 : sa * sa = u * u / 2) by (apply sqrt_sqrt; lra).
  assert (Hsb2 : sb * sb = w * w / 2) by (apply sqrt_sqrt; lra).
  set (r := u * w / 2 / sa / sb).
  assert (Hr2 : r * r = 1).
  { unfold r.
    replace (u * w / 2 / sa / sb * (u * w / 2 / sa / sb))
      with ((u * u / 2) * (w * w / 2) / ((sa * sa) * (sb * sb)))
      by (field; lra).
    rewrite Hsa2, Hsb2. field. lra. }
  pose proof (Rabs_pos r) as Hpos.
  assert (Habs : Rabs r * Rabs r = 1).
  { rewrite <- Rabs_mult, Hr2. apply Rabs_R1. }
  nra.
Qed.

End NpFacts.

(** ** Facts about the Python primitives *)

Module PyFacts.

Lemma for_each_ok {A B : Type} (body : A -> result B) l :
  (forall a, In a l -> exists b, body a = Ok b) ->
  exists bs, for_each body l = Ok bs.
Proof.
  induction l as [|a l IH]; intros H; simpl.
  - now exists [].
  - destruct (H a (or_introl eq_refl)) as [b Hb]. rewrite Hb. simpl.
    destruct IH as [bs Hbs]; [intros; apply H; now right|].
    rewrite Hbs. simpl. now exists (b :: bs).
Qed.

Lemma for_each_Forall2 {A B : Type} (body : A -> result B) l bs :
  for_each body l = Ok bs -> Forall2 (fun a b => body a = Ok b) l bs.
Proof.
  revert bs. induction l as [|a l IH]; intros bs H; simpl in H.
  - injection H as <-. constructor.
  - destruct (body a) as [b|e] eqn:Hb; simpl in H; [|discriminate].
    destruct (for_each body l) as [bs'|e] eqn:Hl; simpl in H; [|discriminate].
    injection H as <-. constructor; auto.
Qed.

Lemma for_each_raise {A B : Type} (body : A -> result B) l a e :
  In a l -> body a = Raise e ->
  (forall a', In a' l -> body a' = Raise e \/ exists b, body a' = Ok b) ->
  for_each body l = Raise e.
Proof.
  induction l as [|a0 l IH]; intros Hin Ha Hall; simpl; [destruct Hin|].
  destruct (Hall a0 (or_introl eq_refl)) as [H0|[b H0]]; rewrite H0; simpl.
  - reflexivity.
  - destruct Hin as [->|Hin]; [congruence|].
    rewrite IH; auto. intros; apply Hall; now right.
Qed.

Lemma for_each_length {A B : Type} (body : A -> result B) l bs :
  for_each body l = Ok bs -> length bs = length l.
Proof.
  intros H. apply for_each_Forall2 in H.
  symmetry. eapply Forall2_length, H.
Qed.

Lemma for_each_nth {A B : Type} (body : A -> result B) l bs k a :
  for_each body l = Ok bs -> nth_error l k = Some a ->
  exists b, nth_error bs k = Some b /\ body a = Ok b.
Proof.
  intros H. apply for_each_Forall2 in H. revert k.
  induction H as [|a0 b0 l bs H0 H IH]; intros [|k] Hk; simpl in *;
    try discriminate.
  - injection Hk as <-. now exists b0.
  - now apply IH.
Qed.

Lemma for_each_nth_inv {A B : Type} (body : A -> result B) l bs k b :
  for_each body l = Ok bs -> nth_error bs k = Some b ->
  exists a, nth_error l k = Some a /\ body a = Ok b.
Proof.
  intros H. apply for_each_Forall2 in H. revert k.
  induction H as [|a0 b0 l bs H0 H IH]; intros [|k] Hk; simpl in *;
    try discriminate.
  - injection Hk as <-. now exists a0.
  - now apply IH.
Qed.

Lemma for_each_raise_inv {A B : Type} (body : A -> result B) l e :
  for_each body l = Raise e -> exists a, In a l /\ body a = Raise e.
Proof.
  induction l as [|a l IH]; simpl; [discriminate|].
  destruct (body a) as [b|e'] eqn:Hb; simpl.
  - destruct (for_each body l) as [bs|e'] eqn:Hl; simpl; [discriminate|].
    intros H. injection H as ->.
    destruct IH as [a' [Hin Ha']]; [reflexivity|].
    exists a'. split; [now right | exact Ha'].
  - intros H. injection H as ->. exists a. split; [now left | exact Hb].
Qed.

Lemma StronglySorted_nth {A : Type} (R : A -> A -> Prop) l :
  StronglySorted R l ->
  forall a b x y, nth_error l a = Some x -> nth_error l b = Some y ->
  (a < b)%nat -> R x y.
Proof.
  induction 1 as [|z l Hs IH Hall]; intros a b x y Ha Hb Hab.
  - destruct a; discriminate.
  - destruct b as [|b]; [lia|]. simpl in Hb.
    destruct a as [|a]; simpl in Ha.
    + injection Ha as <-. rewrite Forall_forall in Hall.
      apply Hall. eapply nth_error_In, Hb.
    + eapply IH; eauto. lia.
Qed.

Lemma range_pos start stop step :
  (0 < step)%nat ->
  range start stop step
  = Ok (map (fun k => (start + k * step)%nat)
            (seq 0 ((stop - start + step - 1) / step))).
Proof. destruct step; [lia | reflexivity]. Qed.

Lemma slice_length {A : Type} (l : list A) i j :
  length (slice l i j) = Nat.min (j - i) (length l - i).
Proof. unfold slice. now rewrite length_firstn, length_skipn. Qed.

(** Consecutive windows of one width put together give the sequence
    back. *)
Lemma slice_In {A : Type} (l : list A) i j x :
  In x (slice l i j) -> In x l.
Proof.
  unfold slice. intros H.
  rewrite <- (firstn_skipn i l). apply in_or_app. right.
  rewrite <- (firstn_skipn (j - i) (skipn i l)). apply in_or_app. now left.
Qed.

Lemma windows_concat {A : Type} (inc w : nat) :
  forall l : list A,
  (length l <= w * inc)%nat ->
  concat (map (fun k => slice l (k * inc) (k * inc + inc)) (seq 0 w)) = l.
Proof.
  induction w as [|w IH]; intros l Hlen; simpl in *.
  - destruct l; [reflexivity | simpl in Hlen; lia].
  - rewrite <- seq_shift, map_map.
    unfold slice at 1. rewrite Nat.sub_0_r. simpl skipn.
    transitivity (firstn inc l ++ skipn inc l); [|apply firstn_skipn].
    f_equal.
    rewrite <- (IH (skipn inc l)) by (rewrite length_skipn; lia).
    f_equal. apply map_ext. intros k. unfold slice.
    replace (S k * inc + inc - S k * inc)%nat with inc by lia.
    replace (k * inc + inc - k * inc)%nat with inc by lia.
    rewrite skipn_skipn. f_equal. f_equal. lia.
Qed.

End PyFacts.

(** ** Facts about the steps of [approx_interactions] *)

Module Steps.
Import Np NpFacts PyFacts.

Lemma in_range_forallb n inds :
  forallb (fun r => (r <? n)%nat) inds = true
  <-> Forall (fun r => (r < n)%nat) inds.
Proof.
  rewrite forallb_forall, Forall_forall.
  split; intros H r Hr; specialize (H r Hr); now apply Nat.ltb_lt.
Qed.

Lemma getcol_ok a inds j :
  (j < shape1 a)%nat -> Forall (fun r => (r < shape0 a)%nat) inds ->
  getcol (PyArray a) inds (PyInt j) = Ok (column a inds j).
Proof.
  intros Hj Hi. unfold getcol.
  apply Nat.ltb_lt in Hj. apply in_range_forallb in Hi.
  now rewrite Hj, Hi.
Qed.

Lemma getcol_inv X inds j c :
  getcol X inds j = Ok c ->
  exists a k, X = PyArray a /\ j = PyInt k /\ c = column a inds k
              /\ (k < shape1 a)%nat
              /\ Forall (fun r => (r < shape0 a)%nat) inds.
Proof.
  unfold getcol. destruct X as [|a]; [discriminate|].
  destruct j as [k|]; [|discriminate].
  destruct (k <? shape1 a)%nat eqn:Hk; simpl; [|discriminate].
  destruct (forallb _ inds) eqn:Hi; [|discriminate].
  intros H. injection H as <-.
  exists a, k. repeat split; auto.
  - now apply Nat.ltb_lt.
  - now apply in_range_forallb.
Qed.

Lemma getcol_out_of_range a inds j :
  (shape1 a <= j)%nat \/ Exists (fun r => (shape0 a <= r)%nat) inds ->
  getcol (PyArray a) inds (PyInt j) = Raise IndexError.
Proof.
  intros H. unfold getcol.
  destruct (j <? shape1 a)%nat eqn:Hj; simpl; [|reflexivity].
  destruct (forallb _ inds) eqn:Hi; [|reflexivity].
  apply Nat.ltb_lt in Hj. apply in_range_forallb in Hi.
  destruct H as [H|H]; [lia|].
  apply Exists_exists in H. destruct H as [r [Hr Hge]].
  rewrite Forall_forall in Hi. specialize (Hi r Hr). lia.
Qed.

Lemma column_length a inds j : length (column a inds j) = length inds.
Proof. apply length_map. Qed.

(** *** Sampling *)

Section Sampling.
Context {rng : Type} (shuffle : list nat -> rng -> list nat * rng).

Lemma sample_rows_small n g :
  (n <= max_rows)%nat -> sample_rows shuffle n g = (arange n, g).
Proof.
  intros H. unfold sample_rows.
  apply Nat.ltb_ge in H. now rewrite H.
Qed.

Lemma sample_rows_large n g :
  (max_rows < n)%nat ->
  sample_rows shuffle n g
  = (firstn max_rows (fst (shuffle (arange n) g)),
     snd (shuffle (arange n) g)).
Proof.
  intros H. unfold sample_rows.
  apply Nat.ltb_lt in H. rewrite H.
  now destruct (shuffle (arange n) g).
Qed.

Hypothesis shuffle_perm :
  forall l g, Permutation l (fst (shuffle l g)).

Lemma sample_rows_spec n g :
  let inds := fst (sample_rows shuffle n g) in
  length inds = Nat.min n max_rows
  /\ NoDup inds
  /\ Forall (fun r => (r < n)%nat) inds.
Proof.
  cbv zeta. destruct (Nat.le_gt_cases n max_rows) as [H|H].
  - rewrite (sample_rows_small n g H). cbn [fst]. unfold arange.
    rewrite length_seq. repeat split.
    + lia.
    + apply seq_NoDup.
    + apply Forall_forall. intros r Hr. apply in_seq in Hr. lia.
  - rewrite (sample_rows_large n g H). cbn [fst].
    pose proof (shuffle_perm (arange n) g) as Hp.
    set (a := fst (shuffle (arange n) g)) in *.
    assert (Hlen : length a = n).
    { rewrite <- (Permutation_length Hp). apply length_seq. }
    assert (Hnd : NoDup a).
    { eapply Permutation_NoDup; [exact Hp | apply seq_NoDup]. }
    repeat split.
    + rewrite length_firstn. lia.
    + rewrite <- (firstn_skipn max_rows a) in Hnd.
      apply NoDup_app_remove_r in Hnd. exact Hnd.
    + apply Forall_forall. intros r Hr.
      assert (Hin : In r a).
      { rewrite <- (firstn_skipn max_rows a). apply in_or_app. now left. }
      apply (Permutation_in _ (Permutation_sym Hp)) in Hin.
      apply in_seq in Hin. lia.
Qed.

End Sampling.

(** *** Reordering by [argsort] *)

Lemma map_nth_seq (c : list R) :
  map (fun k => nth k c 0) (seq 0 (length c)) = c.
Proof.
  induction c as [|x c IH]; simpl; [reflexivity|].
  rewrite <- seq_shift, map_map. simpl. now rewrite IH.
Qed.

Lemma take_perm c srt :
  Permutation srt (seq 0 (length c)) -> Permutation (take c srt) c.
Proof.
  intros H. unfold take.
  eapply Permutation_trans; [apply Permutation_map, H|].
  now rewrite map_nth_seq.
Qed.

Lemma sum_perm l l' : Permutation l l' -> sum l = sum l'.
Proof.
  induction 1; simpl; lra.
Qed.

Lemma sum_abs_take c srt :
  Permutation srt (seq 0 (length c)) -> sum (abs (take c srt)) = sum (abs c).
Proof.
  intros H. apply sum_perm. unfold abs. apply Permutation_map.
  now apply take_perm.
Qed.

(** *** The prelude *)

Lemma prepare_ok Sa Xa j inds :
  (j < shape1 Xa)%nat -> Forall (fun r => (r < shape0 Xa)%nat) inds ->
  (j < shape1 Sa)%nat -> Forall (fun r => (r < shape0 Sa)%nat) inds ->
  prepare (PyInt j) (PyArray Sa) (PyArray Xa) inds
  = Ok (mk_prepared (column Xa inds j)
                    (argsort (column Xa inds j))
                    (take (column Sa inds j) (argsort (column Xa inds j)))
                    (bin_width (length (column Xa inds j)))).
Proof.
  intros HjX HiX HjS HiS. unfold prepare.
  rewrite (getcol_ok Xa inds j HjX HiX). cbn [bind].
  rewrite (getcol_ok Sa inds j HjS HiS). reflexivity.
Qed.

Lemma prepare_inv index shap_values X inds p :
  prepare index shap_values X inds = Ok p ->
  exists Sa Xa j,
    index = PyInt j /\ shap_values = PyArray Sa /\ X = PyArray Xa
    /\ (j < shape1 Xa)%nat /\ Forall (fun r => (r < shape0 Xa)%nat) inds
    /\ (j < shape1 Sa)%nat /\ Forall (fun r => (r < shape0 Sa)%nat) inds
    /\ p = mk_prepared (column Xa inds j)
                       (argsort (column Xa inds j))
                       (take (column Sa inds j) (argsort (column Xa inds j)))
                       (bin_width (length (column Xa inds j))).
Proof.
  unfold prepare. intros H.
  destruct (getcol X inds index) as [x|e] eqn:Hx; [|discriminate].
  simpl in H.
  destruct (getcol shap_values inds index) as [s|e] eqn:Hs; [|discriminate].
  simpl in H. injection H as <-.
  apply getcol_inv in Hx. destruct Hx as (Xa & j & -> & -> & -> & HjX & HiX).
  apply getcol_inv in Hs. destruct Hs as (Sa & j' & -> & Hj & -> & HjS & HiS).
  injection Hj as <-.
  exists Sa, Xa, j. repeat split; auto.
Qed.

(** *** The window loop *)

Lemma window_scored_iff s v inc i :
  window_scored s v inc i = true
  <-> std (slice v i (i + inc)) <> 0 /\ std (slice s i (i + inc)) <> 0.
Proof.
  unfold window_scored. rewrite andb_true_iff, !Rltb_true.
  pose proof (std_nonneg (slice v i (i + inc))).
  pose proof (std_nonneg (slice s i (i + inc))).
  split; intros [? ?]; split; lra.
Qed.

Lemma window_term_scored s v inc i :
  window_term s v inc i
  = if window_scored s v inc i
    then Rabs (corrcoef01 (slice s i (i + inc)) (slice v i (i + inc)))
    else 0.
Proof.
  unfold window_term.
  destruct (window_scored s v inc i) eqn:E.
  - apply window_scored_iff in E. destruct E as [Hv Hs].
    destruct (Req_dec_T _ 0); [contradiction|].
    destruct (Req_dec_T _ 0); [contradiction|]. reflexivity.
  - destruct (Req_dec_T (std (slice s i (i + inc))) 0) as [|Hs];
      [reflexivity|].
    destruct (Req_dec_T (std (slice v i (i + inc))) 0) as [|Hv];
      [reflexivity|].
    assert (window_scored s v inc i = true) by now apply window_scored_iff.
    congruence.
Qed.

Lemma window_step_term s v inc acc i :
  window_step s v inc acc i = acc + window_term s v inc i.
Proof.
  rewrite window_term_scored. unfold window_step.
  destruct (window_scored s v inc i); lra.
Qed.

Lemma fold_window_sum s v inc offs :
  forall acc,
  fold_left (window_step s v inc) offs acc
  = acc + sum (map (window_term s v inc) offs).
Proof.
  induction offs as [|i offs IH]; intros acc; simpl; [lra|].
  rewrite IH, window_step_term. lra.
Qed.

Lemma window_term_bounds s v inc i :
  length s = length v ->
  0 <= window_term s v inc i
       <= (if window_scored s v inc i then 1 else 0).
Proof.
  intros Hlen. rewrite window_term_scored.
  destruct (window_scored s v inc i) eqn:E; [|lra].
  split; [apply Rabs_pos|].
  unfold window_scored in E. apply andb_true_iff in E.
  destruct E as [Hv Hs]. apply Rltb_true in Hv, Hs.
  apply corrcoef01_bound; auto.
  rewrite !slice_length. now rewrite Hlen.
Qed.

Lemma sum_terms_bounds s v inc offs :
  length s = length v ->
  0 <= sum (map (window_term s v inc) offs)
       <= INR (length (filter (window_scored s v inc) offs)).
Proof.
  intros Hlen. induction offs as [|i offs IH]; simpl; [lra|].
  pose proof (window_term_bounds s v inc i Hlen) as Hb.
  destruct (window_scored s v inc i); simpl length.
  - rewrite S_INR. lra.
  - lra.
Qed.

Lemma range_windows len inc :
  (0 < inc)%nat ->
  range 0 len inc
  = Ok (map (fun k => (k * inc)%nat) (seq 0 (window_count len inc))).
Proof.
  intros H. rewrite (range_pos 0 len inc H). unfold window_count.
  rewrite Nat.sub_0_r. reflexivity.
Qed.

Lemma window_loop_pos s v len inc :
  (0 < inc)%nat ->
  window_loop s v len inc
  = Ok (sum (map (window_term s v inc)
                 (map (fun k => (k * inc)%nat)
                      (seq 0 (window_count len inc))))).
Proof.
  intros H. unfold window_loop. rewrite (range_windows len inc H). simpl.
  rewrite fold_window_sum. f_equal. lra.
Qed.

Lemma window_loop_zero s v len : window_loop s v len 0 = Raise ValueError.
Proof. reflexivity. Qed.

(** *** One column *)

Lemma score_array index Xa inds srt s len inc i :
  (i < shape1 Xa)%nat -> Forall (fun r => (r < shape0 Xa)%nat) inds ->
  score index (PyArray Xa) inds srt s len inc i
  = if int_eq i index
       || Rltb (sum (abs (take (column Xa inds i) srt))) eps
    then Ok 0
    else window_loop s (take (column Xa inds i) srt) len inc.
Proof.
  intros Hi Hr. unfold score.
  rewrite (getcol_ok Xa inds i Hi Hr). reflexivity.
Qed.

Lemma score_total index Xa inds srt s len inc i :
  (i < shape1 Xa)%nat -> Forall (fun r => (r < shape0 Xa)%nat) inds ->
  (0 < inc)%nat ->
  exists v, score index (PyArray Xa) inds srt s len inc i = Ok v.
Proof.
  intros Hi Hr Hinc. rewrite (score_array _ _ _ _ _ _ _ _ Hi Hr).
  destruct (_ || _); [now exists 0|].
  rewrite (window_loop_pos _ _ _ _ Hinc). eauto.
Qed.

Lemma score_bounds index Xa inds srt s len inc i v :
  (i < shape1 Xa)%nat -> Forall (fun r => (r < shape0 Xa)%nat) inds ->
  length s = length srt ->
  score index (PyArray Xa) inds srt s len inc i = Ok v ->
  0 <= v
       <= INR (scored_windows s (take (column Xa inds i) srt) len inc).
Proof.
  intros Hi Hr Hlen. rewrite (score_array _ _ _ _ _ _ _ _ Hi Hr).
  destruct (_ || _).
  - intros H. injection H as <-. split; [lra|]. apply pos_INR.
  - destruct inc as [|inc']; [discriminate|].
    set (inc := S inc') in *.
    assert (Hinc : (0 < inc)%nat) by (unfold inc; lia).
    rewrite (window_loop_pos _ _ _ _ Hinc). intros H. injection H as <-.
    unfold scored_windows. rewrite (range_windows _ _ Hinc).
    apply sum_terms_bounds. now rewrite take_length.
Qed.

(** *** The ranking *)

Lemma rank_perm scores : Permutation (rank scores) (seq 0 (length scores)).
Proof.
  unfold rank. eapply Permutation_trans; [apply argsort_perm|].
  unfold abs. now rewrite !length_map.
Qed.

Lemma rank_key scores k :
  nth k (map Ropp (abs scores)) 0 = - Rabs (nth k scores 0).
Proof.
  unfold abs. rewrite map_map.
  replace 0 with (- Rabs 0) at 1 by (rewrite Rabs_R0; lra).
  apply (map_nth (fun x => - Rabs x)).
Qed.

Lemma rank_sorted scores :
  StronglySorted (fun i j => Rabs (nth j scores 0) <= Rabs (nth i scores 0))
                 (rank scores).
Proof.
  unfold rank.
  pose proof (argsort_sorted (map Ropp (abs scores))) as H.
  induction H as [|i l Hs IH Hall]; constructor; auto.
  rewrite Forall_forall in *. intros j Hj. specialize (Hall j Hj).
  rewrite !rank_key in Hall. lra.
Qed.

End Steps.

(** ** The whole function *)

Module Whole.
Import Np NpFacts PyFacts Steps.

Lemma bin_width_pos n : (0 < bin_width n)%nat <-> (10 <= n)%nat.
Proof.
  unfold bin_width. split; intros H.
  - destruct (Nat.lt_ge_cases n 10) as [Hlt|Hge]; [|exact Hge].
    rewrite (Nat.div_small n 10 Hlt) in H. simpl in H. lia.
  - assert (1 <= n / 10)%nat by (apply Nat.div_le_lower_bound; lia).
    lia.
Qed.

Lemma bin_width_zero n : bin_width n = 0%nat <-> (n < 10)%nat.
Proof. pose proof (bin_width_pos n). lia. Qed.

Lemma interactions_nth index X inds ncols p scores i v :
  interactions index X inds ncols p = Ok scores ->
  nth_error scores i = Some v ->
  (i < ncols)%nat
  /\ score index X inds (p_srt p) (p_shap_ref p) (length (p_x p)) (p_inc p) i
     = Ok v.
Proof.
  unfold interactions. intros H Hi.
  destruct (for_each_nth_inv _ _ _ _ _ H Hi) as [a [Ha Hs]].
  assert (Hlt : (i < ncols)%nat).
  { assert (Hs' : nth_error (seq 0 ncols) i <> None) by congruence.
    apply nth_error_Some in Hs'. now rewrite length_seq in Hs'. }
  assert (a = i) as ->.
  { apply nth_error_nth with (d := 0%nat) in Ha.
    rewrite seq_nth in Ha by exact Hlt. lia. }
  now split.
Qed.

Lemma interactions_length index X inds ncols p scores :
  interactions index X inds ncols p = Ok scores -> length scores = ncols.
Proof.
  intros H. apply for_each_length in H. now rewrite length_seq in H.
Qed.

Lemma interactions_total index Xa inds p :
  Forall (fun r => (r < shape0 Xa)%nat) inds -> (0 < p_inc p)%nat ->
  exists scores,
    interactions index (PyArray Xa) inds (shape1 Xa) p = Ok scores.
Proof.
  intros Hr Hinc. unfold interactions. apply for_each_ok.
  intros i Hi. apply in_seq in Hi.
  apply score_total; auto. lia.
Qed.

Section WithGenerator.
Context {rng : Type} (shuffle : list nat -> rng -> list nat * rng).

Lemma approx_interactions_array index shap_values Xa g :
  approx_interactions shuffle index shap_values (PyArray Xa) g
  = (rank_rows index shap_values (PyArray Xa)
               (fst (sample_rows shuffle (shape0 Xa) g)) (shape1 Xa),
     snd (sample_rows shuffle (shape0 Xa) g)).
Proof.
  unfold approx_interactions. simpl.
  now destruct (sample_rows shuffle (shape0 Xa) g).
Qed.

Lemma approx_interactions_int index shap_values n g :
  approx_interactions shuffle index shap_values (PyInt n) g
  = (Raise AttributeError, g).
Proof. reflexivity. Qed.

End WithGenerator.

(** With ten sampled rows or more, valid input is ranked. *)
Lemma rank_rows_total j Sa Xa inds :
  (j < shape1 Xa)%nat -> Forall (fun r => (r < shape0 Xa)%nat) inds ->
  (j < shape1 Sa)%nat -> Forall (fun r => (r < shape0 Sa)%nat) inds ->
  (10 <= length inds)%nat ->
  exists p scores,
    prepare (PyInt j) (PyArray Sa) (PyArray Xa) inds = Ok p
    /\ interactions (PyInt j) (PyArray Xa) inds (shape1 Xa) p = Ok scores
    /\ rank_rows (PyInt j) (PyArray Sa) (PyArray Xa) inds (shape1 Xa)
       = Ok (rank scores).
Proof.
  intros HjX HiX HjS HiS Hlen.
  pose proof (prepare_ok Sa Xa j inds HjX HiX HjS HiS) as Hp.
  set (p := mk_prepared _ _ _ _) in Hp.
  destruct (interactions_total (PyInt j) Xa inds p HiX) as [scores Hsc].
  { unfold p. cbn [p_inc]. apply bin_width_pos. now rewrite column_length. }
  exists p, scores. repeat split; auto.
  unfold rank_rows. rewrite Hp. cbn [bind]. rewrite Hsc. reflexivity.
Qed.

(** What a returned ranking is made of. *)
Lemma rank_rows_inv index shap_values X inds ncols r :
  rank_rows index shap_values X inds ncols = Ok r ->
  exists p scores,
    prepare index shap_values X inds = Ok p
    /\ interactions index X inds ncols p = Ok scores
    /\ r = rank scores.
Proof.
  unfold rank_rows. intros H.
  destruct (prepare index shap_values X inds) as [p|e]; [|discriminate].
  cbn [bind] in H.
  destruct (interactions index X inds ncols p) as [scores|e] eqn:Hsc;
    [|discriminate].
  cbn [bind] in H. injection H as <-. now exists p, scores.
Qed.

(** The scores of a prepared input are not negative. *)
Lemma scores_nonneg index shap_values X inds ncols p scores i v :
  prepare index shap_values X inds = Ok p ->
  interactions index X inds ncols p = Ok scores ->
  nth_error scores i = Some v ->
  0 <= v.
Proof.
  intros Hp Hsc Hi.
  destruct (prepare_inv _ _ _ _ _ Hp)
    as (Sa & Xa & j & -> & -> & -> & HjX & HiX & HjS & HiS & ->).
  destruct (interactions_nth _ _ _ _ _ _ _ _ Hsc Hi) as [Hlt Hs].
  cbn [p_srt p_shap_ref p_x p_inc] in Hs.
  destruct (Nat.lt_ge_cases i (shape1 Xa)) as [HiF|HiF].
  - apply (score_bounds _ _ _ _ _ _ _ _ _ HiF HiX) in Hs; [lra|].
    apply take_length.
  - unfold score in Hs.
    rewrite (getcol_out_of_range Xa inds i (or_introl HiF)) in Hs.
    discriminate.
Qed.

Lemma nth_error_nth_R (l : list R) i v :
  nth_error l i = Some v -> nth i l 0 = v.
Proof. intros H. now apply nth_error_nth. Qed.

Lemma rank_descending index shap_values X inds ncols p scores :
  prepare index shap_values X inds = Ok p ->
  interactions index X inds ncols p = Ok scores ->
  StronglySorted (fun a b => nth b scores 0 <= nth a scores 0) (rank scores).
Proof.
  intros Hp Hsc.
  assert (Hnn : forall k, 0 <= nth k scores 0).
  { intros k. destruct (nth_error scores k) as [v|] eqn:Hk.
    - rewrite (nth_error_nth_R _ _ _ Hk).
      eapply scores_nonneg; eauto.
    - apply nth_error_None in Hk. rewrite nth_overflow by exact Hk. lra. }
  pose proof (rank_sorted scores) as H.
  induction H as [|i l Hs IH Hall]; constructor; auto.
  rewrite Forall_forall in *. intros k Hk. specialize (Hall k Hk).
  rewrite !Rabs_right in Hall by (apply Rle_ge, Hnn). exact Hall.
Qed.

(** *** Fewer than ten sampled rows *)

Lemma score_guard_false j Xa inds i :
  i <> j ->
  eps <= sum (abs (column Xa inds i)) ->
  forall srt, Permutation srt (seq 0 (length inds)) ->
  int_eq i (PyInt j)
  || Rltb (sum (abs (take (column Xa inds i) srt))) eps = false.
Proof.
  intros Hij Hsum srt Hsrt. apply orb_false_iff. split.
  - simpl. now apply Nat.eqb_neq.
  - apply Rltb_false. rewrite sum_abs_take; [exact Hsum|].
    now rewrite column_length.
Qed.

Lemma argsort_column_perm Xa inds j :
  Permutation (argsort (column Xa inds j)) (seq 0 (length inds)).
Proof.
  rewrite <- (column_length Xa inds j). apply argsort_perm.
Qed.

Lemma rank_rows_raises j Sa Xa inds i :
  (j < shape1 Xa)%nat -> Forall (fun r => (r < shape0 Xa)%nat) inds ->
  (j < shape1 Sa)%nat -> Forall (fun r => (r < shape0 Sa)%nat) inds ->
  (length inds < 10)%nat ->
  (i < shape1 Xa)%nat -> i <> j ->
  eps <= sum (abs (column Xa inds i)) ->
  rank_rows (PyInt j) (PyArray Sa) (PyArray Xa) inds (shape1 Xa)
  = Raise ValueError.
Proof.
  intros HjX HiX HjS HiS Hlen Hi Hij Hsum.
  unfold rank_rows. rewrite (prepare_ok Sa Xa j inds HjX HiX HjS HiS).
  cbn [bind]. unfold interactions. cbn [p_srt p_shap_ref p_x p_inc].
  assert (Hinc : bin_width (length (column Xa inds j)) = 0%nat).
  { apply bin_width_zero. now rewrite column_length. }
  rewrite Hinc.
  rewrite (for_each_raise _ (seq 0 (shape1 Xa)) i ValueError).
  - reflexivity.
  - apply in_seq. lia.
  - rewrite (score_array _ _ _ _ _ _ _ _ Hi HiX).
    rewrite (score_guard_false j Xa inds i Hij Hsum);
      [reflexivity | apply argsort_column_perm].
  - intros k Hk. apply in_seq in Hk.
    rewrite score_array by (auto; lia).
    destruct (_ || _); [right; now exists 0 | left; reflexivity].
Qed.

Lemma rank_rows_raise_inv j Sa Xa inds e :
  (j < shape1 Xa)%nat -> Forall (fun r => (r < shape0 Xa)%nat) inds ->
  (j < shape1 Sa)%nat -> Forall (fun r => (r < shape0 Sa)%nat) inds ->
  rank_rows (PyInt j) (PyArray Sa) (PyArray Xa) inds (shape1 Xa) = Raise e ->
  e = ValueError
  /\ (length inds < 10)%nat
  /\ exists i, (i < shape1 Xa)%nat /\ i <> j
               /\ eps <= sum (abs (column Xa inds i)).
Proof.
  intros HjX HiX HjS HiS. unfold rank_rows.
  rewrite (prepare_ok Sa Xa j inds HjX HiX HjS HiS). cbn [bind].
  destruct (interactions _ _ _ _ _) as [scores|e'] eqn:Hsc;
    cbn [bind]; [discriminate|].
  intros H. injection H as ->.
  unfold interactions in Hsc. cbn [p_srt p_shap_ref p_x p_inc] in Hsc.
  apply for_each_raise_inv in Hsc. destruct Hsc as (i & Hi & Hs).
  apply in_seq in Hi. assert (HiF : (i < shape1 Xa)%nat) by lia.
  rewrite (score_array _ _ _ _ _ _ _ _ HiF HiX) in Hs.
  destruct (int_eq i (PyInt j)) eqn:Heq; [discriminate|].
  destruct (Rltb _ eps) eqn:Hlt; [discriminate|]. cbn [orb] in Hs.
  destruct (bin_width (length (column Xa inds j))) as [|inc] eqn:Hinc.
  - rewrite window_loop_zero in Hs. injection Hs as <-.
    apply bin_width_zero in Hinc. rewrite column_length in Hinc.
    repeat split; auto.
    exists i. repeat split; auto.
    + simpl in Heq. now apply Nat.eqb_neq.
    + apply Rltb_false in Hlt.
      rewrite sum_abs_take in Hlt; [exact Hlt|].
      rewrite column_length. apply argsort_column_perm.
  - rewrite window_loop_pos in Hs by lia. discriminate.
Qed.

End Whole.

(** ** The properties of the specification *)

Import Np NpFacts PyFacts Steps Whole.

Lemma no_shuffle_perm l g : Permutation l (fst (no_shuffle l g)).
Proof. apply Permutation_refl. Qed.

Lemma column_full n f c inds i :
  column (full n f c) inds i = map (fun _ => c) inds.
Proof. reflexivity. Qed.

Lemma eps_pos : 0 < eps.
Proof. unfold eps. apply Rinv_0_lt_compat. lra. Qed.

Lemma eps_small : eps < 1.
Proof. unfold eps. lra. Qed.

Lemma max_rows_ten : (10 <= max_rows)%nat.
Proof. unfold max_rows. lia. Qed.

Section Ranking.
Context {rng : Type} (shuffle : list nat -> rng -> list nat * rng).
Hypothesis shuffle_perm : forall l g, Permutation l (fst (shuffle l g)).

(** The sampled rows of valid input are rows of both matrices. *)
Lemma valid_sample j Sa Xa g :
  valid_input j Sa Xa ->
  let inds := fst (sample_rows shuffle (shape0 Xa) g) in
  (j < shape1 Xa)%nat /\ Forall (fun r => (r < shape0 Xa)%nat) inds
  /\ (j < shape1 Sa)%nat /\ Forall (fun r => (r < shape0 Sa)%nat) inds
  /\ length inds = Nat.min (shape0 Xa) max_rows.
Proof.
  intros (H0 & H1 & Hj). cbv zeta.
  destruct (sample_rows_spec shuffle shuffle_perm (shape0 Xa) g)
    as (Hlen & _ & Hr).
  rewrite H0, H1. auto.
Qed.

Lemma ranking_of_valid_input j Sa Xa g :
  valid_input j Sa Xa -> (10 <= shape0 Xa)%nat ->
  exists r,
    fst (approx_interactions shuffle (PyInt j) (PyArray Sa) (PyArray Xa) g)
    = Ok r.
Proof.
  intros Hv Hn.
  destruct (valid_sample j Sa Xa g Hv) as (HjX & HiX & HjS & HiS & Hlen).
  set (inds := fst (sample_rows shuffle (shape0 Xa) g)) in *.
  destruct (rank_rows_total j Sa Xa inds HjX HiX HjS HiS)
    as (p & scores & Hp & Hsc & Hr).
  { rewrite Hlen. pose proof max_rows_ten. lia. }
  exists (rank scores).
  rewrite approx_interactions_array. cbn [fst]. exact Hr.
Qed.

Lemma raises_below_ten_rows j Sa Xa g i :
  valid_input j Sa Xa -> (shape0 Xa < 10)%nat ->
  (i < shape1 Xa)%nat -> i <> j ->
  eps <= sum (abs (column Xa (arange (shape0 Xa)) i)) ->
  fst (approx_interactions shuffle (PyInt j) (PyArray Sa) (PyArray Xa) g)
  = Raise ValueError.
Proof.
  intros Hv Hn Hi Hij Hsum.
  destruct (valid_sample j Sa Xa g Hv) as (HjX & HiX & HjS & HiS & Hlen).
  rewrite approx_interactions_array. cbn [fst].
  pose proof max_rows_ten as Hm.
  rewrite sample_rows_small in * by lia. cbn [fst] in *.
  apply (rank_rows_raises j Sa Xa _ i); auto. lia.
Qed.

End Ranking.

(** Every ranking that is returned lists each column once, in descending
    order of the scores. *)
Lemma returned_ranking {rng : Type}
  (shuffle : list nat -> rng -> list nat * rng) j Sa Xa g r :
  fst (approx_interactions shuffle (PyInt j) (PyArray Sa) (PyArray Xa) g)
  = Ok r ->
  let inds := fst (sample_rows shuffle (shape0 Xa) g) in
  exists p scores,
    prepare (PyInt j) (PyArray Sa) (PyArray Xa) inds = Ok p
    /\ interactions (PyInt j) (PyArray Xa) inds (shape1 Xa) p = Ok scores
    /\ length scores = shape1 Xa
    /\ length r = shape1 Xa
    /\ NoDup r
    /\ (forall i, In i r <-> (i < shape1 Xa)%nat)
    /\ In j r
    /\ StronglySorted (fun a b => nth b scores 0 <= nth a scores 0) r.
Proof.
  rewrite approx_interactions_array. cbn [fst]. cbv zeta. intros H.
  apply rank_rows_inv in H. destruct H as (p & scores & Hp & Hsc & ->).
  exists p, scores.
  pose proof (interactions_length _ _ _ _ _ _ Hsc) as Hlen.
  pose proof (rank_perm scores) as Hperm. rewrite Hlen in Hperm.
  assert (Hin : forall i, In i (rank scores) <-> (i < shape1 Xa)%nat).
  { intros i. split; intros Hi.
    - apply (Permutation_in _ Hperm) in Hi. apply in_seq in Hi. lia.
    - apply (Permutation_in _ (Permutation_sym Hperm)). apply in_seq. lia. }
  destruct (prepare_inv _ _ _ _ _ Hp)
    as (Sa' & Xa' & j' & Ej & _ & EX & HjX & _).
  injection Ej as <-. injection EX as <-.
  split; [exact Hp|]. split; [exact Hsc|]. split; [exact Hlen|].
  split; [rewrite (Permutation_length Hperm); apply length_seq|].
  split.
  { eapply Permutation_NoDup; [apply Permutation_sym, Hperm|].
    apply seq_NoDup. }
  split; [exact Hin|]. split; [apply Hin, HjX|].
  eapply rank_descending; eauto.
Qed.

(** *** Shapes that differ *)

Lemma rank_two_zeros : rank [0; 0] = [0; 1]%nat.
Proof.
  unfold rank, argsort. simpl.
  assert (H : Rleb (- Rabs 0) (- Rabs 0) = true) by (apply Rleb_true; lra).
  now rewrite H.
Qed.

Lemma score_of_zero_column index Xa inds srt s len inc i :
  (i < shape1 Xa)%nat -> Forall (fun r => (r < shape0 Xa)%nat) inds ->
  Permutation srt (seq 0 (length inds)) ->
  sum (abs (column Xa inds i)) < eps ->
  score index (PyArray Xa) inds srt s len inc i = Ok 0.
Proof.
  intros Hi Hr Hsrt Hsum. rewrite (score_array _ _ _ _ _ _ _ _ Hi Hr).
  assert (H : Rltb (sum (abs (take (column Xa inds i) srt))) eps = true).
  { apply Rltb_true. rewrite sum_abs_take; [exact Hsum|].
    now rewrite column_length. }
  rewrite H. now rewrite orb_true_r.
Qed.

Lemma getcol_array_cases a inds j :
  getcol (PyArray a) inds (PyInt j) = Ok (column a inds j)
  \/ getcol (PyArray a) inds (PyInt j) = Raise IndexError.
Proof.
  unfold getcol. destruct (_ && _); [now left | now right].
Qed.

Lemma prepare_out_of_range j Sa Xa inds :
  (shape1 Sa <= j)%nat \/ Exists (fun r => (shape0 Sa <= r)%nat) inds ->
  prepare (PyInt j) (PyArray Sa) (PyArray Xa) inds = Raise IndexError.
Proof.
  intros H. unfold prepare.
  destruct (getcol_array_cases Xa inds j) as [-> | ->]; cbn [bind];
    [|reflexivity].
  now rewrite (getcol_out_of_range Sa inds j H).
Qed.

Lemma prepare_reshaped j Sa Xa inds :
  (j < shape1 Sa)%nat -> Forall (fun r => (r < shape0 Sa)%nat) inds ->
  prepare (PyInt j) (PyArray Sa) (PyArray Xa) inds
  = prepare (PyInt j) (PyArray (reshaped (shape0 Xa) (shape1 Xa) Sa))
            (PyArray Xa) inds.
Proof.
  intros Hj Hr. unfold prepare.
  destruct (getcol (PyArray Xa) inds (PyInt j)) as [x|e] eqn:Hx;
    cbn [bind]; [|reflexivity].
  apply getcol_inv in Hx.
  destruct Hx as (a & k & Ha & Hk & _ & HjX & HiX).
  injection Ha as <-. injection Hk as <-.
  rewrite (getcol_ok Sa inds j Hj Hr).
  now rewrite (getcol_ok (reshaped (shape0 Xa) (shape1 Xa) Sa) inds j HjX HiX).
Qed.

(** *** Every sample is as likely as any other *)

Module Renaming.

Lemma index_of_nth l :
  NoDup l -> forall i d, (i < length l)%nat -> index_of (nth i l d) l = i.
Proof.
  induction 1 as [|y l Hy Hnd IH]; intros i d Hi; simpl in *; [lia|].
  destruct i as [|i].
  - now rewrite Nat.eqb_refl.
  - assert (Hin : In (nth i l d) l) by (apply nth_In; lia).
    destruct (Nat.eqb_spec (nth i l d) y) as [E|E].
    + exfalso. apply Hy. now rewrite <- E.
    + f_equal. apply IH. lia.
Qed.

Lemma index_of_In x l :
  In x l -> (index_of x l < length l)%nat /\ forall d, nth (index_of x l) l d = x.
Proof.
  induction l as [|y l IH]; intros Hin; simpl in *; [destruct Hin|].
  destruct (Nat.eqb_spec x y) as [->|E].
  - split; [lia | reflexivity].
  - destruct Hin as [Hin|Hin]; [congruence|].
    destruct (IH Hin) as [Hlt Hnth]. split; [lia | exact Hnth].
Qed.

Lemma rows_outside_In n p x :
  In x (rows_outside n p) <-> (x < n)%nat /\ ~ In x p.
Proof.
  unfold rows_outside. rewrite filter_In, in_seq, negb_true_iff.
  split.
  - intros [Hx Hnot]. split; [lia|]. intros Hin.
    assert (Hex : existsb (Nat.eqb x) p = true).
    { apply existsb_exists. exists x. split; [exact Hin|].
      apply Nat.eqb_refl. }
    congruence.
  - intros [Hx Hnot]. split; [lia|].
    destruct (existsb (Nat.eqb x) p) eqn:Hex; [|reflexivity].
    apply existsb_exists in Hex. destruct Hex as [y [Hy Hxy]].
    apply Nat.eqb_eq in Hxy. subst y. contradiction.
Qed.

Lemma all_rows_NoDup n p : NoDup p -> NoDup (p ++ rows_outside n p).
Proof.
  intros Hp. apply NoDup_app; auto.
  - apply NoDup_filter, seq_NoDup.
  - intros x Hx Hout. apply rows_outside_In in Hout. tauto.
Qed.

Lemma all_rows_perm n p :
  NoDup p -> Forall (fun r => (r < n)%nat) p ->
  Permutation (p ++ rows_outside n p) (seq 0 n).
Proof.
  intros Hp Hr. apply NoDup_Permutation.
  - now apply all_rows_NoDup.
  - apply seq_NoDup.
  - intros x. rewrite in_app_iff, rows_outside_In, in_seq.
    rewrite Forall_forall in Hr. split.
    + intros [Hin|[Hx _]]; [specialize (Hr x Hin)|]; lia.
    + intros Hx. destruct (in_dec Nat.eq_dec x p) as [Hin|Hnot];
        [now left | right; split; [lia | exact Hnot]].
Qed.

Section Rename.
Variables (n : nat) (p q : list nat).
Hypothesis Hp : is_sample n p.
Hypothesis Hq : is_sample n q.

Lemma all_rows_length :
  length (p ++ rows_outside n p) = length (q ++ rows_outside n q).
Proof.
  destruct Hp as (_ & Hnp & Hrp). destruct Hq as (_ & Hnq & Hrq).
  rewrite (Permutation_length (all_rows_perm n p Hnp Hrp)).
  now rewrite (Permutation_length (all_rows_perm n q Hnq Hrq)).
Qed.

Lemma rename_all_rows :
  map (rename n p q) (p ++ rows_outside n p) = q ++ rows_outside n q.
Proof.
  destruct Hp as (_ & Hnp & Hrp).
  apply nth_ext with (d := rename n p q 0%nat) (d' := 0%nat).
  - rewrite length_map. apply all_rows_length.
  - intros i Hi. rewrite length_map in Hi.
    rewrite (map_nth (rename n p q)). unfold rename.
    rewrite index_of_nth; auto. now apply all_rows_NoDup.
Qed.

Lemma rename_sample : map (rename n p q) p = q.
Proof.
  pose proof rename_all_rows as H.
  rewrite map_app in H.
  apply (f_equal (firstn (length p))) in H.
  rewrite firstn_app in H.
  rewrite length_map, Nat.sub_diag in H. simpl firstn at 2 in H.
  rewrite app_nil_r in H.
  rewrite firstn_all2 in H by (rewrite length_map; lia).
  rewrite H.
  destruct Hp as (Hlp & _). destruct Hq as (Hlq & _).
  rewrite firstn_app, Hlp, <- Hlq, Nat.sub_diag. simpl.
  rewrite app_nil_r. apply firstn_all.
Qed.

End Rename.

Lemma rename_inverse n p q x :
  is_sample n p -> is_sample n q -> (x < n)%nat ->
  rename n q p (rename n p q x) = x.
Proof.
  intros Hp Hq Hx.
  pose proof (all_rows_length n p q Hp Hq) as Hlen.
  destruct Hp as (Hlp & Hnp & Hrp). destruct Hq as (Hlq & Hnq & Hrq).
  assert (Hin : In x (p ++ rows_outside n p)).
  { apply (Permutation_in _ (Permutation_sym (all_rows_perm n p Hnp Hrp))).
    apply in_seq. lia. }
  destruct (index_of_In x _ Hin) as [Hlt Hnth].
  unfold rename.
  rewrite index_of_nth.
  - apply Hnth.
  - now apply all_rows_NoDup.
  - rewrite <- Hlen. exact Hlt.
Qed.

(** The outcomes of the shuffle that give the sample [p] correspond one
    to one to those that give the sample [q]. *)
Lemma samples_equally_likely n p q :
  is_sample n p -> is_sample n q ->
  forall a,
  Permutation a (seq 0 n) -> firstn max_rows a = p ->
  Permutation (map (rename n p q) a) (seq 0 n)
  /\ firstn max_rows (map (rename n p q) a) = q
  /\ map (rename n q p) (map (rename n p q) a) = a.
Proof.
  intros Hp Hq a Ha Hfirst. split; [|split].
  - destruct (Hp) as (_ & Hnp & Hrp). destruct (Hq) as (_ & Hnq & Hrq).
    eapply Permutation_trans; [|apply (all_rows_perm n q Hnq Hrq)].
    rewrite <- (rename_all_rows n p q Hp Hq).
    apply Permutation_map.
    eapply Permutation_trans; [exact Ha|].
    apply Permutation_sym, all_rows_perm; assumption.
  - rewrite firstn_map, Hfirst. now apply rename_sample.
  - rewrite map_map. rewrite <- (map_id a) at 2.
    apply map_ext_in. intros x Hx.
    apply rename_inverse; auto.
    apply (Permutation_in _ Ha) in Hx. apply in_seq in Hx. lia.
Qed.

End Renaming.

Lemma firstn_seq_succ k : firstn k (seq 0 (S k)) = seq 0 k.
Proof.
  replace (S k) with (k + 1)%nat by lia.
  rewrite seq_app, firstn_app, length_seq, Nat.sub_diag. simpl.
  rewrite app_nil_r. apply firstn_all2. rewrite length_seq. lia.
Qed.

Lemma seq_is_sample s n :
  (s + max_rows <= n)%nat -> is_sample n (seq s max_rows).
Proof.
  intros H. split; [|split].
  - apply length_seq.
  - apply seq_NoDup.
  - apply Forall_forall. intros r Hr. apply in_seq in Hr. lia.
Qed.

(** *** The target's own score *)

Lemma score_of_target Xa j inds srt s len inc :
  (j < shape1 Xa)%nat -> Forall (fun r => (r < shape0 Xa)%nat) inds ->
  score (PyInt j) (PyArray Xa) inds srt s len inc j = Ok 0.
Proof.
  intros Hj Hr. rewrite (score_array _ _ _ _ _ _ _ _ Hj Hr).
  simpl int_eq. now rewrite Nat.eqb_refl.
Qed.

Lemma in_seq_nth_error n i : (i < n)%nat -> nth_error (seq 0 n) i = Some i.
Proof.
  intros H. rewrite (nth_error_nth' _ 0%nat) by (now rewrite length_seq).
  now rewrite seq_nth.
Qed.

(** A ranking of a list of scores that are not negative puts an index
    whose score is positive before an index whose score is 0. *)
Lemma positive_before_zero scores i j v :
  nth_error scores i = Some v -> 0 < v ->
  nth_error scores j = Some 0 ->
  before (rank scores) i j.
Proof.
  intros Hi Hv Hj.
  pose proof (rank_perm scores) as Hperm.
  assert (Hin : forall k, (k < length scores)%nat -> In k (rank scores)).
  { intros k Hk. apply (Permutation_in _ (Permutation_sym Hperm)).
    apply in_seq. lia. }
  assert (Hli : (i < length scores)%nat)
    by (apply nth_error_Some; congruence).
  assert (Hlj : (j < length scores)%nat)
    by (apply nth_error_Some; congruence).
  destruct (In_nth_error _ _ (Hin i Hli)) as [a Ha].
  destruct (In_nth_error _ _ (Hin j Hlj)) as [b Hb].
  exists a, b. split; [exact Ha|]. split; [exact Hb|].
  destruct (Nat.lt_trichotomy a b) as [Hlt|[Heq|Hgt]]; [exact Hlt| |].
  - exfalso. subst b. rewrite Ha in Hb. injection Hb as ->.
    rewrite Hi in Hj. injection Hj as ->. lra.
  - exfalso.
    pose proof (StronglySorted_nth _ _ (rank_sorted scores) b a j i Hb Ha Hgt)
      as Hle.
    cbv beta in Hle.
    rewrite (nth_error_nth_R _ _ _ Hi), (nth_error_nth_R _ _ _ Hj) in Hle.
    rewrite Rabs_R0, Rabs_right in Hle by lra. lra.
Qed.

Lemma sum_abs_zero_column Xa inds i :
  (forall r, In r inds -> item Xa r i = 0) ->
  sum (abs (column Xa inds i)) = 0.
Proof.
  induction inds as [|r inds IH]; intros H; [reflexivity|].
  change (Rabs (item Xa r i) + sum (abs (column Xa inds i)) = 0).
  rewrite (H r (or_introl eq_refl)), Rabs_R0, IH; [lra|].
  intros r' Hr'. apply H. now right.
Qed.

(** *** A worked input: twenty rows, bin width 2 *)

Module Ramp.

Lemma fold_insert_ascending (key : nat -> R) n :
  forall s,
  (forall i, (s <= i)%nat -> (S i < s + n)%nat -> key i <= key (S i)) ->
  fold_right (insert_by key) [] (seq s n) = seq s n.
Proof.
  induction n as [|n IH]; intros s H; [reflexivity|].
  simpl. rewrite IH by (intros i H1 H2; apply H; lia).
  destruct n as [|n]; [reflexivity|]. simpl.
  assert (E : Rleb (key s) (key (S s)) = true).
  { apply Rleb_true. apply H; lia. }
  now rewrite E.
Qed.

Lemma argsort_ascending a :
  (forall i, (S i < length a)%nat -> nth i a 0 <= nth (S i) a 0) ->
  argsort a = seq 0 (length a).
Proof.
  intros H. unfold argsort. apply fold_insert_ascending.
  intros i _ Hi. apply H. lia.
Qed.

Lemma nth_map_INR_seq n i :
  (i < n)%nat -> nth i (map INR (seq 0 n)) 0 = INR i.
Proof.
  intros H. change 0 with (INR 0). rewrite map_nth.
  now rewrite seq_nth.
Qed.

Lemma argsort_ramp n : argsort (map INR (seq 0 n)) = seq 0 n.
Proof.
  rewrite argsort_ascending; rewrite length_map, length_seq; [reflexivity|].
  intros i Hi. rewrite !nth_map_INR_seq by lia.
  apply le_INR. lia.
Qed.

Lemma take_ramp n : take (map INR (seq 0 n)) (seq 0 n) = map INR (seq 0 n).
Proof.
  pose proof (map_nth_seq (map INR (seq 0 n))) as H.
  now rewrite length_map, length_seq in H.
Qed.

Lemma slice_ramp n k :
  (k * 2 + 2 <= n)%nat ->
  slice (map INR (seq 0 n)) (k * 2) (k * 2 + 2)
  = [INR (k * 2); INR (S (k * 2))].
Proof.
  intros H. unfold slice.
  replace (k * 2 + 2 - k * 2)%nat with 2%nat by lia.
  rewrite skipn_map, skipn_seq, firstn_map. simpl Nat.add.
  destruct (n - k * 2)%nat as [|[|m]] eqn:E; try lia.
  reflexivity.
Qed.

Lemma INR_succ_neq m : INR m <> INR (S m).
Proof. rewrite S_INR. lra. Qed.

Lemma window_term_ramp n k :
  (k * 2 + 2 <= n)%nat ->
  window_term (map INR (seq 0 n)) (map INR (seq 0 n)) 2 (k * 2) = 1.
Proof.
  intros H. rewrite window_term_scored. unfold window_scored.
  rewrite (slice_ramp n k H).
  assert (E : Rltb 0 (std [INR (k * 2); INR (S (k * 2))]) = true).
  { apply Rltb_true, std_pair_pos, INR_succ_neq. }
  rewrite E. simpl andb. cbv iota.
  apply corrcoef01_pair; apply INR_succ_neq.
Qed.

Lemma column_ramp_0 inds : column ramp inds 0 = map INR inds.
Proof. reflexivity. Qed.

Lemma column_ramp_1 inds : column ramp inds 1 = map INR inds.
Proof. reflexivity. Qed.

Lemma column_ramp_2 inds : column ramp inds 2 = map (fun _ => 0) inds.
Proof. reflexivity. Qed.

Lemma column_ramp_shap inds j : column ramp_shap inds j = map INR inds.
Proof. reflexivity. Qed.

Lemma rows_of_ramp : Forall (fun r => (r < 20)%nat) (seq 0 20).
Proof. apply Forall_forall. intros r Hr. apply in_seq in Hr. lia. Qed.

(** What the prelude computes on the ramp. *)
Lemma prepare_ramp :
  prepare (PyInt 0) (PyArray ramp_shap) (PyArray ramp) (seq 0 20)
  = Ok (mk_prepared (map INR (seq 0 20)) (seq 0 20) (map INR (seq 0 20)) 2).
Proof.
  rewrite prepare_ok;
    [|simpl; lia|exact rows_of_ramp|simpl; lia|exact rows_of_ramp].
  rewrite column_ramp_0, column_ramp_shap.
  rewrite (argsort_ramp 20), (take_ramp 20). reflexivity.
Qed.

Lemma sum_ones (l : list nat) : sum (map (fun _ => 1) l) = INR (length l).
Proof.
  induction l as [|k l IH]; [reflexivity|].
  simpl length. rewrite S_INR. simpl. lra.
Qed.

(** The score of column 1 on the ramp: ten windows, each with the
    correlation 1. *)
Lemma score_ramp_1 :
  score (PyInt 0) (PyArray ramp) (seq 0 20) (seq 0 20)
        (map INR (seq 0 20)) 20 2 1
  = Ok 10.
Proof.
  rewrite score_array; [|simpl; lia|exact rows_of_ramp].
  rewrite column_ramp_1, (take_ramp 20).
  assert (G : Rltb (sum (abs (map INR (seq 0 20)))) eps = false).
  { apply Rltb_false.
    assert (H : 1 <= sum (abs (map INR (seq 0 20)))).
    { change (seq 0 20) with (0 :: 1 :: seq 2 18)%nat.
      change (1 <= Rabs (INR 0) + (Rabs (INR 1)
                     + sum (abs (map INR (seq 2 18))))).
      pose proof (sum_abs_nonneg (map INR (seq 2 18))).
      pose proof (Rabs_pos (INR 0)).
      change (INR 1) with 1. rewrite Rabs_R1. lra. }
    pose proof eps_small. lra. }
  rewrite G. simpl orb. cbv iota.
  rewrite window_loop_pos by lia. f_equal.
  change (window_count 20 2) with 10%nat.
  rewrite map_map.
  rewrite (map_ext_in _ (fun _ => 1)).
  - rewrite sum_ones, length_seq. simpl. lra.
  - intros k Hk. apply in_seq in Hk. apply window_term_ramp. lia.
Qed.

Lemma interactions_ramp :
  interactions (PyInt 0) (PyArray ramp) (seq 0 20) 3
    (mk_prepared (map INR (seq 0 20)) (seq 0 20) (map INR (seq 0 20)) 2)
  = Ok [0; 10; 0].
Proof.
  unfold interactions. cbn [p_srt p_shap_ref p_x p_inc].
  rewrite length_map, length_seq.
  change (seq 0 3) with [0; 1; 2]%nat. cbn [for_each].
  rewrite score_of_target; [|simpl; lia|exact rows_of_ramp]. cbn [bind].
  rewrite score_ramp_1. cbn [bind].
  rewrite (score_of_zero_column _ ramp _ _ _ _ _ 2);
    [reflexivity|simpl; lia|exact rows_of_ramp|apply Permutation_refl|].
  rewrite sum_abs_zero_column by reflexivity. apply eps_pos.
Qed.

Lemma rank_ramp : rank [0; 10; 0] = [1; 0; 2]%nat.
Proof.
  unfold rank, argsort. simpl.
  assert (E1 : Rleb (- Rabs 10) (- Rabs 0) = true).
  { apply Rleb_true. rewrite Rabs_R0, Rabs_right by lra. lra. }
  assert (E2 : Rleb (- Rabs 0) (- Rabs 10) = false).
  { apply Rleb_false. rewrite Rabs_R0, Rabs_right by lra. lra. }
  assert (E3 : Rleb (- Rabs 0) (- Rabs 0) = true) by (apply Rleb_true; lra).
  rewrite E1. simpl. rewrite E2. simpl. now rewrite E3.
Qed.

(** The ramp is ranked: column 1 first, then the target, then the zero
    column. *)
Lemma approx_interactions_ramp :
  fst (approx_interactions no_shuffle (PyInt 0) (PyArray ramp_shap)
                           (PyArray ramp) tt)
  = Ok [1; 0; 2]%nat.
Proof.
  rewrite approx_interactions_array.
  rewrite sample_rows_small by (unfold max_rows; simpl; lia).
  cbn [fst]. change (arange (shape0 ramp)) with (seq 0 20).
  change (shape1 ramp) with 3%nat.
  unfold rank_rows. rewrite prepare_ramp. cbn [bind].
  rewrite interactions_ramp. cbn [bind]. now rewrite rank_ramp.
Qed.

End Ramp.

(** *** The windows *)

Lemma window_count_succ n inc :
  (1 <= n)%nat -> (0 < inc)%nat ->
  window_count n inc = S ((n - 1) / inc).
Proof.
  intros Hn Hinc. unfold window_count.
  replace (n + inc - 1)%nat with (n - 1 + 1 * inc)%nat by lia.
  rewrite Nat.div_add by lia. lia.
Qed.

Lemma last_window_bounds n inc :
  (1 <= n)%nat -> (0 < inc)%nat ->
  ((n - 1) / inc * inc < n)%nat /\ (n <= (n - 1) / inc * inc + inc)%nat.
Proof.
  intros Hn Hinc.
  pose proof (Nat.div_mod_eq (n - 1) inc) as E.
  pose proof (Nat.mod_upper_bound (n - 1) inc ltac:(lia)) as B.
  nia.
Qed.

Lemma window_width_one_adds_nothing s v inc acc i :
  length (slice v i (i + inc)) = 1%nat
  \/ length (slice s i (i + inc)) = 1%nat ->
  window_step s v inc acc i = acc.
Proof.
  intros H. unfold window_step.
  assert (E : window_scored s v inc i = false); [|now rewrite E].
  unfold window_scored. apply andb_false_iff.
  destruct H as [H|H]; [left|right].
  - destruct (slice v i (i + inc)) as [|x [|y l]]; try discriminate.
    apply Rltb_false. rewrite std_singleton. lra.
  - destruct (slice s i (i + inc)) as [|x [|y l]]; try discriminate.
    apply Rltb_false. rewrite std_singleton. lra.
Qed.

(** ** The claims of the specification *)

(** C1.  Every ranking that the call returns holds the [F] column
    indices, each once and the target's among them, in descending order of
    their interaction scores, and valid input with ten rows or more is
    ranked.  Valid input with fewer than ten rows can make the call raise
    instead of returning: a 1 x 2 feature matrix of ones ends in
    [ValueError]. *)
Theorem approx_interactions_ranks_every_column :
  (forall (rng : Type) (shuffle : list nat -> rng -> list nat * rng)
          j Sa Xa g r,
    fst (approx_interactions shuffle (PyInt j) (PyArray Sa) (PyArray Xa) g)
    = Ok r ->
    let inds := fst (sample_rows shuffle (shape0 Xa) g) in
    exists p scores,
      prepare (PyInt j) (PyArray Sa) (PyArray Xa) inds = Ok p
      /\ interactions (PyInt j) (PyArray Xa) inds (shape1 Xa) p = Ok scores
      /\ length scores = shape1 Xa
      /\ length r = shape1 Xa
      /\ NoDup r
      /\ (forall i, In i r <-> (i < shape1 Xa)%nat)
      /\ In j r
      /\ StronglySorted (fun a b => nth b scores 0 <= nth a scores 0) r)
  /\ (forall (rng : Type) (shuffle : list nat -> rng -> list nat * rng),
      (forall l g, Permutation l (fst (shuffle l g))) ->
      forall j Sa Xa g,
      valid_input j Sa Xa -> (10 <= shape0 Xa)%nat ->
      exists r,
        fst (approx_interactions shuffle (PyInt j) (PyArray Sa)
                                 (PyArray Xa) g) = Ok r)
  /\ valid_input 0 (full 1 2 0) (full 1 2 1)
  /\ fst (approx_interactions no_shuffle (PyInt 0) (PyArray (full 1 2 0))
                              (PyArray (full 1 2 1)) tt)
     = Raise ValueError.
Proof.
  split; [|split; [|split]].
  - intros rng shuffle j Sa Xa g r. apply returned_ranking.
  - intros rng shuffle Hperm j Sa Xa g.
    now apply ranking_of_valid_input.
  - unfold valid_input. simpl. repeat split; lia.
  - apply (raises_below_ten_rows no_shuffle no_shuffle_perm 0 _ _ tt 1%nat).
    + unfold valid_input. simpl. repeat split; lia.
    + simpl. lia.
    + simpl. lia.
    + discriminate.
    + rewrite column_full. simpl. rewrite Rabs_R1.
      pose proof eps_small. lra.
Qed.

(** On the ramp the call returns the ranking [1; 0; 2], and a valid input
    of twenty rows is ranked. *)
Lemma approx_interactions_ranks_every_column_witness :
  (fst (approx_interactions no_shuffle (PyInt 0) (PyArray ramp_shap)
                            (PyArray ramp) tt) = Ok [1; 0; 2]%nat
   /\ NoDup [1; 0; 2]%nat
   /\ In 0%nat [1; 0; 2]%nat)
  /\ ((forall l g, Permutation l (fst (no_shuffle l g)))
      /\ valid_input 0 ramp_shap ramp
      /\ (10 <= shape0 ramp)%nat
      /\ exists r,
           fst (approx_interactions no_shuffle (PyInt 0) (PyArray ramp_shap)
                                    (PyArray ramp) tt) = Ok r).
Proof.
  split.
  - split; [exact Ramp.approx_interactions_ramp|].
    destruct (proj1 approx_interactions_ranks_every_column unit no_shuffle
                0%nat ramp_shap ramp tt [1; 0; 2]%nat
                Ramp.approx_interactions_ramp)
      as (p & scores & _ & _ & _ & _ & Hnd & _ & Hin & _).
    split; assumption.
  - assert (Hv : valid_input 0 ramp_shap ramp).
    { unfold valid_input. simpl. repeat split; lia. }
    assert (Hn : (10 <= shape0 ramp)%nat) by (simpl; lia).
    split; [exact no_shuffle_perm|]. split; [exact Hv|]. split; [exact Hn|].
    exact (proj1 (proj2 approx_interactions_ranks_every_column) unit
             no_shuffle no_shuffle_perm 0%nat ramp_shap ramp tt Hv Hn).
Defined.

(** C2.  The call does raise on valid input: with fewer than ten rows the
    bin width is 0, and the window loop of any column that is neither the
    target nor degenerate stops at [range(0, len(x), 0)] with
    [ValueError].  This is the only way in which valid input raises. *)
Theorem approx_interactions_raises_iff_few_rows :
  forall (rng : Type) (shuffle : list nat -> rng -> list nat * rng),
  (forall l g, Permutation l (fst (shuffle l g))) ->
  forall j Sa Xa g,
  valid_input j Sa Xa ->
  let res :=
    fst (approx_interactions shuffle (PyInt j) (PyArray Sa) (PyArray Xa) g) in
  (res = Raise ValueError
   <-> (shape0 Xa < 10)%nat
       /\ exists i, (i < shape1 Xa)%nat /\ i <> j
                    /\ eps <= sum (abs (column Xa (arange (shape0 Xa)) i)))
  /\ (forall e, res = Raise e -> e = ValueError)
  /\ (bin_width (shape0 Xa) = 0%nat <-> (shape0 Xa < 10)%nat).
Proof.
  intros rng shuffle Hperm j Sa Xa g Hv. cbv zeta.
  destruct (valid_sample shuffle Hperm j Sa Xa g Hv)
    as (HjX & HiX & HjS & HiS & Hlen).
  pose proof max_rows_ten as Hm.
  split; [split|split].
  - rewrite approx_interactions_array. cbn [fst]. intros H.
    apply rank_rows_raise_inv in H; auto.
    destruct H as (_ & Hlt & i & Hi & Hij & Hsum).
    assert (Hn : (shape0 Xa < 10)%nat) by lia.
    split; [exact Hn|]. exists i. repeat split; auto.
    rewrite sample_rows_small in Hsum by lia. exact Hsum.
  - intros (Hn & i & Hi & Hij & Hsum).
    now apply (raises_below_ten_rows shuffle Hperm j Sa Xa g i).
  - intros e. rewrite approx_interactions_array. cbn [fst]. intros H.
    apply rank_rows_raise_inv in H; auto. apply H.
  - apply bin_width_zero.
Qed.

(** A 2 x 3 feature matrix of ones with target column 2 raises. *)
Lemma approx_interactions_raises_iff_few_rows_witness :
  (forall l g, Permutation l (fst (no_shuffle l g)))
  /\ valid_input 2 (full 2 3 0) (full 2 3 1)
  /\ fst (approx_interactions no_shuffle (PyInt 2) (PyArray (full 2 3 0))
                              (PyArray (full 2 3 1)) tt)
     = Raise ValueError.
Proof.
  assert (Hv : valid_input 2 (full 2 3 0) (full 2 3 1)).
  { unfold valid_input. simpl. repeat split; lia. }
  split; [exact no_shuffle_perm|]. split; [exact Hv|].
  apply (proj1 (approx_interactions_raises_iff_few_rows unit no_shuffle
                  no_shuffle_perm 2%nat (full 2 3 0) (full 2 3 1) tt Hv)).
  split; [simpl; lia|].
  exists 0%nat. split; [simpl; lia|]. split; [discriminate|].
  rewrite column_full. simpl. rewrite Rabs_R1.
  pose proof eps_small. lra.
Defined.

(** C3, as stated, fails: a 2 x 1 attribution matrix and a 1 x 2 feature
    matrix differ in both counts, and the call returns a ranking. *)
Lemma shape_mismatch_is_not_detected :
  shape0 (full 2 1 0) <> shape0 (full 1 2 0)
  /\ shape1 (full 2 1 0) <> shape1 (full 1 2 0)
  /\ fst (approx_interactions no_shuffle (PyInt 0) (PyArray (full 2 1 0))
                              (PyArray (full 1 2 0)) tt)
     = Ok [0; 1]%nat.
Proof.
  split; [simpl; lia|]. split; [simpl; lia|].
  rewrite approx_interactions_array.
  rewrite sample_rows_small by (pose proof max_rows_ten; simpl; lia).
  cbn [fst shape0 shape1 full arange seq].
  assert (Hr1 : Forall (fun r => (r < shape0 (full 1 2 0))%nat) [0%nat])
    by (repeat constructor).
  assert (Hr2 : Forall (fun r => (r < shape0 (full 2 1 0))%nat) [0%nat])
    by (constructor; [simpl; lia | constructor]).
  unfold rank_rows.
  rewrite (prepare_ok (full 2 1 0) (full 1 2 0) 0 [0%nat]);
    [|simpl; lia|exact Hr1|simpl; lia|exact Hr2].
  cbn [bind]. unfold interactions. cbn [p_srt p_shap_ref p_x p_inc seq].
  cbn [for_each].
  rewrite (score_array _ (full 1 2 0) _ _ _ _ _ 0);
    [|simpl; lia|exact Hr1].
  cbn [int_eq Nat.eqb orb bind].
  rewrite (score_of_zero_column _ (full 1 2 0) _ _ _ _ _ 1);
    [|simpl; lia|exact Hr1|apply argsort_column_perm|].
  - cbn [bind]. now rewrite rank_two_zeros.
  - rewrite column_full. simpl. rewrite Rabs_R0. pose proof eps_pos. lra.
Qed.

(** C3, amended.  The function does not compare the shapes of its two
    matrices.  When the attribution matrix has no column at the target
    index, or lacks one of the sampled rows, the call fails with
    [IndexError] in the prelude, where the target's attribution column is
    read (line 151), before the loop over the candidate features starts.
    When the attribution matrix has the target column and at least as many
    rows as the feature matrix, differing shapes go unnoticed: the call
    returns what it returns for the attribution matrix cut to the shape of
    the feature matrix. *)
Theorem shape_mismatch_shows_only_at_the_target_column :
  forall (rng : Type) (shuffle : list nat -> rng -> list nat * rng)
         j Sa Xa g,
  let inds := fst (sample_rows shuffle (shape0 Xa) g) in
  ((shape1 Sa <= j)%nat \/ Exists (fun r => (shape0 Sa <= r)%nat) inds ->
   prepare (PyInt j) (PyArray Sa) (PyArray Xa) inds = Raise IndexError
   /\ fst (approx_interactions shuffle (PyInt j) (PyArray Sa) (PyArray Xa) g)
      = Raise IndexError)
  /\ ((forall l g', Permutation l (fst (shuffle l g'))) ->
      (j < shape1 Sa)%nat -> (shape0 Xa <= shape0 Sa)%nat ->
      fst (approx_interactions shuffle (PyInt j) (PyArray Sa) (PyArray Xa) g)
      = fst (approx_interactions shuffle (PyInt j)
               (PyArray (reshaped (shape0 Xa) (shape1 Xa) Sa))
               (PyArray Xa) g)).
Proof.
  intros rng shuffle j Sa Xa g. cbv zeta. split.
  - intros H. pose proof (prepare_out_of_range j Sa Xa _ H) as Hp.
    split; [exact Hp|].
    rewrite approx_interactions_array. cbn [fst].
    unfold rank_rows. now rewrite Hp.
  - intros Hperm Hj Hrows.
    rewrite !approx_interactions_array. cbn [fst].
    destruct (sample_rows_spec shuffle Hperm (shape0 Xa) g) as (_ & _ & Hr).
    unfold rank_rows. rewrite <- prepare_reshaped; [reflexivity|exact Hj|].
    eapply Forall_impl; [|exact Hr]. simpl. intros r Hlt. lia.
Qed.

(** A 1 x 1 attribution matrix has no column 1; a 2 x 1 attribution
    matrix has column 0 and more rows than a 1 x 2 feature matrix. *)
Lemma shape_mismatch_shows_only_at_the_target_column_witness :
  ((shape1 (full 1 1 0) <= 1)%nat
   /\ fst (approx_interactions no_shuffle (PyInt 1) (PyArray (full 1 1 0))
                               (PyArray (full 1 2 0)) tt)
      = Raise IndexError)
  /\ ((forall l g', Permutation l (fst (no_shuffle l g')))
      /\ (0 < shape1 (full 2 1 0))%nat
      /\ (shape0 (full 1 2 0) <= shape0 (full 2 1 0))%nat
      /\ fst (approx_interactions no_shuffle (PyInt 0)
                (PyArray (full 2 1 0)) (PyArray (full 1 2 0)) tt)
         = fst (approx_interactions no_shuffle (PyInt 0)
                  (PyArray (reshaped 1 2 (full 2 1 0)))
                  (PyArray (full 1 2 0)) tt)).
Proof.
  split.
  - assert (H : (shape1 (full 1 1 0) <= 1)%nat) by (simpl; lia).
    split; [exact H|].
    apply (proj1 (shape_mismatch_shows_only_at_the_target_column
                    unit no_shuffle 1%nat (full 1 1 0) (full 1 2 0) tt)).
    left. exact H.
  - assert (H1 : (0 < shape1 (full 2 1 0))%nat) by (simpl; lia).
    assert (H2 : (shape0 (full 1 2 0) <= shape0 (full 2 1 0))%nat)
      by (simpl; lia).
    split; [exact no_shuffle_perm|]. split; [exact H1|]. split; [exact H2|].
    apply (proj2 (shape_mismatch_shows_only_at_the_target_column
                    unit no_shuffle 0%nat (full 2 1 0) (full 1 2 0) tt)
                 no_shuffle_perm H1 H2).
Defined.

(** C4.  Of the three plotting functions that choose the colouring
    feature themselves, only [dependence_plot] asks the ranker with the
    target index, the attribution matrix and the feature matrix, and takes
    the first index of its answer.  [joint_plot] calls [interactions], a
    name that the module does not bind, and stops with [NameError];
    [interaction_plot] hands the ranker its arguments in the order
    (feature matrix, attribution matrix, target index), so that the ranker
    asks an [int] for its shape and stops with [AttributeError]. *)
Theorem auto_selection_of_the_colouring_feature :
  forall (rng : Type) (shuffle : list nat -> rng -> list nat * rng)
         ind shap_values features other_auto_ind g,
  dependence_plot_interaction_index shuffle ind shap_values features Auto g
  = (top <- fst (approx_interactions shuffle (PyInt ind)
                   (PyArray shap_values) (PyArray features) g) ;;
     getitem top 0,
     snd (approx_interactions shuffle (PyInt ind)
            (PyArray shap_values) (PyArray features) g))
  /\ joint_plot_other_ind shuffle ind features shap_values Auto
                          other_auto_ind g
     = (Raise NameError, g)
  /\ interaction_plot_interaction_index shuffle ind features shap_values
                                        Auto g
     = (Raise AttributeError, g).
Proof.
  intros rng shuffle ind shap_values features other_auto_ind g.
  split; [|split].
  - unfold dependence_plot_interaction_index, call_global. simpl lookup.
    cbv iota.
    now destruct (approx_interactions shuffle _ _ _ g).
  - reflexivity.
  - reflexivity.
Qed.

(** C5.  The cap is 10,000 rows.  Up to the cap the rows are all the [n]
    rows, in their order, whatever the generator is, and the generator is
    left in its state.  Above the cap the rows are the first 10,000
    entries of the shuffled index array: 10,000 distinct rows.  The draw is
    uniform when the shuffle is: for any two samples [p] and [q], renaming
    the rows turns the outcomes of the shuffle that yield [p] one to one
    into those that yield [q]. *)
Theorem sampling_uses_all_rows_up_to_the_cap :
  forall (rng : Type) (shuffle : list nat -> rng -> list nat * rng) n g,
  Z.of_nat max_rows = 10000%Z
  /\ (forall index shap_values Xa,
      approx_interactions shuffle index shap_values (PyArray Xa) g
      = (rank_rows index shap_values (PyArray Xa)
                   (fst (sample_rows shuffle (shape0 Xa) g)) (shape1 Xa),
         snd (sample_rows shuffle (shape0 Xa) g)))
  /\ ((n <= max_rows)%nat -> sample_rows shuffle n g = (seq 0 n, g))
  /\ ((max_rows < n)%nat ->
      (forall l g', Permutation l (fst (shuffle l g'))) ->
      fst (sample_rows shuffle n g)
      = firstn max_rows (fst (shuffle (seq 0 n) g))
      /\ is_sample n (fst (sample_rows shuffle n g)))
  /\ (forall p q a,
      is_sample n p -> is_sample n q ->
      Permutation a (seq 0 n) -> firstn max_rows a = p ->
      Permutation (map (rename n p q) a) (seq 0 n)
      /\ firstn max_rows (map (rename n p q) a) = q
      /\ map (rename n q p) (map (rename n p q) a) = a).
Proof.
  intros rng shuffle n g. split; [reflexivity|].
  split; [intros; apply approx_interactions_array|].
  split; [apply sample_rows_small|]. split.
  - intros Hn Hperm. split.
    + now rewrite sample_rows_large.
    + destruct (sample_rows_spec shuffle Hperm n g) as (Hlen & Hnd & Hr).
      split; [|split]; auto. rewrite Hlen. lia.
  - intros p q a Hp Hq. now apply Renaming.samples_equally_likely.
Qed.

(** With one row above the cap and a shuffle that leaves the array as it
    is, the rows are the first 10,000; renaming carries this outcome to
    one whose sample is the rows 1 to 10,000. *)
Lemma sampling_uses_all_rows_up_to_the_cap_witness :
  ((7 <= max_rows)%nat /\ sample_rows no_shuffle 7 tt = (seq 0 7, tt))
  /\ ((max_rows < S max_rows)%nat
      /\ (forall l g', Permutation l (fst (no_shuffle l g')))
      /\ is_sample (S max_rows) (fst (sample_rows no_shuffle (S max_rows) tt)))
  /\ (is_sample (S max_rows) (seq 0 max_rows)
      /\ is_sample (S max_rows) (seq 1 max_rows)
      /\ Permutation (seq 0 (S max_rows)) (seq 0 (S max_rows))
      /\ firstn max_rows (seq 0 (S max_rows)) = seq 0 max_rows
      /\ firstn max_rows
           (map (rename (S max_rows) (seq 0 max_rows) (seq 1 max_rows))
                (seq 0 (S max_rows)))
         = seq 1 max_rows).
Proof.
  pose proof (sampling_uses_all_rows_up_to_the_cap unit no_shuffle) as T.
  split; [|split].
  - assert (H : (7 <= max_rows)%nat) by (unfold max_rows; lia).
    split; [exact H|].
    exact (proj1 (proj2 (proj2 (T 7%nat tt))) H).
  - assert (H : (max_rows < S max_rows)%nat) by lia.
    split; [exact H|]. split; [exact no_shuffle_perm|].
    exact (proj2 (proj1 (proj2 (proj2 (proj2 (T (S max_rows) tt))))
                    H no_shuffle_perm)).
  - assert (Hp : is_sample (S max_rows) (seq 0 max_rows))
      by (apply seq_is_sample; lia).
    assert (Hq : is_sample (S max_rows) (seq 1 max_rows))
      by (apply seq_is_sample; lia).
    assert (Ha : Permutation (seq 0 (S max_rows)) (seq 0 (S max_rows)))
      by apply Permutation_refl.
    assert (Hf : firstn max_rows (seq 0 (S max_rows)) = seq 0 max_rows)
      by apply firstn_seq_succ.
    split; [exact Hp|]. split; [exact Hq|]. split; [exact Ha|].
    split; [exact Hf|].
    exact (proj1 (proj2 (proj2 (proj2 (proj2 (proj2 (T (S max_rows) tt))))
                           _ _ _ Hp Hq Ha Hf))).
Defined.

(** C6.  The score of the target column is exactly 0, and in every
    ranking that the call returns the target's index stands behind every
    index whose score is positive. *)
Theorem target_scores_zero_and_ranks_behind_positive_scores :
  (forall Xa j inds srt shap_ref len_x inc,
    (j < shape1 Xa)%nat -> Forall (fun r => (r < shape0 Xa)%nat) inds ->
    score (PyInt j) (PyArray Xa) inds srt shap_ref len_x inc j = Ok 0)
  /\ (forall (rng : Type) (shuffle : list nat -> rng -> list nat * rng)
             j Sa Xa g r,
      fst (approx_interactions shuffle (PyInt j) (PyArray Sa) (PyArray Xa) g)
      = Ok r ->
      let inds := fst (sample_rows shuffle (shape0 Xa) g) in
      exists p scores,
        prepare (PyInt j) (PyArray Sa) (PyArray Xa) inds = Ok p
        /\ interactions (PyInt j) (PyArray Xa) inds (shape1 Xa) p = Ok scores
        /\ nth_error scores j = Some 0
        /\ forall i v, nth_error scores i = Some v -> 0 < v -> before r i j).
Proof.
  split; [exact score_of_target|].
  intros rng shuffle j Sa Xa g r. rewrite approx_interactions_array.
  cbn [fst]. cbv zeta. intros H.
  apply rank_rows_inv in H. destruct H as (p & scores & Hp & Hsc & ->).
  exists p, scores. split; [exact Hp|]. split; [exact Hsc|].
  destruct (prepare_inv _ _ _ _ _ Hp)
    as (Sa' & Xa' & j' & Ej & _ & EX & HjX & HiX & _ & _ & _).
  injection Ej as <-. injection EX as <-.
  assert (Hj0 : nth_error scores j = Some 0).
  { destruct (for_each_nth _ _ _ j j Hsc (in_seq_nth_error _ _ HjX))
      as (b & Hb & Hs).
    rewrite (score_of_target Xa j _ _ _ _ _ HjX HiX) in Hs.
    injection Hs as <-. exact Hb. }
  split; [exact Hj0|].
  intros i v Hi Hv. now apply (positive_before_zero scores i j v).
Qed.

(** On the ramp the target 0 has the score 0 and stands behind column 1,
    whose score is 10. *)
Lemma target_scores_zero_and_ranks_behind_positive_scores_witness :
  ((0 < shape1 ramp)%nat
   /\ Forall (fun r => (r < shape0 ramp)%nat) (seq 0 20)
   /\ score (PyInt 0) (PyArray ramp) (seq 0 20) (seq 0 20)
            (map INR (seq 0 20)) 20 2 0 = Ok 0)
  /\ (fst (approx_interactions no_shuffle (PyInt 0) (PyArray ramp_shap)
                               (PyArray ramp) tt) = Ok [1; 0; 2]%nat
      /\ exists p scores,
           prepare (PyInt 0) (PyArray ramp_shap) (PyArray ramp)
                   (fst (sample_rows no_shuffle (shape0 ramp) tt)) = Ok p
           /\ interactions (PyInt 0) (PyArray ramp)
                (fst (sample_rows no_shuffle (shape0 ramp) tt))
                (shape1 ramp) p = Ok scores
           /\ nth_error scores 0 = Some 0
           /\ forall i v, nth_error scores i = Some v -> 0 < v ->
                          before [1; 0; 2]%nat i 0).
Proof.
  split.
  - assert (H1 : (0 < shape1 ramp)%nat) by (simpl; lia).
    split; [exact H1|]. split; [exact Ramp.rows_of_ramp|].
    exact (proj1 target_scores_zero_and_ranks_behind_positive_scores
             ramp 0%nat (seq 0 20) (seq 0 20) (map INR (seq 0 20)) 20%nat
             2%nat H1 Ramp.rows_of_ramp).
  - split; [exact Ramp.approx_interactions_ramp|].
    exact (proj2 target_scores_zero_and_ranks_behind_positive_scores
             unit no_shuffle 0%nat ramp_shap ramp tt [1; 0; 2]%nat
             Ramp.approx_interactions_ramp).
Defined.

(** C7.  A column whose absolute values over the sampled rows sum to less
    than 1e-8, an all-zero column among them, gets the score 0, whatever
    the attributions and the bin width are: also with the bin width 0, for
    which entering the window loop raises.  The window loop is not
    entered, and the column is no error. *)
Theorem degenerate_column_scores_zero :
  forall index Xa inds srt shap_ref len_x inc i,
  (i < shape1 Xa)%nat -> Forall (fun r => (r < shape0 Xa)%nat) inds ->
  Permutation srt (seq 0 (length inds)) ->
  sum (abs (column Xa inds i)) < eps
  \/ (forall r, In r inds -> item Xa r i = 0) ->
  eps * 100000000 = 1
  /\ score index (PyArray Xa) inds srt shap_ref len_x inc i = Ok 0
  /\ score index (PyArray Xa) inds srt shap_ref len_x 0 i = Ok 0
  /\ window_loop shap_ref (take (column Xa inds i) srt) len_x 0
     = Raise ValueError.
Proof.
  intros index Xa inds srt shap_ref len_x inc i Hi Hr Hsrt Hdeg.
  assert (Hsum : sum (abs (column Xa inds i)) < eps).
  { destruct Hdeg as [H|H]; [exact H|].
    rewrite (sum_abs_zero_column Xa inds i H). apply eps_pos. }
  split; [unfold eps; field|].
  split; [|split].
  - now apply score_of_zero_column.
  - now apply score_of_zero_column.
  - reflexivity.
Qed.

(** The second column of a 3 x 2 matrix of zeros, with target 0. *)
Lemma degenerate_column_scores_zero_witness :
  (1 < shape1 (full 3 2 0))%nat
  /\ Forall (fun r => (r < shape0 (full 3 2 0))%nat) [0; 1; 2]%nat
  /\ Permutation [2; 0; 1]%nat (seq 0 (length [0; 1; 2]%nat))
  /\ (forall r, In r [0; 1; 2]%nat -> item (full 3 2 0) r 1 = 0)
  /\ score (PyInt 0) (PyArray (full 3 2 0)) [0; 1; 2]%nat [2; 0; 1]%nat
           [1; 2; 3] 3 0 1
     = Ok 0.
Proof.
  assert (H1 : (1 < shape1 (full 3 2 0))%nat) by (simpl; lia).
  assert (H2 : Forall (fun r => (r < shape0 (full 3 2 0))%nat) [0; 1; 2]%nat)
    by (repeat constructor).
  assert (H3 : Permutation [2; 0; 1]%nat (seq 0 (length [0; 1; 2]%nat))).
  { simpl. apply (Permutation_cons_app [0; 1]%nat [] 2%nat).
    rewrite app_nil_r. apply Permutation_refl. }
  assert (H4 : forall r, In r [0; 1; 2]%nat -> item (full 3 2 0) r 1 = 0)
    by reflexivity.
  split; [exact H1|]. split; [exact H2|]. split; [exact H3|].
  split; [exact H4|].
  exact (proj1 (proj2 (proj2
           (degenerate_column_scores_zero (PyInt 0) (full 3 2 0)
              [0; 1; 2]%nat [2; 0; 1]%nat [1; 2; 3] 3 0 1%nat
              H1 H2 H3 (or_intror H4))))).
Defined.

(** C8.  The guard of line 163 is meant to leave out the windows without
    variation, and with exact numbers it does: thirty rows in which the
    attributions and the candidate's values are all 0.1 have ten windows of
    three rows, each of the standard deviation 0, and the loop returns 0.
    In binary64 the mean of 0.1, 0.1, 0.1 is rounded above 0.1, [np.std]
    gives 2^-56 for such a window, the guard holds, the coefficient of the
    two windows is 1, and the loop returns 10. *)
Theorem constant_windows_are_scored_in_binary64 :
  let s := repeat (1 / 10) 30 in
  let s64 := repeat F64.tenth 30 in
  (forall i, std (slice s i (i + 3)) = 0)
  /\ (forall acc i, window_step s s 3 acc i = acc)
  /\ window_loop s s 30 3 = Ok 0
  /\ PrimFloat.ltb (F64.of_nat 0) (F64.std (slice s64 0 (0 + 3))) = true
  /\ F64.window_scored s64 s64 3 0 = true
  /\ F64.window_step s64 s64 3 (F64.of_nat 0) 0 = F64.of_nat 1
  /\ F64.window_loop s64 s64 30 3 = Ok (F64.of_nat 10).
Proof.
  cbv zeta.
  assert (Hstd : forall i, std (slice (repeat (1 / 10) 30) i (i + 3)) = 0).
  { intros i. apply std_constant with (c := 1 / 10).
    apply Forall_forall. intros x Hx. apply slice_In in Hx.
    symmetry. exact (repeat_spec _ _ _ Hx). }
  assert (Hstep : forall acc i,
             window_step (repeat (1 / 10) 30) (repeat (1 / 10) 30) 3 acc i
             = acc).
  { intros acc i. rewrite window_step_term. unfold window_term.
    rewrite Hstd. destruct (Req_dec_T 0 0); [lra | congruence]. }
  split; [exact Hstd|]. split; [exact Hstep|]. split.
  - unfold window_loop. rewrite (range_windows 30 3) by lia. cbn [bind].
    f_equal. generalize (map (fun k => (k * 3)%nat) (seq 0 (window_count 30 3))).
    intros offs. induction offs as [|i offs IH]; [reflexivity|].
    cbn [fold_left]. now rewrite Hstep.
  - repeat split; vm_compute; reflexivity.
Qed.

(** C9.  Every score that the loop over the columns computes is at least
    0 and at most the number of the column's windows that are scored,
    which is at most the number of windows. *)
Theorem scores_lie_between_zero_and_the_number_of_windows :
  forall j Sa Xa inds ncols p scores i v,
  prepare (PyInt j) (PyArray Sa) (PyArray Xa) inds = Ok p ->
  interactions (PyInt j) (PyArray Xa) inds ncols p = Ok scores ->
  nth_error scores i = Some v ->
  let k := scored_windows (p_shap_ref p)
                          (take (column Xa inds i) (p_srt p))
                          (length (p_x p)) (p_inc p) in
  0 <= v <= INR k
  /\ (k <= window_count (length (p_x p)) (p_inc p))%nat.
Proof.
  intros j Sa Xa inds ncols p scores i v Hp Hsc Hi. cbv zeta.
  destruct (prepare_inv _ _ _ _ _ Hp)
    as (Sa' & Xa' & j' & _ & _ & EX & HjX & HiX & _ & _ & ->).
  injection EX as <-.
  destruct (interactions_nth _ _ _ _ _ _ _ _ Hsc Hi) as [_ Hs].
  cbn [p_srt p_shap_ref p_x p_inc] in *.
  split.
  - destruct (Nat.lt_ge_cases i (shape1 Xa)) as [HiF|HiF].
    + apply (score_bounds _ _ _ _ _ _ _ _ _ HiF HiX) in Hs; [exact Hs|].
      apply take_length.
    + unfold score in Hs.
      rewrite (getcol_out_of_range Xa inds i (or_introl HiF)) in Hs.
      discriminate.
  - unfold scored_windows.
    destruct (bin_width (length (column Xa inds j'))) as [|inc] eqn:E.
    + simpl. lia.
    + rewrite range_windows by lia.
      eapply Nat.le_trans; [apply filter_length_le|].
      now rewrite length_map, length_seq.
Qed.

(** On the ramp the score of column 1 is 10, with ten windows. *)
Lemma scores_lie_between_zero_and_the_number_of_windows_witness :
  prepare (PyInt 0) (PyArray ramp_shap) (PyArray ramp) (seq 0 20)
  = Ok (mk_prepared (map INR (seq 0 20)) (seq 0 20) (map INR (seq 0 20)) 2)
  /\ interactions (PyInt 0) (PyArray ramp) (seq 0 20) 3
       (mk_prepared (map INR (seq 0 20)) (seq 0 20) (map INR (seq 0 20)) 2)
     = Ok [0; 10; 0]
  /\ nth_error [0; 10; 0] 1 = Some 10
  /\ 0 <= 10 <= INR (scored_windows (map INR (seq 0 20))
                       (take (column ramp (seq 0 20) 1) (seq 0 20)) 20 2)
  /\ (scored_windows (map INR (seq 0 20))
        (take (column ramp (seq 0 20) 1) (seq 0 20)) 20 2
      <= window_count 20 2)%nat.
Proof.
  assert (H3 : nth_error [0; 10; 0] 1 = Some 10) by reflexivity.
  split; [exact Ramp.prepare_ramp|]. split; [exact Ramp.interactions_ramp|].
  split; [exact H3|].
  pose proof (scores_lie_between_zero_and_the_number_of_windows
                0%nat ramp_shap ramp (seq 0 20) 3%nat _ _ 1%nat 10
                Ramp.prepare_ramp Ramp.interactions_ramp H3) as T.
  cbv zeta in T. cbn [p_srt p_shap_ref p_x p_inc] in T.
  rewrite length_map, length_seq in T. exact T.
Defined.

(** C10.  With ten sampled rows or more the bin width is at least 1 and
    the windows start at 0, inc, 2 inc, ...: every row lies in exactly one
    window, and the windows put together are the column.  Every window
    but the last holds inc rows; when inc does not divide the number of
    rows the last window holds the remainder, and it is looked at like the
    others.  A window of one row leaves the running total as it is.  The
    loop over the windows returns the sum, over these offsets in their
    order, of what each window adds: the absolute value of the coefficient
    when the guard of line 163 holds, and nothing otherwise; this sum is the
    score of every column that is neither the target nor degenerate; and
    when the last window holds one row the score is the sum over the
    windows before it. *)
Theorem windows_cover_every_row_once :
  forall n, (10 <= n)%nat ->
  let inc := bin_width n in
  let offsets := map (fun k => (k * inc)%nat) (seq 0 (window_count n inc)) in
  (1 <= inc <= 50)%nat
  /\ range 0 n inc = Ok offsets
  /\ (forall r, (r < n)%nat ->
      exists i, In i offsets /\ (i <= r < i + inc)%nat
                /\ forall i', In i' offsets -> (i' <= r < i' + inc)%nat ->
                              i' = i)
  /\ (forall l : list R, length l = n ->
      concat (map (fun i => slice l i (i + inc)) offsets) = l)
  /\ (forall (l : list R) k, length l = n ->
      (S k < window_count n inc)%nat ->
      length (slice l (k * inc) (k * inc + inc)) = inc)
  /\ (forall l : list R, length l = n -> (n mod inc <> 0)%nat ->
      let last := ((window_count n inc - 1) * inc)%nat in
      In last offsets
      /\ length (slice l last (last + inc)) = (n mod inc)%nat
      /\ (n mod inc < inc)%nat)
  /\ (forall shap_ref val_other acc i,
      length (slice val_other i (i + inc)) = 1%nat
      \/ length (slice shap_ref i (i + inc)) = 1%nat ->
      window_step shap_ref val_other inc acc i = acc)
  /\ (forall shap_ref val_other,
      let added i :=
        if window_scored shap_ref val_other inc i
        then Rabs (corrcoef01 (slice shap_ref i (i + inc))
                              (slice val_other i (i + inc)))
        else 0 in
      window_loop shap_ref val_other n inc = Ok (sum (map added offsets))
      /\ (forall j Xa inds srt i,
            (i < shape1 Xa)%nat ->
            Forall (fun r => (r < shape0 Xa)%nat) inds ->
            val_other = take (column Xa inds i) srt ->
            i <> j -> eps <= sum (abs val_other) ->
            score (PyInt j) (PyArray Xa) inds srt shap_ref n inc i
            = Ok (sum (map added offsets)))
      /\ (length val_other = n -> (n mod inc = 1)%nat ->
          window_loop shap_ref val_other n inc
          = Ok (sum (map added
                         (map (fun k => (k * inc)%nat)
                              (seq 0 (window_count n inc - 1))))))).
Proof.
  intros n Hn. cbv zeta.
  assert (Hinc : (0 < bin_width n)%nat) by now apply bin_width_pos.
  set (inc := bin_width n) in *.
  assert (Hw : window_count n inc = S ((n - 1) / inc))
    by (apply window_count_succ; lia).
  destruct (last_window_bounds n inc ltac:(lia) Hinc) as [Hlo Hhi].
  split; [|split; [|split; [|split; [|split; [|split; [|split]]]]]].
  - split; [lia|]. unfold inc, bin_width. apply Nat.le_min_r.
  - now apply range_windows.
  - intros r Hr.
    pose proof (Nat.div_mod_eq r inc) as E.
    pose proof (Nat.mod_upper_bound r inc ltac:(lia)) as B.
    exists (r / inc * inc)%nat. split; [|split].
    + apply in_map_iff. exists (r / inc)%nat. split; [reflexivity|].
      apply in_seq. rewrite Hw.
      assert (r / inc <= (n - 1) / inc)%nat
        by (apply Nat.Div0.div_le_mono; lia).
      lia.
    + nia.
    + intros i' Hi' Hb. apply in_map_iff in Hi'.
      destruct Hi' as [k [<- _]].
      assert (k = r / inc)%nat; [|now subst k].
      apply (Nat.div_unique r inc k (r - k * inc)); lia.
  - intros l Hl. rewrite map_map. apply windows_concat.
    rewrite Hl, Hw. lia.
  - intros l k Hl Hk. rewrite slice_length, Hl.
    rewrite Hw in Hk.
    assert (S k * inc <= (n - 1) / inc * inc)%nat
      by (apply Nat.mul_le_mono_r; lia).
    lia.
  - intros l Hl Hmod. cbv zeta. rewrite Hw.
    replace (S ((n - 1) / inc) - 1)%nat with ((n - 1) / inc)%nat by lia.
    pose proof (Nat.div_mod_eq n inc) as E.
    pose proof (Nat.mod_upper_bound n inc ltac:(lia)) as B.
    assert (Hq : ((n - 1) / inc = n / inc)%nat).
    { symmetry. apply (Nat.div_unique (n - 1) inc (n / inc) (n mod inc - 1)); lia. }
    split; [|split].
    + apply in_map_iff. exists ((n - 1) / inc)%nat. split; [reflexivity|].
      apply in_seq. lia.
    + rewrite slice_length, Hl, Hq. lia.
    + exact B.
  - intros s v acc i. apply window_width_one_adds_nothing.
  - intros s v. cbv zeta.
    assert (Hloop : window_loop s v n inc
                    = Ok (sum (map (fun i =>
                                      if window_scored s v inc i
                                      then Rabs (corrcoef01
                                                   (slice s i (i + inc))
                                                   (slice v i (i + inc)))
                                      else 0)
                                   (map (fun k => (k * inc)%nat)
                                        (seq 0 (window_count n inc)))))).
    { rewrite (window_loop_pos s v n inc Hinc). do 2 f_equal.
      apply map_ext. intros i. apply window_term_scored. }
    split; [exact Hloop|]. split.
    + intros j Xa inds srt i Hi Hr Ev Hij Hdeg.
      rewrite (score_array _ _ _ _ _ _ _ _ Hi Hr). rewrite <- Ev.
      cbn [int_eq]. rewrite (proj2 (Nat.eqb_neq i j) Hij).
      rewrite (proj2 (Rltb_false _ _) Hdeg). cbn [orb]. exact Hloop.
    + intros Hl Hmod. rewrite Hloop, Hw.
      replace (S ((n - 1) / inc) - 1)%nat with ((n - 1) / inc)%nat by lia.
      rewrite seq_S, !map_app. cbn [map Nat.add].
      assert (Hsum : forall l x, sum (l ++ [x]) = sum l + x).
      { intros l x. induction l as [|y l IH]; simpl; [lra|].
        rewrite IH. lra. }
      rewrite Hsum.
      assert (E : window_scored s v inc ((n - 1) / inc * inc) = false).
      { unfold window_scored. apply andb_false_iff. left.
        apply Rltb_false.
        assert (Hone : length (slice v ((n - 1) / inc * inc)
                                        ((n - 1) / inc * inc + inc)) = 1%nat).
        { rewrite slice_length, Hl.
          pose proof (Nat.div_mod_eq n inc) as E.
          assert (Hq : ((n - 1) / inc = n / inc)%nat).
          { symmetry.
            apply (Nat.div_unique (n - 1) inc (n / inc) (n mod inc - 1));
              lia. }
          rewrite Hq. lia. }
        destruct (slice v _ _) as [|x [|y l]]; try discriminate.
        rewrite std_singleton. lra. }
      rewrite E. f_equal. lra.
Qed.

(** Twenty-five rows: the bin width is 2, the thirteenth window holds
    the last row alone and adds nothing. *)
Lemma windows_cover_every_row_once_witness :
  (10 <= 25)%nat
  /\ range 0 25 (bin_width 25)
     = Ok (map (fun k => (k * bin_width 25)%nat)
               (seq 0 (window_count 25 (bin_width 25))))
  /\ (length (map INR (seq 0 25)) = 25%nat
      /\ (25 mod bin_width 25 <> 0)%nat
      /\ length (slice (map INR (seq 0 25))
                       ((window_count 25 (bin_width 25) - 1) * bin_width 25)
                       ((window_count 25 (bin_width 25) - 1) * bin_width 25
                        + bin_width 25))
         = (25 mod bin_width 25)%nat)
  /\ (length (slice (map INR (seq 0 25)) 24 (24 + bin_width 25)) = 1%nat
      /\ window_step (map INR (seq 0 25)) (map INR (seq 0 25))
                     (bin_width 25) 12 24 = 12)
  /\ (length (map INR (seq 0 25)) = 25%nat
      /\ (25 mod bin_width 25 = 1)%nat
      /\ window_loop (map INR (seq 0 25)) (map INR (seq 0 25)) 25
                     (bin_width 25)
         = Ok (sum (map (fun i =>
                           if window_scored (map INR (seq 0 25))
                                            (map INR (seq 0 25))
                                            (bin_width 25) i
                           then Rabs (corrcoef01
                                        (slice (map INR (seq 0 25)) i
                                               (i + bin_width 25))
                                        (slice (map INR (seq 0 25)) i
                                               (i + bin_width 25)))
                           else 0)
                        (map (fun k => (k * bin_width 25)%nat)
                             (seq 0 (window_count 25 (bin_width 25) - 1)))))).
Proof.
  assert (H : (10 <= 25)%nat) by lia.
  pose proof (windows_cover_every_row_once 25 H) as T. cbv zeta in T.
  destruct T as (_ & T2 & _ & _ & _ & T6 & T7 & T8).
  assert (Hl : length (map INR (seq 0 25)) = 25%nat) by reflexivity.
  assert (Hm : (25 mod bin_width 25 <> 0)%nat) by (vm_compute; discriminate).
  assert (H1 : length (slice (map INR (seq 0 25)) 24 (24 + bin_width 25))
               = 1%nat) by reflexivity.
  assert (Hm1 : (25 mod bin_width 25 = 1)%nat) by (vm_compute; reflexivity).
  split; [exact H|]. split; [exact T2|]. split; [|split].
  - split; [exact Hl|]. split; [exact Hm|].
    exact (proj1 (proj2 (T6 (map INR (seq 0 25)) Hl Hm))).
  - split; [exact H1|].
    exact (T7 (map INR (seq 0 25)) (map INR (seq 0 25)) 12 24%nat
              (or_introl H1)).
  - split; [exact Hl|]. split; [exact Hm1|].
    exact (proj2 (proj2 (T8 (map INR (seq 0 25)) (map INR (seq 0 25))))
                 Hl Hm1).
Defined.

(** ** Further properties of [approx_interactions] *)

Module More.

Lemma for_each_const {A B : Type} (body : A -> result B) l c :
  (forall a, In a l -> body a = Ok c) ->
  for_each body l = Ok (repeat c (length l)).
Proof.
  induction l as [|a l IH]; intros H; [reflexivity|].
  simpl. rewrite (H a (or_introl eq_refl)). cbn [bind].
  rewrite IH by (intros; apply H; now right). reflexivity.
Qed.

Lemma for_each_ext {A B : Type} (f g : A -> result B) l :
  (forall a, In a l -> f a = g a) -> for_each f l = for_each g l.
Proof.
  induction l as [|a l IH]; intros H; [reflexivity|].
  simpl. rewrite (H a (or_introl eq_refl)).
  rewrite IH by (intros; apply H; now right). reflexivity.
Qed.

Lemma sum_zeros {A : Type} (l : list A) : sum (map (fun _ => 0) l) = 0.
Proof. induction l as [|a l IH]; simpl; [reflexivity | lra]. Qed.

Lemma std_short l : (length l <= 1)%nat -> std l = 0.
Proof.
  destruct l as [|x [|y l]]; simpl; intros H.
  - apply std_nil.
  - apply std_singleton.
  - lia.
Qed.

(** With the bin width 1 no window is scored. *)
Lemma window_term_width_one s v i : window_term s v 1 i = 0.
Proof.
  rewrite window_term_scored.
  assert (E : window_scored s v 1 i = false); [|now rewrite E].
  unfold window_scored. apply andb_false_iff. left.
  apply Rltb_false. rewrite std_short; [lra|].
  rewrite slice_length. lia.
Qed.

Lemma window_loop_width_one s v len : window_loop s v len 1 = Ok 0.
Proof.
  rewrite window_loop_pos by lia. f_equal.
  rewrite (map_ext _ (fun _ => 0)) by (intros; apply window_term_width_one).
  apply sum_zeros.
Qed.

Lemma bin_width_one n : (10 <= n <= 19)%nat -> bin_width n = 1%nat.
Proof.
  intros H. unfold bin_width.
  assert (E : (n / 10 = 1)%nat).
  { symmetry. apply (Nat.div_unique n 10 1 (n - 10)); lia. }
  rewrite E. reflexivity.
Qed.

Lemma window_count_bounds n :
  (10 <= n <= max_rows)%nat ->
  (10 <= window_count n (bin_width n) <= 200)%nat.
Proof.
  intros [Hlo Hhi]. unfold max_rows in Hhi. unfold window_count, bin_width.
  pose proof (Nat.div_mod_eq n 10) as E.
  pose proof (Nat.mod_upper_bound n 10 ltac:(lia)) as B.
  set (k := (n / 10)%nat) in *.
  assert (Hk : (1 <= k)%nat) by lia.
  destruct (Nat.le_gt_cases k 50) as [Hle|Hgt].
  - rewrite Nat.min_l by lia. split.
    + apply Nat.div_le_lower_bound; lia.
    + assert ((n + k - 1) / k < 20)%nat
        by (apply Nat.Div0.div_lt_upper_bound; lia).
      lia.
  - rewrite Nat.min_r by lia. split.
    + apply Nat.div_le_lower_bound; lia.
    + assert ((n + 50 - 1) / 50 < 201)%nat
        by (apply Nat.Div0.div_lt_upper_bound; lia).
      lia.
Qed.

Lemma scored_windows_le s v n :
  (n <= max_rows)%nat -> INR (scored_windows s v n (bin_width n)) <= 200.
Proof.
  intros Hn. replace 200 with (INR 200) by (simpl; lra). apply le_INR.
  unfold scored_windows.
  destruct (Nat.lt_ge_cases n 10) as [Hsmall|Hbig].
  - rewrite (proj2 (bin_width_zero n) Hsmall). simpl. lia.
  - rewrite range_windows by (now apply bin_width_pos).
    eapply Nat.le_trans; [apply filter_length_le|].
    rewrite length_map, length_seq. apply window_count_bounds. lia.
Qed.

Lemma sample_rows_length {rng : Type}
  (shuffle : list nat -> rng -> list nat * rng) n g :
  (length (fst (sample_rows shuffle n g)) <= max_rows)%nat.
Proof.
  destruct (Nat.le_gt_cases n max_rows) as [H|H].
  - rewrite sample_rows_small by exact H. cbn [fst]. unfold arange.
    now rewrite length_seq.
  - rewrite sample_rows_large by exact H. cbn [fst].
    rewrite length_firstn. lia.
Qed.

Lemma getcol_same_column Sa Sa' inds j :
  shape0 Sa = shape0 Sa' -> shape1 Sa = shape1 Sa' ->
  (forall r, (r < shape0 Sa)%nat -> item Sa r j = item Sa' r j) ->
  getcol (PyArray Sa) inds (PyInt j) = getcol (PyArray Sa') inds (PyInt j).
Proof.
  intros H0 H1 Hcol. unfold getcol. rewrite <- H0, <- H1.
  destruct (j <? shape1 Sa)%nat; [|reflexivity]. cbn [andb].
  destruct (forallb _ inds) eqn:Hin; [|reflexivity].
  f_equal. unfold column. apply map_ext_in. intros r Hr.
  apply Hcol. rewrite forallb_forall in Hin.
  apply Nat.ltb_lt. now apply Hin.
Qed.

End More.

(** *** Attributions on another scale *)

Module Affine.

Section Map.
Variables a b : R.
Hypothesis a_nonzero : a <> 0.















End Map.

End Affine.

(** *** Rows in another order *)

Module Reorder.

Lemma sorted_perm_unique (key : nat -> R) l1 :
  forall l2,
  Permutation l1 l2 ->
  StronglySorted (fun a b => key a <= key b) l1 ->
  StronglySorted (fun a b => key a <= key b) l2 ->
  (forall a b, In a l1 -> In b l1 -> key a = key b -> a = b) ->
  l1 = l2.
Proof.
  induction l1 as [|x l1 IH]; intros l2 Hp H1 H2 Hinj.
  - apply Permutation_nil in Hp. now subst.
  - destruct l2 as [|y l2].
    { apply Permutation_sym, Permutation_nil in Hp. discriminate. }
    inversion H1 as [|? ? H1' Hall1]; subst.
    inversion H2 as [|? ? H2' Hall2]; subst.
    rewrite Forall_forall in Hall1, Hall2.
    assert (Hy : In y (x :: l1))
      by (apply (Permutation_in _ (Permutation_sym Hp)); now left).
    assert (Hx : In x (y :: l2))
      by (apply (Permutation_in _ Hp); now left).
    assert (E : x = y).
    { apply Hinj; [now left | exact Hy |].
      apply Rle_antisym.
      - destruct Hy as [->|Hy]; [lra | now apply Hall1].
      - destruct Hx as [->|Hx]; [lra | now apply Hall2]. }
    subst y. f_equal. apply IH; auto.
    + eapply Permutation_cons_inv, Hp.
    + intros a b Ha Hb. apply Hinj; now right.
Qed.

Lemma StronglySorted_map {A B : Type} (R1 : A -> A -> Prop)
  (R2 : B -> B -> Prop) (f : A -> B) l :
  (forall a b, In a l -> In b l -> R1 a b -> R2 (f a) (f b)) ->
  StronglySorted R1 l -> StronglySorted R2 (map f l).
Proof.
  intros Hf H. induction H as [|a l Hs IH Hall]; simpl; constructor.
  - apply IH. intros; apply Hf; auto; now right.
  - rewrite Forall_forall in *. intros b Hb.
    apply in_map_iff in Hb. destruct Hb as [c [<- Hc]].
    apply Hf; [now left | now right | now apply Hall].
Qed.

Lemma map_nth_seq_nat (l : list nat) :
  map (fun k => nth k l 0%nat) (seq 0 (length l)) = l.
Proof.
  induction l as [|x l IH]; simpl; [reflexivity|].
  rewrite <- seq_shift, map_map. simpl. now rewrite IH.
Qed.

Lemma column_reordered rows a c :
  column (reorder_rows rows a) (seq 0 (length rows)) c = column a rows c.
Proof.
  unfold column, reorder_rows. cbn [item].
  rewrite <- (map_nth_seq_nat rows) at 2. now rewrite map_map.
Qed.

Lemma take_column a rows c idx :
  Forall (fun k => (k < length rows)%nat) idx ->
  take (column a rows c) idx
  = column a (map (fun k => nth k rows 0%nat) idx) c.
Proof.
  intros H. unfold take, column. rewrite map_map. apply map_ext_in.
  intros k Hk. rewrite Forall_forall in H. specialize (H k Hk).
  rewrite (nth_indep _ 0 (item a 0%nat c)) by (now rewrite length_map).
  apply (map_nth (fun r => item a r c)).
Qed.

Lemma take_column_seq a n c idx :
  Forall (fun k => (k < n)%nat) idx ->
  take (column a (seq 0 n) c) idx = column a idx c.
Proof.
  intros H. rewrite take_column by (now rewrite length_seq).
  f_equal. rewrite <- (map_id idx) at 2. apply map_ext_in.
  intros k Hk. rewrite Forall_forall in H. specialize (H k Hk).
  now rewrite seq_nth.
Qed.

Lemma nth_column a rows c k :
  (k < length rows)%nat ->
  nth k (column a rows c) 0 = item a (nth k rows 0%nat) c.
Proof.
  intros H. unfold column.
  rewrite (nth_indep _ 0 (item a 0%nat c)) by (now rewrite length_map).
  apply (map_nth (fun r => item a r c)).
Qed.

(** Sorting the reordered target column and going back to the rows of
    the matrix gives the order in which the column itself is sorted, when
    its entries are distinct. *)
Lemma argsort_reordered a n rows j :
  Permutation rows (seq 0 n) ->
  NoDup (column a (seq 0 n) j) ->
  map (fun k => nth k rows 0%nat) (argsort (column a rows j))
  = argsort (column a (seq 0 n) j).
Proof.
  intros Hp Hnd.
  assert (Hlen : length rows = n).
  { rewrite (Permutation_length Hp). apply length_seq. }
  set (key := fun r => nth r (column a (seq 0 n) j) 0).
  pose proof (argsort_perm (column a rows j)) as Hs'.
  rewrite column_length, Hlen in Hs'.
  pose proof (argsort_perm (column a (seq 0 n) j)) as Hs.
  rewrite column_length, length_seq in Hs.
  assert (Hin : forall k, In k (argsort (column a rows j)) -> (k < n)%nat).
  { intros k Hk. apply (Permutation_in _ Hs') in Hk.
    apply in_seq in Hk. lia. }
  assert (Hrows : forall k, (k < n)%nat -> (nth k rows 0 < n)%nat).
  { intros k Hk.
    assert (In (nth k rows 0%nat) rows) by (apply nth_In; lia).
    apply (Permutation_in _ Hp) in H. apply in_seq in H. lia. }
  apply (sorted_perm_unique key).
  - eapply Permutation_trans; [apply Permutation_map, Hs'|].
    rewrite <- Hlen at 1. rewrite map_nth_seq_nat.
    eapply Permutation_trans; [exact Hp | apply Permutation_sym, Hs].
  - apply (StronglySorted_map
             (fun x y => nth x (column a rows j) 0
                         <= nth y (column a rows j) 0)).
    + intros x y Hx Hy Hle. unfold key.
      rewrite !nth_column in Hle by (rewrite Hlen; auto).
      rewrite !nth_column by (rewrite length_seq; auto).
      rewrite !seq_nth by auto. exact Hle.
    + apply argsort_sorted.
  - apply argsort_sorted.
  - intros x y Hx Hy Hxy.
    assert (Hb : forall z,
               In z (map (fun k => nth k rows 0%nat)
                         (argsort (column a rows j))) -> (z < n)%nat).
    { intros z Hz. apply in_map_iff in Hz. destruct Hz as [k [<- Hk]].
      auto. }
    unfold key in Hxy.
    apply (proj1 (NoDup_nth (column a (seq 0 n) j) 0) Hnd);
      rewrite ?column_length, ?length_seq; auto.
Qed.

End Reorder.

(** ** Further properties, as theorems *)

Import More.

(** X1.  A target index that is not a column of the feature matrix makes
    the call fail with [IndexError] where the target column is read
    (line 149), before any column is scored. *)
Theorem target_index_out_of_range_raises :
  forall (rng : Type) (shuffle : list nat -> rng -> list nat * rng)
         j Sa Xa g,
  (shape1 Xa <= j)%nat ->
  prepare (PyInt j) (PyArray Sa) (PyArray Xa)
          (fst (sample_rows shuffle (shape0 Xa) g))
  = Raise IndexError
  /\ fst (approx_interactions shuffle (PyInt j) (PyArray Sa) (PyArray Xa) g)
     = Raise IndexError.
Proof.
  intros rng shuffle j Sa Xa g Hj.
  assert (Hp : prepare (PyInt j) (PyArray Sa) (PyArray Xa)
                       (fst (sample_rows shuffle (shape0 Xa) g))
               = Raise IndexError).
  { unfold prepare.
    now rewrite (getcol_out_of_range Xa _ j (or_introl Hj)). }
  split; [exact Hp|].
  rewrite approx_interactions_array. cbn [fst].
  unfold rank_rows. now rewrite Hp.
Qed.

(** Column 3 of a matrix with three columns. *)
Lemma target_index_out_of_range_raises_witness :
  (shape1 (full 4 3 1) <= 3)%nat
  /\ fst (approx_interactions no_shuffle (PyInt 3) (PyArray (full 4 3 1))
                              (PyArray (full 4 3 1)) tt)
     = Raise IndexError.
Proof.
  assert (H : (shape1 (full 4 3 1) <= 3)%nat) by (simpl; lia).
  split; [exact H|].
  exact (proj2 (target_index_out_of_range_raises unit no_shuffle 3%nat
                  (full 4 3 1) (full 4 3 1) tt H)).
Defined.

(** X2.  When every column but the target is degenerate on the sampled
    rows, as with a feature matrix of no rows, the call returns whatever
    the number of rows is, and every score is 0. *)
Theorem degenerate_input_scores_zero :
  forall (rng : Type) (shuffle : list nat -> rng -> list nat * rng),
  (forall l g, Permutation l (fst (shuffle l g))) ->
  forall j Sa Xa g,
  valid_input j Sa Xa ->
  let inds := fst (sample_rows shuffle (shape0 Xa) g) in
  shape0 Xa = 0%nat
  \/ (forall i, (i < shape1 Xa)%nat -> i <> j ->
                sum (abs (column Xa inds i)) < eps) ->
  exists p,
    prepare (PyInt j) (PyArray Sa) (PyArray Xa) inds = Ok p
    /\ interactions (PyInt j) (PyArray Xa) inds (shape1 Xa) p
       = Ok (repeat 0 (shape1 Xa))
    /\ fst (approx_interactions shuffle (PyInt j) (PyArray Sa)
                                (PyArray Xa) g)
       = Ok (rank (repeat 0 (shape1 Xa))).
Proof.
  intros rng shuffle Hperm j Sa Xa g Hv. cbv zeta. intros Hdeg.
  destruct (valid_sample shuffle Hperm j Sa Xa g Hv)
    as (HjX & HiX & HjS & HiS & Hlen).
  set (inds := fst (sample_rows shuffle (shape0 Xa) g)) in *.
  assert (Hsum : forall i, (i < shape1 Xa)%nat -> i <> j ->
                           sum (abs (column Xa inds i)) < eps).
  { destruct Hdeg as [H0|H]; [|exact H].
    intros i _ _. rewrite H0 in Hlen. cbn [Nat.min] in Hlen.
    apply length_zero_iff_nil in Hlen. rewrite Hlen. simpl.
    apply eps_pos. }
  pose proof (prepare_ok Sa Xa j inds HjX HiX HjS HiS) as Hp.
  set (p := mk_prepared _ _ _ _) in Hp.
  assert (Hsc : interactions (PyInt j) (PyArray Xa) inds (shape1 Xa) p
                = Ok (repeat 0 (shape1 Xa))).
  { unfold interactions.
    rewrite (for_each_const _ (seq 0 (shape1 Xa)) 0).
    - now rewrite length_seq.
    - intros i Hi. apply in_seq in Hi.
      destruct (Nat.eq_dec i j) as [->|Hij].
      + now apply score_of_target.
      + apply score_of_zero_column;
          [lia | exact HiX | apply argsort_column_perm | apply Hsum; lia]. }
  exists p. split; [exact Hp|]. split; [exact Hsc|].
  rewrite approx_interactions_array. cbn [fst]. fold inds.
  unfold rank_rows. rewrite Hp. cbn [bind]. now rewrite Hsc.
Qed.

(** A matrix of no rows and three columns. *)
Lemma degenerate_input_scores_zero_witness :
  (forall l g, Permutation l (fst (no_shuffle l g)))
  /\ valid_input 1 (full 0 3 0) (full 0 3 0)
  /\ shape0 (full 0 3 0) = 0%nat
  /\ fst (approx_interactions no_shuffle (PyInt 1) (PyArray (full 0 3 0))
                              (PyArray (full 0 3 0)) tt)
     = Ok (rank (repeat 0 (shape1 (full 0 3 0)))).
Proof.
  assert (Hv : valid_input 1 (full 0 3 0) (full 0 3 0)).
  { unfold valid_input. simpl. repeat split; lia. }
  assert (H0 : shape0 (full 0 3 0) = 0%nat) by reflexivity.
  split; [exact no_shuffle_perm|]. split; [exact Hv|]. split; [exact H0|].
  destruct (degenerate_input_scores_zero unit no_shuffle no_shuffle_perm
              1%nat (full 0 3 0) (full 0 3 0) tt Hv (or_introl H0))
    as (p & _ & _ & Hr).
  exact Hr.
Defined.

(** X3.  With ten to nineteen rows the bin width is 1, every window holds
    one row, and every score is 0: the ranking tells nothing about the
    columns. *)
Theorem ten_to_nineteen_rows_score_zero :
  forall (rng : Type) (shuffle : list nat -> rng -> list nat * rng)
         j Sa Xa g,
  valid_input j Sa Xa -> (10 <= shape0 Xa <= 19)%nat ->
  let inds := fst (sample_rows shuffle (shape0 Xa) g) in
  exists p,
    prepare (PyInt j) (PyArray Sa) (PyArray Xa) inds = Ok p
    /\ p_inc p = 1%nat
    /\ interactions (PyInt j) (PyArray Xa) inds (shape1 Xa) p
       = Ok (repeat 0 (shape1 Xa))
    /\ fst (approx_interactions shuffle (PyInt j) (PyArray Sa)
                                (PyArray Xa) g)
       = Ok (rank (repeat 0 (shape1 Xa))).
Proof.
  intros rng shuffle j Sa Xa g Hv Hn. cbv zeta.
  assert (Hs : sample_rows shuffle (shape0 Xa) g = (arange (shape0 Xa), g)).
  { apply sample_rows_small. unfold max_rows. lia. }
  rewrite approx_interactions_array, Hs. cbn [fst].
  destruct Hv as (H0 & H1 & HjX).
  assert (HiX : Forall (fun r => (r < shape0 Xa)%nat) (arange (shape0 Xa))).
  { apply Forall_forall. intros r Hr. apply in_seq in Hr. lia. }
  assert (HjS : (j < shape1 Sa)%nat) by (rewrite H1; exact HjX).
  assert (HiS : Forall (fun r => (r < shape0 Sa)%nat) (arange (shape0 Xa)))
    by (rewrite H0; exact HiX).
  pose proof (prepare_ok Sa Xa j _ HjX HiX HjS HiS) as Hp.
  set (p := mk_prepared _ _ _ _) in Hp.
  assert (Hinc : p_inc p = 1%nat).
  { unfold p. cbn [p_inc]. rewrite column_length. unfold arange.
    rewrite length_seq. now apply bin_width_one. }
  assert (Hsc : interactions (PyInt j) (PyArray Xa) (arange (shape0 Xa))
                             (shape1 Xa) p
                = Ok (repeat 0 (shape1 Xa))).
  { unfold interactions.
    rewrite (for_each_const _ (seq 0 (shape1 Xa)) 0).
    - now rewrite length_seq.
    - intros i Hi. apply in_seq in Hi.
      rewrite score_array by (auto; lia). rewrite Hinc.
      destruct (_ || _); [reflexivity | apply window_loop_width_one]. }
  exists p. split; [exact Hp|]. split; [exact Hinc|]. split; [exact Hsc|].
  unfold rank_rows. rewrite Hp. cbn [bind]. now rewrite Hsc.
Qed.

(** Fifteen rows of the value 1 in two columns. *)
Lemma ten_to_nineteen_rows_score_zero_witness :
  valid_input 0 (full 15 2 1) (full 15 2 1)
  /\ (10 <= shape0 (full 15 2 1) <= 19)%nat
  /\ fst (approx_interactions no_shuffle (PyInt 0) (PyArray (full 15 2 1))
                              (PyArray (full 15 2 1)) tt)
     = Ok (rank (repeat 0 (shape1 (full 15 2 1)))).
Proof.
  assert (Hv : valid_input 0 (full 15 2 1) (full 15 2 1)).
  { unfold valid_input. simpl. repeat split; lia. }
  assert (Hn : (10 <= shape0 (full 15 2 1) <= 19)%nat) by (simpl; lia).
  split; [exact Hv|]. split; [exact Hn|].
  destruct (ten_to_nineteen_rows_score_zero unit no_shuffle 0%nat
              (full 15 2 1) (full 15 2 1) tt Hv Hn)
    as (p & _ & _ & _ & Hr).
  exact Hr.
Defined.

(** X4.  Of the attribution matrix only the target's column is read: two
    attribution matrices of one shape that agree on that column give the
    same result, the same exception included, and leave the generator in
    the same state. *)
Theorem only_the_target_attribution_column_is_read :
  forall (rng : Type) (shuffle : list nat -> rng -> list nat * rng)
         j Sa Sa' X g,
  shape0 Sa = shape0 Sa' -> shape1 Sa = shape1 Sa' ->
  (forall r, (r < shape0 Sa)%nat -> item Sa r j = item Sa' r j) ->
  approx_interactions shuffle (PyInt j) (PyArray Sa) X g
  = approx_interactions shuffle (PyInt j) (PyArray Sa') X g.
Proof.
  intros rng shuffle j Sa Sa' X g H0 H1 Hcol.
  destruct X as [n|Xa]; [reflexivity|].
  rewrite !approx_interactions_array. f_equal.
  unfold rank_rows, prepare.
  now rewrite (getcol_same_column Sa Sa' _ j H0 H1 Hcol).
Qed.

(** The ramp's attributions, and attributions that are the row number in
    column 0 only. *)
Lemma only_the_target_attribution_column_is_read_witness :
  shape0 ramp_shap = shape0 ramp
  /\ shape1 ramp_shap = shape1 ramp
  /\ (forall r, (r < shape0 ramp_shap)%nat ->
                item ramp_shap r 0 = item ramp r 0)
  /\ fst (approx_interactions no_shuffle (PyInt 0) (PyArray ramp)
                              (PyArray ramp) tt)
     = Ok [1; 0; 2]%nat.
Proof.
  assert (H0 : shape0 ramp_shap = shape0 ramp) by reflexivity.
  assert (H1 : shape1 ramp_shap = shape1 ramp) by reflexivity.
  split; [exact H0|]. split; [exact H1|].
  assert (Hc : forall r, (r < shape0 ramp_shap)%nat ->
                         item ramp_shap r 0 = item ramp r 0)
    by reflexivity.
  split; [exact Hc|].
  rewrite <- (only_the_target_attribution_column_is_read unit no_shuffle
                0%nat ramp_shap ramp (PyArray ramp) tt H0 H1 Hc).
  exact Ramp.approx_interactions_ramp.
Defined.



(** X6.  A column of ten to 10,000 sampled rows is cut into at least 10
    and at most 200 windows, and no score of a returned ranking is above
    200. *)
Theorem scores_are_at_most_200 :
  (forall n, (10 <= n <= max_rows)%nat ->
             (10 <= window_count n (bin_width n) <= 200)%nat)
  /\ (forall (rng : Type) (shuffle : list nat -> rng -> list nat * rng)
             j Sa Xa g r,
      fst (approx_interactions shuffle (PyInt j) (PyArray Sa) (PyArray Xa) g)
      = Ok r ->
      let inds := fst (sample_rows shuffle (shape0 Xa) g) in
      exists p scores,
        prepare (PyInt j) (PyArray Sa) (PyArray Xa) inds = Ok p
        /\ interactions (PyInt j) (PyArray Xa) inds (shape1 Xa) p = Ok scores
        /\ Forall (fun v => 0 <= v <= 200) scores).
Proof.
  split; [exact window_count_bounds|].
  intros rng shuffle j Sa Xa g r H. cbv zeta.
  destruct (returned_ranking shuffle j Sa Xa g r H)
    as (p & scores & Hp & Hsc & _).
  exists p, scores. split; [exact Hp|]. split; [exact Hsc|].
  apply Forall_forall. intros v Hv.
  destruct (In_nth_error _ _ Hv) as [i Hi].
  destruct (prepare_inv _ _ _ _ _ Hp)
    as (Sa' & Xa' & j' & _ & _ & EX & HjX & HiX & _ & _ & Ep).
  injection EX as <-.
  destruct (interactions_nth _ _ _ _ _ _ _ _ Hsc Hi) as [HiF Hs].
  subst p. cbn [p_srt p_shap_ref p_x p_inc] in Hs.
  rewrite column_length in Hs.
  set (n := length (fst (sample_rows shuffle (shape0 Xa) g))) in *.
  assert (Hn : (n <= max_rows)%nat) by apply sample_rows_length.
  pose proof (score_bounds _ _ _ _ _ _ _ _ _ HiF HiX
                (take_length _ _) Hs) as [Hlo Hhi].
  split; [exact Hlo|].
  eapply Rle_trans; [exact Hhi|]. now apply scored_windows_le.
Qed.

(** Twenty rows make ten windows; the scores on the ramp are 0, 10
    and 0. *)
Lemma scores_are_at_most_200_witness :
  ((10 <= 20 <= max_rows)%nat
   /\ (10 <= window_count 20 (bin_width 20) <= 200)%nat)
  /\ (fst (approx_interactions no_shuffle (PyInt 0) (PyArray ramp_shap)
                               (PyArray ramp) tt) = Ok [1; 0; 2]%nat
      /\ exists p scores,
           prepare (PyInt 0) (PyArray ramp_shap) (PyArray ramp)
                   (fst (sample_rows no_shuffle (shape0 ramp) tt)) = Ok p
           /\ interactions (PyInt 0) (PyArray ramp)
                (fst (sample_rows no_shuffle (shape0 ramp) tt))
                (shape1 ramp) p = Ok scores
           /\ Forall (fun v => 0 <= v <= 200) scores).
Proof.
  split.
  - assert (H : (10 <= 20 <= max_rows)%nat) by (unfold max_rows; lia).
    split; [exact H|]. exact (proj1 scores_are_at_most_200 20%nat H).
  - split; [exact Ramp.approx_interactions_ramp|].
    exact (proj2 scores_are_at_most_200 unit no_shuffle 0%nat ramp_shap ramp
             tt [1; 0; 2]%nat Ramp.approx_interactions_ramp).
Defined.

Module DepFacts.

Import Cat Dep.

Lemma matrix_column_ok a ind :
  (ind < shape1 a)%nat ->
  matrix_column a ind = inr (column a (arange (shape0 a)) ind).
Proof.
  intros H. unfold matrix_column.
  now rewrite (proj2 (Nat.ltb_lt _ _) H).
Qed.

(** With the features displayed as they are, lines 73-85 pass exactly
    when the index is a column of both matrices, there is a row, and the
    names hold a name for the index. *)
Lemma before_selection_plain ind Sa Xa names :
  (ind < shape1 Xa)%nat -> (ind < shape1 Sa)%nat -> (1 <= shape0 Xa)%nat ->
  before_selection ind Sa Xa names None = feature_name names ind.
Proof.
  intros HX HS Hrows. unfold before_selection, display_column.
  rewrite (matrix_column_ok Xa ind HX), (matrix_column_ok Sa ind HS).
  cbn [attempt_bind]. unfold make_name_map, column, arange.
  destruct (shape0 Xa) as [|n]; [lia|]. reflexivity.
Qed.

(** A feature that is picked is the head of the ranking. *)
Lemma selection_auto {rng : Type}
  (shuffle : list nat -> rng -> list nat * rng)
  ind Sa features names display g k :
  fst (selection shuffle ind Sa features names display Auto g) = inr k ->
  exists r,
    fst (approx_interactions shuffle (PyInt ind) (PyArray Sa)
           (PyArray (frame_values features)) g) = Ok (k :: r).
Proof.
  unfold selection.
  assert (E : fst (fst (convert features names display))
              = frame_values features).
  { destruct features, display; reflexivity. }
  destruct (convert features names display) as [[Xa nm] d].
  cbn [fst] in E. subst Xa.
  destruct (before_selection ind Sa _ nm d); [discriminate|].
  unfold dependence_plot_interaction_index, call_global. simpl lookup.
  cbv iota.
  destruct (approx_interactions shuffle _ _ _ g) as [[r|e] g'];
    cbn [fst bind lift]; [|discriminate].
  destruct r as [|k0 r]; cbn; [discriminate|].
  intros H. injection H as ->. now exists r.
Qed.

End DepFacts.

Import Dep DepFacts.

(** X7.  For a plotted index that is not negative, the feature that
    [dependence_plot] picks by itself is a column of the feature matrix
    whose score no other column exceeds; it is not the plotted feature as
    soon as some score is positive.  Valid input of ten rows or more gets
    such a feature when the names hold a name for the plotted index; with
    the default [feature_names=None] and a plain matrix the call stops with
    [TypeError] at line 85, before the ranker is called and without a draw
    from the random generator. *)
Theorem auto_selected_feature_has_the_highest_score :
  (forall (rng : Type) (shuffle : list nat -> rng -> list nat * rng)
          ind Sa features names display g k,
    fst (selection shuffle ind Sa features names display Auto g) = inr k ->
    let Xa := frame_values features in
    let inds := fst (sample_rows shuffle (shape0 Xa) g) in
    exists p scores,
      prepare (PyInt ind) (PyArray Sa) (PyArray Xa) inds = Ok p
      /\ interactions (PyInt ind) (PyArray Xa) inds (shape1 Xa) p = Ok scores
      /\ (k < shape1 Xa)%nat
      /\ (forall i, (i < shape1 Xa)%nat -> nth i scores 0 <= nth k scores 0)
      /\ ((exists i, 0 < nth i scores 0) ->
          k <> ind /\ 0 < nth k scores 0))
  /\ (forall (rng : Type) (shuffle : list nat -> rng -> list nat * rng),
      (forall l g, Permutation l (fst (shuffle l g))) ->
      forall ind Sa Xa g,
      valid_input ind Sa Xa -> (10 <= shape0 Xa)%nat ->
      (forall names, (ind < length names)%nat ->
         (exists k, fst (selection shuffle ind Sa (Matrix Xa) (NList names)
                                   DNone Auto g) = inr k)
         /\ (exists k, fst (selection shuffle ind Sa (DataFrame names Xa)
                                      NNone DNone Auto g) = inr k))
      /\ forall choice,
           selection shuffle ind Sa (Matrix Xa) NNone DNone choice g
           = (inl (Cat.Builtin TypeError), g)).
Proof.
  split.
  - intros rng shuffle ind Sa features names display g k Hsel. cbv zeta.
    destruct (selection_auto shuffle _ _ _ _ _ _ _ Hsel) as [r Hr].
    set (Xa := frame_values features) in *.
    destruct (returned_ranking shuffle ind Sa Xa g _ Hr)
      as (p & scores & Hp & Hsc & Hlen & _ & _ & Hin & _ & Hsorted).
    exists p, scores. split; [exact Hp|]. split; [exact Hsc|].
    assert (Hk : (k < shape1 Xa)%nat) by (apply Hin; now left).
    assert (Hmax : forall i, (i < shape1 Xa)%nat ->
                             nth i scores 0 <= nth k scores 0).
    { intros i Hi. apply Hin in Hi. destruct Hi as [->|Hi]; [lra|].
      inversion Hsorted as [|? ? _ Hall]; subst.
      rewrite Forall_forall in Hall. now apply Hall. }
    split; [exact Hk|]. split; [exact Hmax|].
    intros [i Hpos].
    assert (HiF : (i < shape1 Xa)%nat).
    { destruct (Nat.lt_ge_cases i (shape1 Xa)) as [Hlt|Hge]; [exact Hlt|].
      rewrite nth_overflow in Hpos by (rewrite Hlen; exact Hge). lra. }
    assert (Hkpos : 0 < nth k scores 0)
      by (specialize (Hmax i HiF); lra).
    split; [|exact Hkpos].
    intros ->.
    destruct (prepare_inv _ _ _ _ _ Hp)
      as (Sa' & Xa' & j' & Ej & _ & EX & HjX & HiX & _).
    injection Ej as <-. injection EX as <-.
    destruct (for_each_nth _ _ _ ind ind Hsc (in_seq_nth_error _ _ HjX))
      as (v & Hv & Hs).
    rewrite (score_of_target Xa ind _ _ _ _ _ HjX HiX) in Hs.
    injection Hs as <-.
    rewrite (nth_error_nth_R _ _ _ Hv) in Hkpos. lra.
  - intros rng shuffle Hperm ind Sa Xa g Hv Hn.
    destruct Hv as (Hr0 & Hc0 & HjX).
    assert (HjS : (ind < shape1 Sa)%nat) by lia.
    assert (Hrows : (1 <= shape0 Xa)%nat) by lia.
    assert (Hok : forall names,
               (ind < length names)%nat ->
               exists c, feature_name (NList names) ind = inr c).
    { intros names Hlen. unfold feature_name, getitem.
      destruct (nth_error names ind) as [c|] eqn:E.
      - now exists c.
      - apply nth_error_None in E. lia. }
    assert (Hrank : exists k,
               lift (fst (dependence_plot_interaction_index shuffle ind Sa Xa
                            Auto g)) = inr k).
    { assert (Hvalid : valid_input ind Sa Xa) by (repeat split; assumption).
      destruct (ranking_of_valid_input shuffle Hperm ind Sa Xa g Hvalid Hn)
        as [r Hr].
      destruct (returned_ranking shuffle ind Sa Xa g r Hr)
        as (_ & _ & _ & _ & _ & _ & _ & _ & Hin & _).
      unfold dependence_plot_interaction_index, call_global. simpl lookup.
      cbv iota.
      destruct (approx_interactions shuffle _ _ _ g) as [r' g'].
      cbn [fst] in *. rewrite Hr. cbn [bind].
      destruct r as [|k r'']; [destruct Hin|]. now exists k. }
    split.
    + intros names Hlen. destruct (Hok names Hlen) as [c Hc].
      destruct Hrank as [k Hk].
      split; exists k; unfold selection; cbn [convert or_columns];
        rewrite (before_selection_plain ind Sa Xa _ HjX HjS Hrows), Hc;
        destruct (dependence_plot_interaction_index shuffle ind Sa Xa Auto g)
          as [r g']; exact Hk.
    + intros choice. unfold selection. cbn [convert].
      now rewrite (before_selection_plain ind Sa Xa _ HjX HjS Hrows).
Qed.

(** On the ramp with three names [dependence_plot] picks column 1, whose
    score is 10; without names it stops. *)
Lemma auto_selected_feature_has_the_highest_score_witness :
  (fst (selection no_shuffle 0 ramp_shap (Matrix ramp)
                  (NList [CNum 0; CNum 1; CNum 2]) DNone Auto tt)
   = inr 1%nat
   /\ exists p scores,
        prepare (PyInt 0) (PyArray ramp_shap) (PyArray ramp)
                (fst (sample_rows no_shuffle (shape0 ramp) tt)) = Ok p
        /\ interactions (PyInt 0) (PyArray ramp)
             (fst (sample_rows no_shuffle (shape0 ramp) tt))
             (shape1 ramp) p = Ok scores
        /\ (1 < shape1 ramp)%nat
        /\ (forall i, (i < shape1 ramp)%nat ->
                      nth i scores 0 <= nth 1 scores 0))
  /\ ((forall l g, Permutation l (fst (no_shuffle l g)))
      /\ valid_input 0 ramp_shap ramp
      /\ (10 <= shape0 ramp)%nat
      /\ (0 < length [CNum 0; CNum 1; CNum 2])%nat
      /\ (exists k,
           fst (selection no_shuffle 0 ramp_shap (Matrix ramp)
                          (NList [CNum 0; CNum 1; CNum 2]) DNone Auto tt)
           = inr k)
      /\ selection no_shuffle 0 ramp_shap (Matrix ramp) NNone DNone Auto tt
         = (inl (Cat.Builtin TypeError), tt)).
Proof.
  assert (Hv : valid_input 0 ramp_shap ramp).
  { unfold valid_input. simpl. repeat split; lia. }
  assert (Hn : (10 <= shape0 ramp)%nat) by (simpl; lia).
  assert (Hl : (0 < length [CNum 0; CNum 1; CNum 2])%nat) by (simpl; lia).
  assert (Hd : fst (selection no_shuffle 0 ramp_shap (Matrix ramp)
                      (NList [CNum 0; CNum 1; CNum 2]) DNone Auto tt)
               = inr 1%nat).
  { unfold selection. cbn [convert].
    rewrite (before_selection_plain 0 ramp_shap ramp _)
      by (simpl; lia).
    cbn [feature_name getitem nth_error lift].
    unfold dependence_plot_interaction_index, call_global. simpl lookup.
    cbv iota.
    pose proof Ramp.approx_interactions_ramp as H.
    destruct (approx_interactions no_shuffle _ _ _ tt) as [r g'].
    cbn [fst] in *. now rewrite H. }
  split.
  - split; [exact Hd|].
    destruct (proj1 auto_selected_feature_has_the_highest_score unit
                no_shuffle 0%nat ramp_shap (Matrix ramp) _ DNone tt 1%nat Hd)
      as (p & scores & Hp & Hsc & Hk & Hmax & _).
    exists p, scores. repeat split; assumption.
  - split; [exact no_shuffle_perm|]. split; [exact Hv|]. split; [exact Hn|].
    split; [exact Hl|].
    destruct (proj2 auto_selected_feature_has_the_highest_score unit
                no_shuffle no_shuffle_perm 0%nat ramp_shap ramp tt Hv Hn)
      as [T1 T2].
    split; [exact (proj1 (T1 _ Hl)) | exact (T2 Auto)].
Defined.

(** X8.  Without sampling (up to 10,000 rows) and without ties in the
    target column, the order of the rows does not matter: giving both
    matrices with their rows in another order, the same for both, yields
    the same ranking. *)
Theorem ranking_ignores_the_order_of_the_rows :
  forall (rng : Type) (shuffle : list nat -> rng -> list nat * rng)
         j Sa Xa g rows,
  valid_input j Sa Xa ->
  (shape0 Xa <= max_rows)%nat ->
  Permutation rows (seq 0 (shape0 Xa)) ->
  NoDup (column Xa (seq 0 (shape0 Xa)) j) ->
  fst (approx_interactions shuffle (PyInt j)
         (PyArray (reorder_rows rows Sa)) (PyArray (reorder_rows rows Xa)) g)
  = fst (approx_interactions shuffle (PyInt j) (PyArray Sa) (PyArray Xa) g).
Proof.
  intros rng shuffle j Sa Xa g rows (H0 & H1 & HjX) Hn Hp Hnd.
  set (n := shape0 Xa) in *.
  assert (Hlen : length rows = n).
  { rewrite (Permutation_length Hp). apply length_seq. }
  rewrite !approx_interactions_array. cbn [fst reorder_rows shape0 shape1].
  fold n. rewrite sample_rows_small by exact Hn. cbn [fst]. unfold arange.
  assert (Hr : Forall (fun r => (r < n)%nat) (seq 0 n)).
  { apply Forall_forall. intros r Hr. apply in_seq in Hr. lia. }
  assert (HjS : (j < shape1 Sa)%nat) by (rewrite H1; exact HjX).
  assert (HrS : Forall (fun r => (r < shape0 Sa)%nat) (seq 0 n))
    by (rewrite H0; exact Hr).
  unfold rank_rows.
  rewrite (prepare_ok Sa Xa j (seq 0 n) HjX Hr HjS HrS).
  rewrite (prepare_ok (reorder_rows rows Sa) (reorder_rows rows Xa) j
                      (seq 0 n) HjX Hr HjS HrS).
  cbn [bind]. rewrite !column_length.
  assert (Ecol : forall A c,
             column (reorder_rows rows A) (seq 0 n) c = column A rows c).
  { intros A c. rewrite <- Hlen. apply Reorder.column_reordered. }
  rewrite !Ecol.
  assert (Hsrt' : Forall (fun k => (k < length rows)%nat)
                         (argsort (column Xa rows j))).
  { apply Forall_forall. intros k Hk. apply argsort_in_range in Hk.
    now rewrite column_length in Hk. }
  assert (Hsrt : Forall (fun k => (k < n)%nat)
                        (argsort (column Xa (seq 0 n) j))).
  { apply Forall_forall. intros k Hk. apply argsort_in_range in Hk.
    now rewrite column_length, length_seq in Hk. }
  rewrite (Reorder.take_column Sa rows j _ Hsrt').
  rewrite (Reorder.argsort_reordered Xa n rows j Hp Hnd).
  rewrite (Reorder.take_column_seq Sa n j _ Hsrt).
  assert (Hsc : forall inc,
    interactions (PyInt j) (PyArray (reorder_rows rows Xa)) (seq 0 n)
      (shape1 Xa)
      (mk_prepared (column Xa rows j) (argsort (column Xa rows j))
         (column Sa (argsort (column Xa (seq 0 n) j)) j) inc)
    = interactions (PyInt j) (PyArray Xa) (seq 0 n) (shape1 Xa)
      (mk_prepared (column Xa (seq 0 n) j) (argsort (column Xa (seq 0 n) j))
         (column Sa (argsort (column Xa (seq 0 n) j)) j) inc)).
  { intros inc. unfold interactions. cbn [p_srt p_shap_ref p_x p_inc].
    rewrite !column_length, length_seq, Hlen.
    apply for_each_ext. intros i Hi. apply in_seq in Hi.
    rewrite (score_array _ Xa) by (auto; lia).
    rewrite (score_array _ (reorder_rows rows Xa))
      by (cbn [reorder_rows shape0 shape1]; first [lia | exact Hr]).
    rewrite Ecol.
    rewrite (Reorder.take_column Xa rows i _ Hsrt').
    rewrite (Reorder.argsort_reordered Xa n rows j Hp Hnd).
    now rewrite (Reorder.take_column_seq Xa n i _ Hsrt). }
  now rewrite Hsc.
Qed.

Lemma NoDup_map_INR l : NoDup l -> NoDup (map INR l).
Proof.
  induction 1 as [|x l Hx Hnd IH]; simpl; constructor; [|exact IH].
  intros Hin. apply in_map_iff in Hin. destruct Hin as [y [Hy Hin]].
  apply INR_eq in Hy. now subst y.
Qed.

(** The ramp with its rows in reverse order. *)
Lemma ranking_ignores_the_order_of_the_rows_witness :
  valid_input 0 ramp_shap ramp
  /\ (shape0 ramp <= max_rows)%nat
  /\ Permutation (rev (seq 0 20)) (seq 0 (shape0 ramp))
  /\ NoDup (column ramp (seq 0 (shape0 ramp)) 0)
  /\ fst (approx_interactions no_shuffle (PyInt 0)
            (PyArray (reorder_rows (rev (seq 0 20)) ramp_shap))
            (PyArray (reorder_rows (rev (seq 0 20)) ramp)) tt)
     = Ok [1; 0; 2]%nat.
Proof.
  assert (Hv : valid_input 0 ramp_shap ramp).
  { unfold valid_input. simpl. repeat split; lia. }
  assert (Hn : (shape0 ramp <= max_rows)%nat)
    by (unfold max_rows; simpl; lia).
  assert (Hp : Permutation (rev (seq 0 20)) (seq 0 (shape0 ramp)))
    by (apply Permutation_sym, Permutation_rev).
  assert (Hnd : NoDup (column ramp (seq 0 (shape0 ramp)) 0)).
  { rewrite Ramp.column_ramp_0. apply NoDup_map_INR, seq_NoDup. }
  split; [exact Hv|]. split; [exact Hn|]. split; [exact Hp|].
  split; [exact Hnd|].
  rewrite (ranking_ignores_the_order_of_the_rows unit no_shuffle 0%nat
             ramp_shap ramp tt (rev (seq 0 20)) Hv Hn Hp Hnd).
  exact Ramp.approx_interactions_ramp.
Defined.

(** ** summary_plot: the rows of the plot *)

Module SummaryFacts.

Lemma clamp_index_neg len k :
  (0 <= k)%Z -> (k <= Z.of_nat len)%Z -> (0 < k)%Z ->
  clamp_index len (- k) = (len - Z.to_nat k)%nat.
Proof.
  intros H0 Hle Hpos. unfold clamp_index.
  destruct (Z.ltb_spec (- k) 0); lia.
Qed.

Lemma clamp_index_zero len : clamp_index len 0 = 0%nat.
Proof. unfold clamp_index. simpl. lia. Qed.

Lemma clamp_index_pos len k :
  (0 <= k)%Z -> clamp_index len k = Nat.min (Z.to_nat k) len.
Proof.
  intros H. unfold clamp_index. destruct (Z.ltb_spec k 0); lia.
Qed.

Lemma slice_to_minus_one {A : Type} (l : list A) :
  slice_to l (-1) = firstn (length l - 1) l.
Proof.
  unfold slice_to. f_equal. unfold clamp_index.
  destruct (Z.ltb_spec (-1) 0); lia.
Qed.

Lemma abs_column_sums_length a : length (abs_column_sums a) = shape1 a.
Proof. unfold abs_column_sums. now rewrite length_map, length_seq. Qed.

Lemma nth_abs_column_sums a c :
  (c < shape1 a)%nat -> nth c (abs_column_sums a) 0 = magnitude a c.
Proof.
  intros H. unfold abs_column_sums.
  rewrite (nth_indep _ 0 (magnitude a 0%nat))
    by (now rewrite length_map, length_seq).
  rewrite (map_nth (magnitude a)). now rewrite seq_nth.
Qed.

(** The first [F - 1] magnitudes, which are sorted. *)
Lemma nth_sorted_sums a c :
  (c < shape1 a - 1)%nat ->
  nth c (slice_to (abs_column_sums a) (-1)) 0 = magnitude a c.
Proof.
  intros H. rewrite slice_to_minus_one, abs_column_sums_length.
  rewrite nth_firstn.
  destruct (Nat.ltb_spec c (shape1 a - 1)); [|lia].
  apply nth_abs_column_sums. lia.
Qed.

Lemma sorted_sums_length a :
  length (slice_to (abs_column_sums a) (-1)) = (shape1 a - 1)%nat.
Proof.
  rewrite slice_to_minus_one, length_firstn, abs_column_sums_length. lia.
Qed.

Lemma full_order_perm a :
  Permutation (argsort (slice_to (abs_column_sums a) (-1)))
              (seq 0 (shape1 a - 1)).
Proof.
  rewrite <- (sorted_sums_length a). apply argsort_perm.
Qed.

Lemma full_order_sorted a :
  StronglySorted (fun c d => magnitude a c <= magnitude a d)
                 (argsort (slice_to (abs_column_sums a) (-1))).
Proof.
  pose proof (argsort_sorted (slice_to (abs_column_sums a) (-1))) as H.
  pose proof (full_order_perm a) as Hp.
  assert (Hin : forall c, In c (argsort (slice_to (abs_column_sums a) (-1)))
                          -> (c < shape1 a - 1)%nat).
  { intros c Hc. apply (Permutation_in _ Hp) in Hc. apply in_seq in Hc. lia. }
  clear Hp. revert Hin.
  induction H as [|c l Hs IH Hall]; intros Hin; constructor.
  - apply IH. intros; apply Hin; now right.
  - rewrite Forall_forall in *. intros d Hd. specialize (Hall d Hd).
    rewrite !nth_sorted_sums in Hall; auto.
    + apply Hin; now right.
    + apply Hin; now left.
Qed.

Lemma StronglySorted_app_inv {A : Type} (R : A -> A -> Prop) l1 l2 :
  StronglySorted R (l1 ++ l2) ->
  StronglySorted R l2 /\ forall x y, In x l1 -> In y l2 -> R x y.
Proof.
  induction l1 as [|a l1 IH]; simpl; intros H.
  - split; [exact H | intros x y []].
  - inversion H as [|? ? Hs Hall]; subst. destruct (IH Hs) as [H2 Hxy].
    split; [exact H2|]. intros x y [->|Hx] Hy.
    + rewrite Forall_forall in Hall. apply Hall, in_or_app. now right.
    + now apply Hxy.
Qed.

Lemma NoDup_skipn {A : Type} n (l : list A) : NoDup l -> NoDup (skipn n l).
Proof.
  intros H. rewrite <- (firstn_skipn n l) in H.
  now apply NoDup_app_remove_l in H.
Qed.

Lemma In_skipn {A : Type} n (l : list A) x : In x (skipn n l) -> In x l.
Proof.
  intros H. rewrite <- (firstn_skipn n l). apply in_or_app. now right.
Qed.

Lemma getitem_nth {A : Type} (l : list A) i d :
  (i < length l)%nat -> getitem l i = Ok (nth i l d).
Proof.
  intros H. unfold getitem.
  now rewrite (nth_error_nth' l d H).
Qed.

End SummaryFacts.

Import SummaryFacts.

Lemma feature_order_sorted_branch m a :
  let full := argsort (slice_to (abs_column_sums a) (-1)) in
  feature_order true m a
  = skipn (clamp_index (shape1 a - 1)
             (- Z.min m (Z.of_nat (shape1 a - 1)))) full.
Proof.
  cbv zeta. unfold feature_order, slice_from.
  now rewrite argsort_length, sorted_sums_length.
Qed.

Lemma feature_order_in_range sort m a i :
  In i (feature_order sort m a) -> (i < shape1 a - 1)%nat.
Proof.
  destruct sort.
  - rewrite feature_order_sorted_branch. cbv zeta. intros H.
    apply In_skipn in H. apply (Permutation_in _ (full_order_perm a)) in H.
    apply in_seq in H. lia.
  - unfold feature_order, arange_int. intros H. apply in_seq in H. lia.
Qed.

(** X9.  With [sort] and [max_display] of 1 or more, the rows of the
    summary plot are [min(max_display, F - 1)] different columns among the
    first [F - 1] (the last column gets no row), in ascending order of the
    sum of their absolute attributions, and no column left out has a
    larger sum than a column shown. *)
Theorem summary_rows_are_the_largest_features :
  forall (max_display : Z) (shap_values : ndarray),
  (1 <= max_display)%Z ->
  let order := feature_order true max_display shap_values in
  length order = Nat.min (Z.to_nat max_display) (shape1 shap_values - 1)
  /\ NoDup order
  /\ Forall (fun c => (c < shape1 shap_values - 1)%nat) order
  /\ StronglySorted (fun c d => magnitude shap_values c
                                <= magnitude shap_values d) order
  /\ (forall c d, (c < shape1 shap_values - 1)%nat ->
                  ~ In c order -> In d order ->
                  magnitude shap_values c <= magnitude shap_values d).
Proof.
  intros m a Hm. cbv zeta.
  rewrite feature_order_sorted_branch. cbv zeta.
  set (full := argsort (slice_to (abs_column_sums a) (-1))).
  set (f1 := (shape1 a - 1)%nat).
  pose proof (full_order_perm a) as Hp. fold full f1 in Hp.
  pose proof (full_order_sorted a) as Hs. fold full in Hs.
  assert (Hlen : length full = f1).
  { rewrite (Permutation_length Hp). apply length_seq. }
  set (k := Nat.min (Z.to_nat m) f1).
  assert (Hc : clamp_index f1 (- Z.min m (Z.of_nat f1)) = (f1 - k)%nat).
  { destruct f1 as [|f1'] eqn:E.
    - replace (Z.min m (Z.of_nat 0)) with 0%Z by lia. reflexivity.
    - rewrite clamp_index_neg by lia. unfold k. lia. }
  rewrite Hc.
  assert (Hnd : NoDup full).
  { eapply Permutation_NoDup; [apply Permutation_sym, Hp | apply seq_NoDup]. }
  rewrite <- (firstn_skipn (f1 - k) full) in Hs.
  destruct (StronglySorted_app_inv _ _ _ Hs) as [Hs2 Hcross].
  split; [rewrite length_skipn, Hlen; unfold k; lia|].
  split; [now apply NoDup_skipn|].
  split.
  { apply Forall_forall. intros c Hc'. apply In_skipn in Hc'.
    apply (Permutation_in _ Hp) in Hc'. apply in_seq in Hc'. lia. }
  split; [exact Hs2|].
  intros c d Hcf Hnot Hd. apply Hcross; [|exact Hd].
  assert (Hin : In c full).
  { apply (Permutation_in _ (Permutation_sym Hp)). apply in_seq. lia. }
  rewrite <- (firstn_skipn (f1 - k) full) in Hin.
  apply in_app_or in Hin. destruct Hin as [Hin|Hin]; [exact Hin|].
  contradiction.
Qed.

(** Two rows for the three columns of the ramp's attributions. *)
Lemma summary_rows_are_the_largest_features_witness :
  (1 <= 2)%Z
  /\ length (feature_order true 2 ramp_shap) = 2%nat
  /\ NoDup (feature_order true 2 ramp_shap)
  /\ Forall (fun c => (c < 2)%nat) (feature_order true 2 ramp_shap).
Proof.
  assert (H : (1 <= 2)%Z) by lia.
  split; [exact H|].
  destruct (summary_rows_are_the_largest_features 2 ramp_shap H)
    as (Hlen & Hnd & Hall & _).
  split; [exact Hlen|]. split; [exact Hnd|]. exact Hall.
Defined.

(** X10.  [max_display] of 0 does not mean the same in the two branches:
    with [sort] the slice [[-0:]] is the whole order, so that every one of
    the first [F - 1] columns gets a row, in ascending order of the sums;
    without [sort] none does.  A negative [max_display] leaves no row
    without [sort], and with [sort] drops that many of the columns with the
    smallest sums: the rows are the order of [max_display = 0] without its
    first entries, they are in ascending order of the sums, and no column
    that is dropped has a larger sum than a column that is kept. *)
Theorem summary_rows_for_max_display_zero_or_less :
  forall (shap_values : ndarray),
  Permutation (feature_order true 0 shap_values)
              (seq 0 (shape1 shap_values - 1))
  /\ StronglySorted (fun c d => magnitude shap_values c
                                <= magnitude shap_values d)
                    (feature_order true 0 shap_values)
  /\ feature_order false 0 shap_values = []
  /\ (forall m, (m < 0)%Z ->
      let dropped := Nat.min (Z.to_nat (- m)) (shape1 shap_values - 1) in
      let order := feature_order true m shap_values in
      feature_order false m shap_values = []
      /\ order = skipn dropped (feature_order true 0 shap_values)
      /\ length order = (shape1 shap_values - 1 - dropped)%nat
      /\ NoDup order
      /\ StronglySorted (fun c d => magnitude shap_values c
                                    <= magnitude shap_values d) order
      /\ (forall c d, (c < shape1 shap_values - 1)%nat ->
                      ~ In c order -> In d order ->
                      magnitude shap_values c <= magnitude shap_values d)).
Proof.
  intros a.
  assert (H0 : feature_order true 0 a
               = argsort (slice_to (abs_column_sums a) (-1))).
  { rewrite feature_order_sorted_branch. cbv zeta.
    replace (- Z.min 0 (Z.of_nat (shape1 a - 1)))%Z with 0%Z by lia.
    now rewrite clamp_index_zero. }
  pose proof (full_order_perm a) as Hp.
  pose proof (full_order_sorted a) as Hs.
  rewrite <- H0 in Hp, Hs.
  split; [exact Hp|]. split; [exact Hs|].
  split.
  { unfold feature_order, arange_int.
    replace (Z.to_nat (Z.min 0 (Z.of_nat (shape1 a) - 1))) with 0%nat by lia.
    reflexivity. }
  intros m Hm. cbv zeta.
  set (k := Nat.min (Z.to_nat (- m)) (shape1 a - 1)).
  assert (Hm' : feature_order true m a = skipn k (feature_order true 0 a)).
  { rewrite H0, feature_order_sorted_branch. cbv zeta. f_equal.
    replace (- Z.min m (Z.of_nat (shape1 a - 1)))%Z with (- m)%Z by lia.
    apply clamp_index_pos. lia. }
  assert (Hlen : length (feature_order true 0 a) = (shape1 a - 1)%nat).
  { rewrite (Permutation_length Hp). apply length_seq. }
  assert (Hnd : NoDup (feature_order true 0 a)).
  { eapply Permutation_NoDup; [apply Permutation_sym, Hp | apply seq_NoDup]. }
  rewrite <- (firstn_skipn k (feature_order true 0 a)) in Hs.
  destruct (StronglySorted_app_inv _ _ _ Hs) as [Hs2 Hcross].
  split.
  { unfold feature_order, arange_int.
    replace (Z.to_nat (Z.min m (Z.of_nat (shape1 a) - 1))) with 0%nat by lia.
    reflexivity. }
  rewrite Hm'.
  split; [reflexivity|].
  split; [rewrite length_skipn, Hlen; reflexivity|].
  split; [now apply NoDup_skipn|].
  split; [exact Hs2|].
  intros c d Hc Hnot Hd. apply Hcross; [|exact Hd].
  assert (Hin : In c (feature_order true 0 a)).
  { apply (Permutation_in _ (Permutation_sym Hp)). apply in_seq. lia. }
  rewrite <- (firstn_skipn k (feature_order true 0 a)) in Hin.
  apply in_app_or in Hin. destruct Hin as [Hin|Hin]; [exact Hin|].
  contradiction.
Qed.

(** [max_display] of -1 on the ramp's attributions: one of the two columns
    is dropped, and its sum is not the larger one. *)
Lemma summary_rows_for_max_display_zero_or_less_witness :
  (-1 < 0)%Z
  /\ feature_order false (-1) ramp_shap = []
  /\ feature_order true (-1) ramp_shap
     = skipn (Nat.min (Z.to_nat (- -1)) (shape1 ramp_shap - 1))
             (feature_order true 0 ramp_shap)
  /\ length (feature_order true (-1) ramp_shap) = 1%nat
  /\ (forall c d, (c < shape1 ramp_shap - 1)%nat ->
                  ~ In c (feature_order true (-1) ramp_shap) ->
                  In d (feature_order true (-1) ramp_shap) ->
                  magnitude ramp_shap c <= magnitude ramp_shap d).
Proof.
  assert (H : (-1 < 0)%Z) by lia.
  split; [exact H|].
  destruct (proj2 (proj2 (proj2
              (summary_rows_for_max_display_zero_or_less ramp_shap)))
              (-1)%Z H) as (H1 & H2 & H3 & _ & _ & H6).
  split; [exact H1|]. split; [exact H2|]. split; [exact H3 | exact H6].
Defined.

Lemma tick_labels_ok names order :
  (forall i, In i order -> (i < length names)%nat) ->
  tick_labels (Some names) order
  = Ok (map (fun i => nth i names (CNum 0)) order).
Proof.
  intros H. unfold tick_labels.
  induction order as [|i l IH]; [reflexivity|].
  simpl. rewrite (getitem_nth names i (CNum 0)) by (apply H; now left).
  cbn [bind]. rewrite IH by (intros; apply H; now right). reflexivity.
Qed.

(** ** Columns of strings *)

Module CatFacts.
Import Cat.

(** *** The order of strings *)

Lemma compare_refl s : String.compare s s = Eq.
Proof. now apply OrderedTypeEx.String_as_OT.cmp_eq. Qed.

Lemma leb_refl s : String.leb s s = true.
Proof. unfold String.leb. now rewrite compare_refl. Qed.

Lemma leb_cases s t :
  String.leb s t = true <-> OrderedTypeEx.String_as_OT.lt s t \/ s = t.
Proof.
  unfold String.leb.
  destruct (String.compare s t) eqn:E; split; intros H; try reflexivity.
  - right. now apply OrderedTypeEx.String_as_OT.cmp_eq.
  - left. now apply OrderedTypeEx.String_as_OT.cmp_lt.
  - discriminate.
  - destruct H as [H|H].
    + apply OrderedTypeEx.String_as_OT.cmp_lt in H.
      unfold OrderedTypeEx.String_as_OT.cmp in H. congruence.
    + subst t. rewrite compare_refl in E. discriminate.
Qed.

Lemma leb_trans s t u :
  String.leb s t = true -> String.leb t u = true -> String.leb s u = true.
Proof.
  rewrite !leb_cases. intros [H1 | ->] [H2 | ->]; auto.
  left. eapply OrderedTypeEx.String_as_OT.lt_trans; eauto.
Qed.

Lemma ltb_leb s t :
  String.ltb s t = true <-> String.leb s t = true /\ s <> t.
Proof.
  unfold String.ltb, String.leb.
  destruct (String.compare s t) eqn:E; split; try discriminate.
  - intros [_ H]. exfalso. apply H.
    now apply OrderedTypeEx.String_as_OT.cmp_eq.
  - intros _. split; [reflexivity|]. intros ->.
    rewrite compare_refl in E. discriminate.
  - reflexivity.
  - intros [H _]. discriminate.
Qed.

(** *** Sorting *)

Lemma insert_name_perm s l : Permutation (insert_name s l) (s :: l).
Proof.
  induction l as [|t l IH]; simpl; [apply Permutation_refl|].
  destruct (String.leb s t); [apply Permutation_refl|].
  eapply perm_trans; [apply perm_skip, IH | apply perm_swap].
Qed.

Lemma sort_names_perm l : Permutation (sort_names l) l.
Proof.
  induction l as [|s l IH]; simpl; [constructor|].
  eapply perm_trans; [apply insert_name_perm | apply perm_skip, IH].
Qed.

Lemma insert_name_sorted s l :
  StronglySorted (fun a b => String.leb a b = true) l ->
  StronglySorted (fun a b => String.leb a b = true) (insert_name s l).
Proof.
  induction 1 as [|t l Hs IH Hall]; simpl.
  - constructor; constructor.
  - destruct (String.leb s t) eqn:E.
    + constructor; [constructor; assumption|].
      constructor; [exact E|].
      rewrite Forall_forall in *. intros u Hu.
      eapply leb_trans; [exact E | now apply Hall].
    + constructor; [exact IH|].
      rewrite Forall_forall in *. intros u Hu.
      apply (Permutation_in _ (insert_name_perm s l)) in Hu.
      destruct Hu as [<-|Hu]; [|now apply Hall].
      destruct (String.leb_total s t) as [H|H]; congruence.
Qed.

Lemma sort_names_sorted l :
  StronglySorted (fun a b => String.leb a b = true) (sort_names l).
Proof.
  induction l as [|s l IH]; simpl; [constructor|].
  now apply insert_name_sorted.
Qed.

Lemma sorted_names_unique l1 :
  forall l2,
  Permutation l1 l2 ->
  StronglySorted (fun a b => String.leb a b = true) l1 ->
  StronglySorted (fun a b => String.leb a b = true) l2 ->
  l1 = l2.
Proof.
  induction l1 as [|x l1 IH]; intros l2 Hp H1 H2.
  - apply Permutation_nil in Hp. now subst.
  - destruct l2 as [|y l2].
    { apply Permutation_sym, Permutation_nil in Hp. discriminate. }
    inversion H1 as [|? ? H1' Hall1]; subst.
    inversion H2 as [|? ? H2' Hall2]; subst.
    rewrite Forall_forall in Hall1, Hall2.
    assert (Hy : In y (x :: l1))
      by (apply (Permutation_in _ (Permutation_sym Hp)); now left).
    assert (Hx : In x (y :: l2))
      by (apply (Permutation_in _ Hp); now left).
    assert (E : x = y).
    { apply String.leb_antisym.
      - destruct Hy as [-> | Hy]; [apply leb_refl | now apply Hall1].
      - destruct Hx as [-> | Hx]; [apply leb_refl | now apply Hall2]. }
    subst y. f_equal. apply IH; auto.
    eapply Permutation_cons_inv, Hp.
Qed.

(** In a sorted list without repetition, an earlier name is below a
    later one. *)
Lemma sorted_nodup_ltb l :
  StronglySorted (fun a b => String.leb a b = true) l -> NoDup l ->
  forall a b, (a < b)%nat -> (b < length l)%nat ->
  String.ltb (nth a l String.EmptyString) (nth b l String.EmptyString) = true.
Proof.
  intros Hs Hnd a b Hab Hb. apply ltb_leb. split.
  - apply (StronglySorted_nth _ _ Hs a b); [| |exact Hab];
      apply nth_error_nth'; lia.
  - intros E. apply (proj1 (NoDup_nth l String.EmptyString) Hnd) in E; lia.
Qed.

(** *** Dictionaries *)

Lemma dict_set_fresh {V : Type} (d : dict V) k v :
  ~ In k (dict_keys d) -> dict_set d k v = d ++ [(k, v)].
Proof.
  induction d as [|[k' v'] d IH]; simpl; intros H; [reflexivity|].
  destruct (String.eqb_spec k k') as [->|Hne]; [tauto|].
  now rewrite IH by tauto.
Qed.

Lemma dict_keys_app {V : Type} (d1 d2 : dict V) :
  dict_keys (d1 ++ d2) = dict_keys d1 ++ dict_keys d2.
Proof. apply map_app. Qed.

Lemma fold_dict_set_nodup names :
  forall s (d : dict nat),
  NoDup names -> (forall k, In k names -> ~ In k (dict_keys d)) ->
  fold_left (fun d p => dict_set d (snd p) (fst p))
            (combine (seq s (length names)) names) d
  = d ++ combine names (seq s (length names)).
Proof.
  induction names as [|n names IH]; intros s d Hnd Hfresh; simpl.
  - now rewrite app_nil_r.
  - inversion Hnd as [|? ? Hn Hnd']; subst.
    rewrite dict_set_fresh by (apply Hfresh; now left).
    rewrite IH; [now rewrite <- app_assoc | exact Hnd' |].
    intros k Hk. rewrite dict_keys_app, in_app_iff. simpl.
    intros [H|[H|[]]].
    + apply (Hfresh k); [now right | exact H].
    + subst k. contradiction.
Qed.

Lemma name_codes_nodup names :
  NoDup names -> name_codes names = combine names (seq 0 (length names)).
Proof.
  intros H. unfold name_codes.
  now rewrite fold_dict_set_nodup by (auto; intros k _ []).
Qed.

Lemma dict_keys_combine names s :
  dict_keys (combine names (seq s (length names))) = names.
Proof.
  revert s. induction names as [|n names IH]; intros s; simpl;
    [reflexivity|].
  f_equal. apply IH.
Qed.

Lemma dict_get_combine names :
  forall s k, In k names ->
  dict_get (combine names (seq s (length names))) k
  = inr (s + position names k)%nat.
Proof.
  induction names as [|n names IH]; intros s k Hin; [destruct Hin|].
  simpl. destruct (String.eqb_spec k n) as [->|Hne].
  - f_equal. lia.
  - destruct Hin as [Hin|Hin]; [congruence|].
    rewrite IH by exact Hin. f_equal. lia.
Qed.

Lemma dict_get_absent {V : Type} (d : dict V) k :
  ~ In k (dict_keys d) -> dict_get d k = inl (KeyError k).
Proof.
  induction d as [|[k' v'] d IH]; simpl; intros H; [reflexivity|].
  destruct (String.eqb_spec k k') as [->|Hne]; [tauto|].
  apply IH. tauto.
Qed.

Lemma dict_get_present {V : Type} (d : dict V) k :
  In k (dict_keys d) -> exists v, dict_get d k = inr v.
Proof.
  induction d as [|[k' v'] d IH]; simpl; intros H; [destruct H|].
  destruct (String.eqb_spec k k') as [->|Hne]; [eauto|].
  apply IH. destruct H; [congruence | assumption].
Qed.

Lemma lookup_all_positions names keys :
  (forall k, In k keys -> In k names) ->
  lookup_all (combine names (seq 0 (length names))) keys
  = inr (map (position names) keys).
Proof.
  induction keys as [|k keys IH]; intros H; [reflexivity|].
  simpl. rewrite dict_get_combine by (apply H; now left).
  cbn [attempt_bind]. rewrite IH by (intros; apply H; now right).
  reflexivity.
Qed.

Lemma lookup_all_missing {V : Type} (d : dict V) keys :
  (exists k, In k keys /\ ~ In k (dict_keys d)) ->
  exists k, In k keys /\ ~ In k (dict_keys d)
            /\ lookup_all d keys = inl (KeyError k).
Proof.
  induction keys as [|k keys IH]; intros [k0 [Hin Hnot]]; [destruct Hin|].
  simpl.
  destruct (in_dec String.string_dec k (dict_keys d)) as [Hk|Hk].
  - destruct (dict_get_present d k Hk) as [v Hv]. rewrite Hv.
    cbn [attempt_bind].
    destruct IH as (k1 & H1 & H2 & H3).
    { exists k0. split; [|exact Hnot].
      destruct Hin as [->|Hin]; [contradiction | exact Hin]. }
    exists k1. rewrite H3. split; [now right|].
    split; [exact H2 | reflexivity].
  - exists k. rewrite (dict_get_absent d k Hk).
    split; [now left|]. split; [exact Hk | reflexivity].
Qed.

(** *** Places in a list of names *)

Lemma position_In names s :
  In s names ->
  (position names s < length names)%nat
  /\ nth (position names s) names String.EmptyString = s.
Proof.
  induction names as [|t names IH]; intros Hin; [destruct Hin|].
  simpl. destruct (String.eqb_spec s t) as [->|Hne].
  - split; [lia | reflexivity].
  - destruct Hin as [Hin|Hin]; [congruence|].
    destruct (IH Hin). split; [lia | assumption].
Qed.

Lemma position_nth names :
  NoDup names -> forall i, (i < length names)%nat ->
  position names (nth i names String.EmptyString) = i.
Proof.
  induction 1 as [|t names Ht Hnd IH]; intros i Hi; simpl in *; [lia|].
  destruct i as [|i].
  - now rewrite String.eqb_refl.
  - destruct (String.eqb_spec (nth i names String.EmptyString) t) as [E|E].
    + exfalso. apply Ht. rewrite <- E. apply nth_In. lia.
    + f_equal. apply IH. lia.
Qed.

Lemma map_position_self names :
  NoDup names -> map (position names) names = seq 0 (length names).
Proof.
  intros Hnd.
  apply nth_ext with (d := position names String.EmptyString) (d' := 0%nat).
  - now rewrite length_map, length_seq.
  - intros i Hi. rewrite length_map in Hi.
    rewrite (map_nth (position names)), seq_nth by exact Hi.
    now apply position_nth.
Qed.

(** *** The sorted names of a column *)

Lemma sorted_names_NoDup x : NoDup (sorted_names x).
Proof.
  unfold sorted_names.
  eapply Permutation_NoDup; [apply Permutation_sym, sort_names_perm|].
  apply NoDup_nodup.
Qed.

Lemma sorted_names_In x s : In s (sorted_names x) <-> In s x.
Proof.
  unfold sorted_names. split; intros H.
  - apply (Permutation_in _ (sort_names_perm _)) in H.
    now apply nodup_In in H.
  - apply (Permutation_in _ (Permutation_sym (sort_names_perm _))).
    now apply nodup_In.
Qed.

Lemma sorted_names_sorted x :
  StronglySorted (fun a b => String.leb a b = true) (sorted_names x).
Proof. apply sort_names_sorted. Qed.

Section AnySetOrder.
Variable list_of_set : list String.string -> list String.string.
Hypothesis list_of_set_spec :
  forall x, NoDup (list_of_set x)
            /\ forall s, In s (list_of_set x) <-> In s x.

Lemma sort_of_any_set_order x :
  sort_names (list_of_set x) = sorted_names x.
Proof.
  destruct (list_of_set_spec x) as [Hnd Hin].
  apply sorted_names_unique; try apply sort_names_sorted.
  eapply Permutation_trans; [apply sort_names_perm|].
  eapply Permutation_trans; [|apply Permutation_sym, sort_names_perm].
  apply NoDup_Permutation; [exact Hnd | apply NoDup_nodup |].
  intros s. rewrite Hin. symmetry. apply nodup_In.
Qed.

Lemma encode_spec x :
  encode list_of_set x
  = (sorted_names x,
     combine (sorted_names x) (seq 0 (length (sorted_names x))),
     inr (map (position (sorted_names x)) x)).
Proof.
  unfold encode. rewrite sort_of_any_set_order.
  rewrite name_codes_nodup by apply sorted_names_NoDup.
  rewrite lookup_all_positions; [reflexivity|].
  intros k Hk. now apply sorted_names_In.
Qed.

End AnySetOrder.

End CatFacts.

Import Cat CatFacts.

Lemma nth_codes names x i :
  (i < length x)%nat ->
  nth i (map (position names) x) 0%nat
  = position names (nth i x String.EmptyString).
Proof.
  intros H.
  rewrite (nth_indep _ 0%nat (position names String.EmptyString))
    by (now rewrite length_map).
  apply (map_nth (position names)).
Qed.

(** X12.  [plot] and [interaction_plot] put a column of Python strings
    (a list, or an array of dtype object) on the axis by the rank of each
    string among the distinct strings of the column, in the order in which
    Python compares strings, whatever the order of the set is: no lookup
    fails, the label at position [c] is the string whose code is [c], a
    smaller string has a smaller code, equal strings have equal codes,
    every position from 0 to the number of distinct strings less one is
    used, and the ticks are these positions.  The strings of a numpy array
    of strings are of the type [numpy.str_] and fail the test
    [type(x[0]) == str]: such a column is passed on as it is and gets no
    ticks.  A column without rows stops with [IndexError]. *)
Theorem string_column_is_coded_by_rank :
  forall (list_of_set : list String.string -> list String.string),
  (forall x, NoDup (list_of_set x)
             /\ forall s, In s (list_of_set x) <-> In s x) ->
  forall x : list String.string,
  x <> [] ->
  let xnames := sorted_names x in
  let codes := map (position xnames) x in
  plot_axis list_of_set (Strs x)
  = inr (Nums (map INR codes), Some (seq 0 (length xnames), xnames))
  /\ plot_axis list_of_set (NpStrs x) = inr (NpStrs x, None)
  /\ plot_axis list_of_set (Strs []) = inl (Builtin IndexError)
  /\ plot_axis list_of_set (NpStrs []) = inl (Builtin IndexError)
  /\ NoDup xnames
  /\ StronglySorted (fun a b => String.leb a b = true) xnames
  /\ (forall s, In s xnames <-> In s x)
  /\ (forall i, (i < length x)%nat ->
      (nth i codes 0 < length xnames)%nat
      /\ nth (nth i codes 0%nat) xnames String.EmptyString
         = nth i x String.EmptyString)
  /\ (forall i j, (i < length x)%nat -> (j < length x)%nat ->
      ((nth i codes 0 < nth j codes 0)%nat
       <-> String.ltb (nth i x String.EmptyString)
                      (nth j x String.EmptyString) = true))
  /\ (forall c, (c < length xnames)%nat -> In c codes).
Proof.
  intros los Hspec x Hx. cbv zeta.
  pose proof (sorted_names_NoDup x) as Hnd.
  pose proof (sorted_names_sorted x) as Hs.
  assert (Hmem : forall i, (i < length x)%nat ->
                           In (nth i x String.EmptyString) (sorted_names x)).
  { intros i Hi. apply sorted_names_In. now apply nth_In. }
  split.
  { destruct x as [|s x]; [contradiction|].
    unfold plot_axis. rewrite (encode_spec los Hspec). cbn [attempt_bind].
    rewrite lookup_all_positions by auto. cbn [attempt_bind].
    now rewrite map_position_self. }
  split; [destruct x; [contradiction | reflexivity]|].
  split; [reflexivity|]. split; [reflexivity|].
  split; [exact Hnd|]. split; [exact Hs|].
  split; [apply sorted_names_In|].
  split.
  { intros i Hi. rewrite nth_codes by exact Hi.
    now apply position_In, Hmem. }
  split.
  { intros i j Hi Hj. rewrite !nth_codes by assumption.
    set (si := nth i x String.EmptyString).
    set (sj := nth j x String.EmptyString).
    destruct (position_In _ _ (Hmem i Hi)) as [Hpi Hni].
    destruct (position_In _ _ (Hmem j Hj)) as [Hpj Hnj].
    fold si in Hpi, Hni. fold sj in Hpj, Hnj.
    split.
    - intros Hlt. rewrite <- Hni, <- Hnj.
      now apply sorted_nodup_ltb.
    - intros Hlt.
      destruct (Nat.lt_trichotomy (position (sorted_names x) si)
                                  (position (sorted_names x) sj))
        as [H|[H|H]]; [exact H| |].
      + exfalso. apply ltb_leb in Hlt. destruct Hlt as [_ Hne].
        apply Hne. rewrite <- Hni, <- Hnj. now rewrite H.
      + exfalso.
        pose proof (sorted_nodup_ltb _ Hs Hnd _ _ H Hpi) as Hgt.
        rewrite Hni, Hnj in Hgt.
        apply ltb_leb in Hlt, Hgt.
        destruct Hlt as [H1 Hne], Hgt as [H2 _].
        apply Hne. now apply String.leb_antisym. }
  intros c Hc.
  assert (Hin : In (nth c (sorted_names x) String.EmptyString) x).
  { apply sorted_names_In. now apply nth_In. }
  apply in_map_iff. exists (nth c (sorted_names x) String.EmptyString).
  split; [now apply position_nth | exact Hin].
Qed.

Lemma nodup_is_a_set_order :
  forall x : list String.string,
  NoDup (nodup String.string_dec x)
  /\ forall s, In s (nodup String.string_dec x) <-> In s x.
Proof.
  intros x. split; [apply NoDup_nodup | intros s; apply nodup_In].
Qed.

Local Open Scope string_scope.

(** The column b, a, b, as Python strings and as a numpy array of
    strings. *)
Lemma string_column_is_coded_by_rank_witness :
  (forall x, NoDup (nodup String.string_dec x)
             /\ forall s, In s (nodup String.string_dec x) <-> In s x)
  /\ ["b"; "a"; "b"] <> []
  /\ plot_axis (nodup String.string_dec) (Strs ["b"; "a"; "b"])
     = inr (Nums (map INR [1; 0; 1]%nat), Some ([0; 1]%nat, ["a"; "b"]))
  /\ plot_axis (nodup String.string_dec) (NpStrs ["b"; "a"; "b"])
     = inr (NpStrs ["b"; "a"; "b"], None).
Proof.
  assert (Hx : ["b"; "a"; "b"] <> []) by discriminate.
  split; [exact nodup_is_a_set_order|]. split; [exact Hx|].
  split.
  - exact (proj1 (string_column_is_coded_by_rank (nodup String.string_dec)
                    nodup_is_a_set_order ["b"; "a"; "b"] Hx)).
  - exact (proj1 (proj2 (string_column_is_coded_by_rank
                           (nodup String.string_dec)
                           nodup_is_a_set_order ["b"; "a"; "b"] Hx))).
Defined.

Local Close Scope string_scope.

(** X13.  [joint_plot] keeps the dictionaries of both columns under one
    name, so that with strings in both columns the ticks of the x axis are
    looked up in the dictionary of the y column.  When every string of x
    is also a string of y, the ticks are the places of the x names among
    the y names; when some string of x is not, the call stops with
    [KeyError] for such a string.  With numbers in the y column, or with
    the strings of a numpy array of strings, for which the test
    [type(y[0]) == str] fails, the ticks are the places of the x names
    among themselves.  The strings are Python strings here; for an x column
    that is a numpy array of strings no ticks are set. *)
Theorem joint_plot_ticks_use_the_last_dictionary :
  forall (list_of_set : list String.string -> list String.string),
  (forall x, NoDup (list_of_set x)
             /\ forall s, In s (list_of_set x) <-> In s x) ->
  forall (xs ys : list String.string) (nums : list R),
  xs <> [] -> ys <> [] -> nums <> [] ->
  ((forall s, In s xs -> In s ys) ->
   joint_plot_xticks list_of_set (Strs xs) (Strs ys)
   = inr (Some (map (position (sorted_names ys)) (sorted_names xs),
                sorted_names xs)))
  /\ ((exists s, In s xs /\ ~ In s ys) ->
      exists s, In s xs /\ ~ In s ys
                /\ joint_plot_xticks list_of_set (Strs xs) (Strs ys)
                   = inl (KeyError s))
  /\ joint_plot_xticks list_of_set (Strs xs) (Nums nums)
     = inr (Some (seq 0 (length (sorted_names xs)), sorted_names xs))
  /\ joint_plot_xticks list_of_set (Strs xs) (NpStrs ys)
     = inr (Some (seq 0 (length (sorted_names xs)), sorted_names xs))
  /\ joint_plot_xticks list_of_set (NpStrs xs) (Strs ys) = inr None
  /\ joint_plot_xticks list_of_set (NpStrs xs) (NpStrs ys) = inr None
  /\ joint_plot_xticks list_of_set (NpStrs xs) (Nums nums) = inr None.
Proof.
  intros los Hspec xs ys nums Hxs Hys Hnums.
  destruct xs as [|x0 xs]; [contradiction|].
  destruct ys as [|y0 ys]; [contradiction|].
  destruct nums as [|r0 nums]; [contradiction|].
  set (X := x0 :: xs) in *. set (Y := y0 :: ys) in *.
  assert (Hj : joint_plot_xticks los (Strs X) (Strs Y)
               = attempt_bind
                   (lookup_all (combine (sorted_names Y)
                                  (seq 0 (length (sorted_names Y))))
                               (sorted_names X))
                   (fun ticks => inr (Some (ticks, sorted_names X)))).
  { unfold joint_plot_xticks, X, Y. fold X Y.
    rewrite !(encode_spec los Hspec). reflexivity. }
  assert (Hown : forall y, (y = Nums (r0 :: nums) \/ y = NpStrs Y) ->
            joint_plot_xticks los (Strs X) y
            = inr (Some (seq 0 (length (sorted_names X)), sorted_names X))).
  { intros y Hy. unfold joint_plot_xticks, X. fold X.
    rewrite (encode_spec los Hspec). cbn [attempt_bind].
    assert (E : attempt_bind
                  (lookup_all (combine (sorted_names X)
                                 (seq 0 (length (sorted_names X))))
                              (sorted_names X))
                  (fun ticks => inr (Some (ticks, sorted_names X)))
                = inr (Some (seq 0 (length (sorted_names X)),
                             sorted_names X))
                  :> attempt (option (list nat * list String.string))).
    { rewrite lookup_all_positions by auto. cbn [attempt_bind].
      now rewrite (map_position_self _ (sorted_names_NoDup X)). }
    destruct Hy as [-> | ->]; exact E. }
  split; [|split; [|split; [|split; [|split; [|split]]]]].
  - intros Hsub. rewrite Hj.
    rewrite lookup_all_positions; [reflexivity|].
    intros k Hk. apply sorted_names_In, Hsub. now apply sorted_names_In.
  - intros [s [Hs Hnot]]. rewrite Hj.
    destruct (lookup_all_missing
                (combine (sorted_names Y) (seq 0 (length (sorted_names Y))))
                (sorted_names X)) as (k & Hk & Hkn & Hl).
    { exists s. split; [now apply sorted_names_In|].
      rewrite dict_keys_combine. now rewrite sorted_names_In. }
    exists k. rewrite Hl. cbn [attempt_bind].
    rewrite dict_keys_combine, sorted_names_In in Hkn.
    apply (proj1 (sorted_names_In _ _)) in Hk.
    split; [exact Hk|]. split; [exact Hkn | reflexivity].
  - apply Hown. now left.
  - apply Hown. now right.
  - unfold joint_plot_xticks, X, Y. fold Y.
    now rewrite (encode_spec los Hspec).
  - reflexivity.
  - reflexivity.
Qed.

Local Open Scope string_scope.

(** The x column holds b only.  With a and b in the y column the tick of
    b is at 1, though b is the first of the x names; with a only in the y
    column the call stops. *)
Lemma joint_plot_ticks_use_the_last_dictionary_witness :
  (forall x, NoDup (nodup String.string_dec x)
             /\ forall s, In s (nodup String.string_dec x) <-> In s x)
  /\ ["b"] <> [] /\ ["a"; "b"] <> [] /\ [1] <> []
  /\ ((forall s, In s ["b"] -> In s ["a"; "b"])
      /\ joint_plot_xticks (nodup String.string_dec) (Strs ["b"])
                           (Strs ["a"; "b"])
         = inr (Some ([1%nat], ["b"])))
  /\ ((exists s, In s ["b"] /\ ~ In s ["a"])
      /\ exists s, In s ["b"] /\ ~ In s ["a"]
                   /\ joint_plot_xticks (nodup String.string_dec)
                        (Strs ["b"]) (Strs ["a"])
                      = inl (KeyError s)).
Proof.
  assert (H1 : ["b"] <> []) by discriminate.
  assert (H2 : ["a"; "b"] <> []) by discriminate.
  assert (H3 : [1] <> []) by discriminate.
  assert (H4 : ["a"] <> []) by discriminate.
  assert (Hsub : forall s, In s ["b"] -> In s ["a"; "b"]).
  { intros s [<-|[]]. right. now left. }
  assert (Hex : exists s, In s ["b"] /\ ~ In s ["a"]).
  { exists "b". split; [now left|]. intros [H|[]]. discriminate. }
  split; [exact nodup_is_a_set_order|].
  split; [exact H1|]. split; [exact H2|]. split; [exact H3|].
  split.
  - split; [exact Hsub|].
    exact (proj1 (joint_plot_ticks_use_the_last_dictionary
                    (nodup String.string_dec) nodup_is_a_set_order
                    ["b"] ["a"; "b"] [1] H1 H2 H3) Hsub).
  - split; [exact Hex|].
    exact (proj1 (proj2 (joint_plot_ticks_use_the_last_dictionary
                           (nodup String.string_dec) nodup_is_a_set_order
                           ["b"] ["a"] [1] H1 H4 H3)) Hex).
Defined.

Local Close Scope string_scope.

(** *** The dictionary of [dependence_plot] *)

Module NameMap.

Lemma fold_failed {A : Type} (F : attempt (dict R) -> A -> attempt (dict R))
  (l : list A) f :
  (forall a, F (inl f) a = inl f) -> fold_left F l (inl f) = inl f.
Proof.
  intros H. induction l as [|a l IH]; simpl; [reflexivity|].
  now rewrite H.
Qed.

Lemma name_map_rows xv :
  forall xd pre_v pre_d d,
  length pre_v = length pre_d ->
  fold_left (fun acc i =>
               attempt_bind acc (fun name_map =>
               match nth_error (pre_d ++ xd) i, nth_error (pre_v ++ xv) i with
               | Some name, Some v => inr (dict_set name_map name v)
               | _, _ => inl (Builtin IndexError)
               end))
            (seq (length pre_v) (length xv)) (inr d)
  = fill d xv xd.
Proof.
  induction xv as [|v xv IH]; intros xd pre_v pre_d d Hlen; [reflexivity|].
  cbn [length seq fold_left attempt_bind].
  assert (E1 : nth_error (pre_v ++ v :: xv) (length pre_v) = Some v).
  { rewrite nth_error_app2 by lia. now rewrite Nat.sub_diag. }
  assert (E2 : nth_error (pre_d ++ xd) (length pre_v) = nth_error xd 0).
  { rewrite Hlen, nth_error_app2 by lia. now rewrite Nat.sub_diag. }
  rewrite E1, E2.
  destruct xd as [|s xd]; cbn [nth_error fill].
  - apply fold_failed. reflexivity.
  - specialize (IH xd (pre_v ++ [v]) (pre_d ++ [s]) (dict_set d s v)).
    rewrite !length_app in IH. cbn [length] in IH.
    rewrite <- !app_assoc in IH. cbn [app] in IH.
    replace (length pre_v + 1)%nat with (S (length pre_v)) in IH by lia.
    apply IH. lia.
Qed.

Lemma name_map_of_fill xv xd : name_map_of xv xd = fill [] xv xd.
Proof. apply (name_map_rows xv xd [] [] []). reflexivity. Qed.

Lemma dict_get_set {V : Type} (d : dict V) k v k' :
  dict_get (dict_set d k v) k'
  = if String.eqb k' k then inr v else dict_get d k'.
Proof.
  induction d as [|[k0 v0] d IH]; simpl.
  - reflexivity.
  - destruct (String.eqb_spec k k0) as [->|Hne]; simpl.
    + destruct (String.eqb_spec k' k0); reflexivity.
    + rewrite IH. destruct (String.eqb_spec k' k0) as [->|Hne'].
      * destruct (String.eqb_spec k0 k); [congruence | reflexivity].
      * reflexivity.
Qed.

Lemma dict_keys_set {V : Type} (d : dict V) k v :
  dict_keys (dict_set d k v)
  = if existsb (String.eqb k) (dict_keys d) then dict_keys d
    else dict_keys d ++ [k].
Proof.
  induction d as [|[k0 v0] d IH]; simpl; [reflexivity|].
  destruct (String.eqb_spec k k0) as [->|Hne]; simpl; [reflexivity|].
  rewrite IH. now destruct (existsb (String.eqb k) (dict_keys d)).
Qed.

Lemma first_appearances_seen seen seen' l :
  (forall s, In s seen <-> In s seen') ->
  first_appearances seen l = first_appearances seen' l.
Proof.
  revert seen seen'. induction l as [|s l IH]; intros seen seen' H;
    [reflexivity|].
  simpl.
  assert (E : existsb (String.eqb s) seen = existsb (String.eqb s) seen').
  { apply eq_true_iff_eq. rewrite !existsb_exists.
    split; intros [t [Ht Hst]]; exists t; split; auto; now apply H. }
  rewrite E. destruct (existsb (String.eqb s) seen').
  - now apply IH.
  - f_equal. apply IH. intros t. simpl. rewrite H. tauto.
Qed.

Lemma existsb_eqb_In s l : existsb (String.eqb s) l = true <-> In s l.
Proof.
  rewrite existsb_exists. split.
  - intros [t [Ht E]]. apply String.eqb_eq in E. now subst.
  - intros H. exists s. split; [exact H | apply String.eqb_refl].
Qed.

(** What the filled dictionary holds. *)
Lemma fill_spec xv :
  forall xd d,
  (length xv <= length xd)%nat ->
  exists d',
    fill d xv xd = inr d'
    /\ dict_keys d'
       = dict_keys d
         ++ first_appearances (dict_keys d) (firstn (length xv) xd)
    /\ forall k, dict_get d' k
                 = match last_value xv xd k with
                   | Some w => inr w
                   | None => dict_get d k
                   end.
Proof.
  induction xv as [|v xv IH]; intros xd d Hlen.
  - exists d. simpl. split; [reflexivity|]. split; [now rewrite app_nil_r|].
    intros k. reflexivity.
  - destruct xd as [|s xd]; [simpl in Hlen; lia|].
    simpl in Hlen.
    destruct (IH xd (dict_set d s v) ltac:(lia)) as (d' & Hf & Hk & Hg).
    exists d'. split; [exact Hf|]. split.
    + rewrite Hk, dict_keys_set. cbn [length firstn first_appearances].
      destruct (existsb (String.eqb s) (dict_keys d)) eqn:E.
      * reflexivity.
      * rewrite <- app_assoc. cbn [app]. f_equal. f_equal.
        apply first_appearances_seen. intros t.
        rewrite in_app_iff. simpl. tauto.
    + intros k. rewrite Hg. cbn [last_value].
      destruct (last_value xv xd k); [reflexivity|].
      rewrite dict_get_set. now destruct (String.eqb k s).
Qed.

Lemma fill_short xv :
  forall xd d, (length xd < length xv)%nat ->
  fill d xv xd = inl (Builtin IndexError).
Proof.
  induction xv as [|v xv IH]; intros xd d Hlen; [simpl in Hlen; lia|].
  destruct xd as [|s xd]; [reflexivity|].
  simpl in *. apply IH. lia.
Qed.

Lemma first_appearances_NoDup l :
  forall seen,
  NoDup (first_appearances seen l)
  /\ forall s, In s (first_appearances seen l) <-> In s l /\ ~ In s seen.
Proof.
  induction l as [|t l IH]; intros seen; simpl.
  - split; [constructor | intros s; tauto].
  - destruct (existsb (String.eqb t) seen) eqn:E.
    + apply existsb_eqb_In in E. destruct (IH seen) as [Hnd Hin].
      split; [exact Hnd|]. intros s. rewrite Hin. split.
      * tauto.
      * intros [[<-|H] Hn]; [contradiction | tauto].
    + assert (Hn : ~ In t seen).
      { intros H. apply existsb_eqb_In in H. congruence. }
      destruct (IH (t :: seen)) as [Hnd Hin]. split.
      * constructor; [|exact Hnd]. rewrite Hin. simpl. tauto.
      * intros s. simpl. rewrite Hin. simpl. split.
        -- intros [<-|[H1 H2]]; tauto.
        -- intros [[<-|H1] H2]; [now left|].
           destruct (String.string_dec t s) as [->|Hne]; [now left|].
           right. tauto.
Qed.

Lemma lookup_all_Forall2 (d : dict R) keys :
  (forall k, In k keys -> exists v, dict_get d k = inr v) ->
  exists ticks,
    lookup_all d keys = inr ticks
    /\ Forall2 (fun k t => dict_get d k = inr t) keys ticks.
Proof.
  induction keys as [|k keys IH]; intros H.
  - exists []. split; [reflexivity | constructor].
  - destruct (H k (or_introl eq_refl)) as [v Hv].
    destruct IH as (ticks & Hl & Hf); [intros; apply H; now right|].
    exists (v :: ticks). simpl. rewrite Hv. cbn [attempt_bind].
    rewrite Hl. split; [reflexivity | now constructor].
Qed.

(** The last value under a name is the value of a row when the rows with
    one name have one value. *)
Lemma last_value_consistent xv :
  forall xd i,
  (length xv <= length xd)%nat -> (i < length xv)%nat ->
  (forall a b, (a < length xv)%nat -> (b < length xv)%nat ->
     nth a xd String.EmptyString = nth b xd String.EmptyString ->
     nth a xv 0 = nth b xv 0) ->
  last_value xv xd (nth i xd String.EmptyString) = Some (nth i xv 0).
Proof.
  induction xv as [|v xv IH]; intros xd i Hlen Hi Hc; [simpl in Hi; lia|].
  destruct xd as [|s xd]; [simpl in Hlen; lia|].
  simpl in Hlen, Hi. cbn [last_value].
  destruct i as [|i].
  - cbn [nth].
    destruct (last_value xv xd s) as [w|] eqn:E.
    + (* a later row has the same name *)
      assert (Hex : exists b, (b < length xv)%nat
                              /\ nth b xd String.EmptyString = s
                              /\ nth b xv 0 = w).
      { clear - E Hlen. revert xd Hlen w E.
        induction xv as [|v' xv IH]; intros xd Hlen w E; [discriminate|].
        destruct xd as [|s' xd]; [discriminate|].
        cbn [last_value] in E. simpl in Hlen.
        destruct (last_value xv xd s) as [w'|] eqn:E'.
        - injection E as <-.
          destruct (IH xd ltac:(lia) w' E') as (b & Hb & H1 & H2).
          exists (S b). simpl. repeat split; auto. lia.
        - destruct (String.eqb_spec s s') as [->|Hne]; [|discriminate].
          injection E as <-. exists 0%nat. simpl. repeat split. lia. }
      destruct Hex as (b & Hb & H1 & H2).
      f_equal. rewrite <- H2.
      symmetry. apply (Hc 0%nat (S b)); simpl; try lia. now rewrite H1.
    + now rewrite String.eqb_refl.
  - cbn [nth]. rewrite (IH xd i); [reflexivity | lia | lia |].
    intros a b Ha Hb Hab. apply (Hc (S a) (S b)); simpl; auto; lia.
Qed.

End NameMap.

Import NameMap.

Lemma Forall2_nth_error_l {A B : Type} (P : A -> B -> Prop) l1 l2 :
  Forall2 P l1 l2 ->
  forall k a, nth_error l1 k = Some a ->
  exists b, nth_error l2 k = Some b /\ P a b.
Proof.
  induction 1 as [|x y l1 l2 Hxy H IH]; intros [|k] a Hk; simpl in *;
    try discriminate.
  - injection Hk as <-. now exists y.
  - now apply IH.
Qed.

(** X14.  In [dependence_plot] the ticks of a column that is displayed by
    strings carry each displayed name once, in the order in which the
    names first appear, and the tick of a name is put at the raw value of
    the last row that is displayed under this name; when the rows of one
    name have one raw value, every row lies at the tick of its name.  No
    lookup fails.  With fewer displayed rows than raw rows the filling of
    the dictionary stops with [IndexError], as does a column without
    rows.  The displayed strings are Python strings here (an array of
    dtype object); the entries of a numpy array of strings fail the test
    [type(xd[0]) == str], and for such a column no dictionary is made and
    no ticks are set. *)
Theorem dependence_ticks_take_the_last_value :
  forall (xv : list R) (names : list String.string),
  names <> [] ->
  ((length xv <= length names)%nat ->
   let xnames := first_appearances [] (firstn (length xv) names) in
   exists ticks,
     dependence_xticks xv (Strs names) = inr (Some (ticks, xnames))
     /\ NoDup xnames
     /\ (forall s, In s xnames <-> In s (firstn (length xv) names))
     /\ Forall2 (fun name t => last_value xv names name = Some t)
                xnames ticks
     /\ ((forall a b, (a < length xv)%nat -> (b < length xv)%nat ->
            nth a names String.EmptyString = nth b names String.EmptyString ->
            nth a xv 0 = nth b xv 0) ->
         forall i, (i < length xv)%nat ->
         exists k, nth_error xnames k = Some (nth i names String.EmptyString)
                   /\ nth_error ticks k = Some (nth i xv 0)))
  /\ ((length names < length xv)%nat ->
      dependence_xticks xv (Strs names) = inl (Builtin IndexError))
  /\ dependence_xticks xv (Strs []) = inl (Builtin IndexError)
  /\ dependence_xticks xv (NpStrs names) = inr None.
Proof.
  intros xv names Hne.
  split; [|split; [|split]];
    [| |reflexivity|destruct names; [contradiction | reflexivity]].
  - intros Hlen. cbv zeta.
    destruct (fill_spec xv names [] Hlen) as (d' & Hf & Hk & Hg).
    cbn [dict_keys map app] in Hk.
    destruct (first_appearances_NoDup (firstn (length xv) names) [])
      as [Hnd Hin].
    destruct (lookup_all_Forall2 d' (dict_keys d')) as (ticks & Hl & Hall).
    { intros k. apply dict_get_present. }
    exists ticks.
    assert (Hlast : Forall2 (fun name t => last_value xv names name = Some t)
                      (first_appearances [] (firstn (length xv) names))
                      ticks).
    { rewrite <- Hk. eapply Forall2_impl; [|exact Hall].
      intros k t Ht. cbv beta in Ht. rewrite Hg in Ht.
      destruct (last_value xv names k); [congruence | discriminate]. }
    split.
    { destruct names as [|n names]; [contradiction|].
      unfold dependence_xticks. rewrite name_map_of_fill, Hf.
      cbn [attempt_bind]. rewrite Hl. cbn [attempt_bind]. now rewrite Hk. }
    split; [exact Hnd|].
    split; [intros s; rewrite Hin; simpl; tauto|].
    split; [exact Hlast|].
    intros Hc i Hi.
    assert (Hmem : In (nth i names String.EmptyString)
                      (first_appearances [] (firstn (length xv) names))).
    { apply Hin. split; [|intros []].
      rewrite <- (firstn_skipn (length xv) names) at 1.
      rewrite app_nth1 by (rewrite length_firstn; lia).
      apply nth_In. rewrite length_firstn. lia. }
    destruct (In_nth_error _ _ Hmem) as [k Hk'].
    exists k. split; [exact Hk'|].
    destruct (Forall2_nth_error_l _ _ _ Hlast k _ Hk') as (t & Ht & Hv).
    rewrite (last_value_consistent xv names i Hlen Hi Hc) in Hv.
    injection Hv as <-. exact Ht.
  - intros Hlen. destruct names as [|n names]; [contradiction|].
    unfold dependence_xticks. rewrite name_map_of_fill.
    now rewrite (fill_short xv (n :: names) [] Hlen).
Qed.

Local Open Scope string_scope.

(** Three rows displayed as low, high, low with the raw values 1, 7, 2:
    the tick of low is at 2. *)
Lemma dependence_ticks_take_the_last_value_witness :
  ["low"; "high"; "low"] <> []
  /\ (length [1; 7; 2] <= length ["low"; "high"; "low"])%nat
  /\ dependence_xticks [1; 7; 2] (Strs ["low"; "high"; "low"])
     = inr (Some ([2; 7], ["low"; "high"]))
  /\ (length ["low"] < length [1; 7; 2])%nat
  /\ dependence_xticks [1; 7; 2] (Strs ["low"])
     = inl (Builtin IndexError).
Proof.
  assert (H1 : ["low"; "high"; "low"] <> []) by discriminate.
  assert (H2 : (length [1; 7; 2] <= length ["low"; "high"; "low"])%nat)
    by (simpl; lia).
  assert (H3 : ["low"] <> []) by discriminate.
  assert (H4 : (length ["low"] < length [1; 7; 2])%nat) by (simpl; lia).
  split; [exact H1|]. split; [exact H2|]. split.
  - destruct (proj1 (dependence_ticks_take_the_last_value [1; 7; 2]
                       ["low"; "high"; "low"] H1) H2)
      as (ticks & Hd & _ & _ & Hall & _).
    rewrite Hd. cbv zeta in Hall. cbn in Hall.
    inversion Hall as [|? t1 ? l1 Ht1 Hall1]; subst.
    inversion Hall1 as [|? t2 ? l2 Ht2 Hall2]; subst.
    inversion Hall2; subst.
    cbn in Ht1, Ht2. injection Ht1 as <-. injection Ht2 as <-.
    reflexivity.
  - split; [exact H4|].
    exact (proj1 (proj2 (dependence_ticks_take_the_last_value [1; 7; 2]
                           ["low"] H3)) H4).
Defined.

Local Close Scope string_scope.

(** ** visualize *)

Module VisFacts.

Import Vis.

Lemma sum_removelast l :
  l <> [] -> sum l = last l 0 + sum (removelast l).
Proof.
  induction l as [|x [|y l] IH]; intros Hl; [congruence| |].
  - simpl. lra.
  - change (sum (x :: y :: l)) with (x + sum (y :: l)).
    change (last (x :: y :: l) 0) with (last (y :: l) 0).
    change (removelast (x :: y :: l)) with (x :: removelast (y :: l)).
    change (sum (x :: removelast (y :: l)))
      with (x + sum (removelast (y :: l))).
    rewrite IH by discriminate. lra.
Qed.

Lemma row_length a i : length (row a i) = shape1 a.
Proof. unfold row. now rewrite length_map, length_seq. Qed.

Lemma last_row a i c :
  shape1 a = S c -> last (row a i) 0 = item a i c.
Proof.
  intros Hc. unfold row. rewrite Hc, seq_S, map_app. simpl.
  now rewrite last_last.
Qed.

Lemma length_removelast {A : Type} (l : list A) :
  length (removelast l) = (length l - 1)%nat.
Proof.
  induction l as [|x [|y l] IH]; [reflexivity..|].
  change (removelast (x :: y :: l)) with (x :: removelast (y :: l)).
  cbn [length] in *. rewrite IH. lia.
Qed.

(** What [explain] returns. *)
Lemma explain_inv a i f names display outs e :
  explain a i f names display outs = Ok e ->
  exists c, shape1 a = S c
  /\ e = mk_explanation (item a i c) (sum (row a i)) (removelast (row a i))
                        f (length names) display outs names.
Proof.
  unfold explain, last_entry.
  destruct (shape1 a) as [|c] eqn:Hc; simpl; [discriminate|].
  intros H. injection H as <-. now exists c.
Qed.

Lemma explain_ok a i f names display outs c :
  shape1 a = S c ->
  explain a i f names display outs
  = Ok (mk_explanation (item a i c) (sum (row a i)) (removelast (row a i))
                       f (length names) display outs names).
Proof. intros Hc. unfold explain, last_entry. now rewrite Hc. Qed.

Lemma explain_raise a i f names display outs :
  shape1 a = 0%nat ->
  explain a i f names display outs = Raise IndexError.
Proof. intros Hc. unfold explain, last_entry. now rewrite Hc. Qed.

Lemma explain_additive a i f names display outs e :
  explain a i f names display outs = Ok e ->
  out_value e = base_value e + sum (effects e)
  /\ S (length (effects e)) = shape1 a.
Proof.
  intros H. destruct (explain_inv _ _ _ _ _ _ _ H) as (c & Hc & ->).
  cbn [out_value base_value effects]. split.
  - rewrite <- (last_row a i c Hc). apply sum_removelast.
    intros E. apply (f_equal (@length R)) in E.
    rewrite row_length, Hc in E. discriminate.
  - rewrite length_removelast, row_length, Hc. lia.
Qed.

(** [visualize] on an array, once the features are converted. *)
Lemma visualize_array s features fn outs data c names :
  s <> SOther ->
  convert (with_data features data) fn = Ok (c, names) ->
  visualize s features fn outs data
  = let a := array_of s in
    let outs := or_default outs in
    let names := default_names names a in
    if (shape0 a =? 1)%nat then
      e <- explain a 0 0 names (display_flat c names) outs ;; Ok (One e)
    else
      es <- for_each (fun i =>
                        display <- display_row c names i ;;
                        explain a i 1 names display outs)
                     (seq 0 (shape0 a)) ;;
      Ok (Many es).
Proof.
  intros Hs Hc. unfold visualize. rewrite Hc.
  destruct s; [congruence | reflexivity | reflexivity].
Qed.

Lemma display_row_raise c names i x :
  display_row c names i = Raise x -> x = IndexError.
Proof.
  destruct c as [|vs|t]; simpl; [discriminate | congruence|].
  destruct (i <? crows t)%nat; [discriminate | congruence].
Qed.

(** Without a last column no row can be explained. *)
Lemma body_raise a c names outs i :
  shape1 a = 0%nat ->
  (display <- display_row c names i ;; explain a i 1 names display outs)
  = Raise IndexError.
Proof.
  intros Hk. destruct (display_row c names i) as [d|x] eqn:Hd; simpl.
  - now apply explain_raise.
  - now rewrite (display_row_raise _ _ _ _ Hd).
Qed.

Lemma explain_raise_inv a i f names display outs x :
  explain a i f names display outs = Raise x -> x = IndexError.
Proof.
  unfold explain, last_entry. destruct (shape1 a); simpl; congruence.
Qed.

(** Once the features are converted, the only exception is IndexError. *)
Lemma visualize_raise s features fn outs data c names x :
  s <> SOther ->
  convert (with_data features data) fn = Ok (c, names) ->
  visualize s features fn outs data = Raise x -> x = IndexError.
Proof.
  intros Hs Hc. rewrite (visualize_array _ _ _ _ _ c names Hs Hc).
  cbv zeta. destruct (shape0 (array_of s) =? 1)%nat.
  - destruct (explain _ 0 0 _ _ _) as [e|y] eqn:He; simpl; [discriminate|].
    intros H. injection H as <-. exact (explain_raise_inv _ _ _ _ _ _ _ He).
  - destruct (for_each _ _) as [es|y] eqn:Hes; simpl; [discriminate|].
    intros H. injection H as <-.
    destruct (for_each_raise_inv _ _ _ Hes) as (i & _ & Hi).
    destruct (display_row c _ i) as [d|z] eqn:Hd; simpl in Hi.
    + exact (explain_raise_inv _ _ _ _ _ _ _ Hi).
    + injection Hi as <-. exact (display_row_raise _ _ _ _ Hd).
Qed.

End VisFacts.

Import Vis VisFacts.

(** X15 (visualize, lines 350-360 and 373-383).  Every explanation that
    [visualize] builds is additive: its output value is its base value,
    taken from the last column of the row, plus the sum of its effects,
    which are the other columns; so there is one effect less than the
    array has columns. *)
Theorem explanations_are_additive
  (s : shap_arg) (features : vfeatures) (fn : option (list cell))
  (outs : option (list String.string)) (data : vfeatures)
  (v : visualized) (e : explanation) :
  visualize s features fn outs data = Ok v ->
  In e (explanations v) ->
  out_value e = base_value e + sum (effects e)
  /\ S (length (effects e)) = shape1 (array_of s)
  /\ groups e = length (group_names e).
Proof.
  intros Hv He.
  assert (Hs : s <> SOther).
  { intros ->. simpl in Hv. injection Hv as <-. destruct He. }
  destruct (convert (with_data features data) fn) as [[c names]|x] eqn:Hc.
  2:{ unfold visualize in Hv. rewrite Hc in Hv. now destruct s. }
  rewrite (visualize_array _ _ _ _ _ c names Hs Hc) in Hv.
  cbv zeta in Hv. set (a := array_of s) in *.
  assert (Hrow : forall i f d e',
             explain a i f (default_names names a) d (or_default outs)
             = Ok e' ->
             out_value e' = base_value e' + sum (effects e')
             /\ S (length (effects e')) = shape1 a
             /\ groups e' = length (group_names e')).
  { intros i f d e' H.
    destruct (explain_additive _ _ _ _ _ _ _ H) as [H1 H2].
    destruct (explain_inv _ _ _ _ _ _ _ H) as (k & _ & E).
    repeat split; auto. now rewrite E. }
  destruct (shape0 a =? 1)%nat.
  - destruct (explain a 0 0 _ _ _) as [e0|x] eqn:H0; [|discriminate].
    simpl in Hv. injection Hv as <-. destruct He as [<-|[]].
    exact (Hrow _ _ _ _ H0).
  - destruct (for_each _ _) as [es|x] eqn:Hes; [|discriminate].
    simpl in Hv. injection Hv as <-. simpl in He.
    destruct (In_nth_error _ _ He) as [k Hk].
    destruct (for_each_nth_inv _ _ _ _ _ Hes Hk) as (i & _ & Hi).
    destruct (display_row c _ i) as [d|x] eqn:Hd; [|discriminate].
    exact (Hrow _ _ _ _ Hi).
Qed.

(** Two samples with the names given as a vector: the explanation of the
    second sample. *)
Lemma explanations_are_additive_witness :
  visualize (SMatrix two_rows) (VVector age_sex) None None VNone
  = Ok (Many [mk_explanation (INR 2) (INR 0 + (INR 1 + (INR 2 + 0)))
                             [INR 0; INR 1] 1 2 [blank; blank]
                             (or_default None) age_sex;
              mk_explanation (INR 3) (INR 1 + (INR 2 + (INR 3 + 0)))
                             [INR 1; INR 2] 1 2 [blank; blank]
                             (or_default None) age_sex])
  /\ INR 1 + (INR 2 + (INR 3 + 0)) = INR 3 + sum [INR 1; INR 2]
  /\ 3%nat = shape1 two_rows.
Proof.
  assert (Hv : visualize (SMatrix two_rows) (VVector age_sex) None None VNone
               = Ok (Many [mk_explanation (INR 2)
                             (INR 0 + (INR 1 + (INR 2 + 0)))
                             [INR 0; INR 1] 1 2 [blank; blank]
                             (or_default None) age_sex;
                           mk_explanation (INR 3)
                             (INR 1 + (INR 2 + (INR 3 + 0)))
                             [INR 1; INR 2] 1 2 [blank; blank]
                             (or_default None) age_sex]))
    by reflexivity.
  split; [exact Hv|].
  destruct (explanations_are_additive _ _ _ _ _ _
              (mk_explanation (INR 3) (INR 1 + (INR 2 + (INR 3 + 0)))
                              [INR 1; INR 2] 1 2 [blank; blank]
                              (or_default None) age_sex) Hv)
    as (H1 & H2 & _).
  - right. now left.
  - split; [exact H1 | exact H2].
Defined.

(** X16 (visualize, lines 336-385).  For a matrix of SHAP values and
    features that lines 320-334 accept, [visualize] returns exactly when the
    matrix has no row, or has a last column and either one row or features
    with a row for each of its rows; the only exception then is IndexError.
    A matrix of one row gives a single explanation, filled with zeros; any
    other number of rows gives a list with one explanation per row, in the
    order of the rows and filled with ones.  The number of feature columns
    and of names is not compared with the number of effects. *)
Theorem visualize_returns_one_explanation_per_row
  (a : ndarray) (features : vfeatures) (fn : option (list cell))
  (outs : option (list String.string)) (data : vfeatures)
  (c : converted) (names : option (list cell)) :
  convert (with_data features data) fn = Ok (c, names) ->
  ((exists v, visualize (SMatrix a) features fn outs data = Ok v)
   <-> (shape0 a = 0%nat
        \/ ((0 < shape1 a)%nat
            /\ (shape0 a = 1%nat \/ rows_shown c (shape0 a)))))
  /\ (forall v, visualize (SMatrix a) features fn outs data = Ok v ->
      if (shape0 a =? 1)%nat
      then exists e, v = One e
                     /\ base_value e = item a 0 (shape1 a - 1)
                     /\ effects e = removelast (row a 0)
                     /\ fill e = 0
      else exists es, v = Many es
                      /\ length es = shape0 a
                      /\ forall i e, nth_error es i = Some e ->
                           base_value e = item a i (shape1 a - 1)
                           /\ effects e = removelast (row a i)
                           /\ fill e = 1)
  /\ ((forall v, visualize (SMatrix a) features fn outs data <> Ok v) ->
      visualize (SMatrix a) features fn outs data = Raise IndexError).
Proof.
  intros Hc.
  rewrite (visualize_array (SMatrix a) _ _ _ _ c names) by (congruence || auto).
  cbv zeta. cbn [array_of].
  set (nm := default_names names a). set (os := or_default outs).
  destruct (shape1 a) as [|k] eqn:Hk.
  - (* no column *)
    destruct (shape0 a =? 1)%nat eqn:H1.
    + apply Nat.eqb_eq in H1. rewrite explain_raise by exact Hk. simpl.
      split; [|split].
      * split; [intros [v Hv]; discriminate|].
        intros [H0|[H0 _]]; lia.
      * intros v Hv. discriminate.
      * reflexivity.
    + apply Nat.eqb_neq in H1.
      destruct (shape0 a) as [|n] eqn:Hn.
      * simpl. split; [|split].
        -- split; [now left | intros _; now eexists].
        -- intros v Hv. injection Hv as <-. exists []. split; [reflexivity|].
           split; [reflexivity|]. intros [|i] e He; discriminate.
        -- intros H. now destruct (H (Many [])).
      * assert (E : for_each (fun i => display <- display_row c nm i ;;
                                       explain a i 1 nm display os)
                             (seq 0 (S n)) = Raise IndexError).
        { apply for_each_raise with (a := 0%nat).
          - simpl. now left.
          - now apply body_raise.
          - intros i _. left. now apply body_raise. }
        rewrite E. simpl. split; [|split].
        -- split; [intros [v Hv]; discriminate|].
           intros [H0|[H0 _]]; [discriminate | lia].
        -- intros v Hv. discriminate.
        -- reflexivity.
  - (* a last column, [k] *)
    replace (S k - 1)%nat with k by lia.
    destruct (shape0 a =? 1)%nat eqn:H1.
    + apply Nat.eqb_eq in H1.
      rewrite (explain_ok _ _ _ _ _ _ k Hk). simpl. split; [|split].
      * split; [intros _; right; split; [lia | now left]
               | intros _; now eexists].
      * intros v Hv. injection Hv as <-. eexists. split; [reflexivity|].
        now repeat split.
      * intros H. now destruct (H (One (mk_explanation (item a 0 k)
                                  (sum (row a 0)) (removelast (row a 0)) 0
                                  (length nm) (display_flat c nm) os nm))).
    + apply Nat.eqb_neq in H1.
      destruct (for_each _ (seq 0 (shape0 a))) as [es|x] eqn:Hes; simpl.
      * split; [|split].
        -- split; [|intros _; now eexists]. intros _.
           destruct (shape0 a) as [|n] eqn:Hn; [now left|].
           right. split; [lia|]. right.
           destruct c as [|vs|t]; simpl.
           ++ exact I.
           ++ destruct (for_each_nth _ _ _ 0%nat 0%nat Hes eq_refl)
                as (e & _ & He). simpl in He. discriminate.
           ++ destruct (for_each_nth _ _ _ n n Hes) as (e & _ & He).
              { rewrite nth_error_nth' with (d := 0%nat)
                  by (rewrite length_seq; lia).
                now rewrite seq_nth by lia. }
              simpl in He. destruct (n <? crows t)%nat eqn:Hlt;
                [|discriminate].
              apply Nat.ltb_lt in Hlt. lia.
        -- intros v Hv. injection Hv as <-. exists es.
           split; [reflexivity|]. split.
           { rewrite (for_each_length _ _ _ Hes). apply length_seq. }
           intros i e He.
           destruct (for_each_nth_inv _ _ _ _ _ Hes He) as (j & Hj & Hi).
           assert (j = i).
           { assert (Hlt : (i < length (seq 0 (shape0 a)))%nat).
             { apply nth_error_Some. congruence. }
             rewrite nth_error_nth' with (d := 0%nat) in Hj by exact Hlt.
             rewrite length_seq in Hlt. rewrite seq_nth in Hj by exact Hlt.
             injection Hj as <-. reflexivity. }
           subst j.
           destruct (display_row c nm i) as [d|x]; [|discriminate].
           simpl in Hi. rewrite (explain_ok _ _ _ _ _ _ k Hk) in Hi.
           injection Hi as <-. now repeat split.
        -- intros H. now destruct (H (Many es)).
      * destruct (for_each_raise_inv _ _ _ Hes) as (i & Hi & Hx).
        apply in_seq in Hi.
        destruct (display_row c nm i) as [d|y] eqn:Hd; simpl in Hx.
        { rewrite (explain_ok _ _ _ _ _ _ k Hk) in Hx. discriminate. }
        injection Hx as ->.
        assert (x = IndexError /\ ~ rows_shown c (shape0 a)) as [-> Hno].
        { unfold display_row in Hd. destruct c as [|vs|t]; simpl.
          - discriminate.
          - split; [congruence | tauto].
          - destruct (i <? crows t)%nat eqn:Hlt; [discriminate|].
            apply Nat.ltb_ge in Hlt. split; [congruence | lia]. }
        split; [|split].
        -- split; [intros [v Hv]; discriminate|].
           intros [H0|[_ [H0|H0]]]; [lia | congruence | contradiction].
        -- intros v Hv. discriminate.
        -- reflexivity.
Qed.

(** Two samples, feature values of three samples and two names. *)
Lemma visualize_returns_one_explanation_per_row_witness :
  convert (with_data (VMatrix three_samples) VNone) (Some age_sex)
  = Ok (CMatrix three_samples, Some age_sex)
  /\ (exists v, visualize (SMatrix two_rows) (VMatrix three_samples)
                          (Some age_sex) None VNone = Ok v)
  /\ visualize (SMatrix no_columns) (VMatrix three_samples)
               (Some age_sex) None VNone = Raise IndexError.
Proof.
  assert (Hc : convert (with_data (VMatrix three_samples) VNone)
                       (Some age_sex)
               = Ok (CMatrix three_samples, Some age_sex)) by reflexivity.
  split; [exact Hc|]. split.
  - apply (proj1 (visualize_returns_one_explanation_per_row
                    two_rows _ _ None _ _ _ Hc)).
    right. split; [simpl; lia|]. right. simpl. lia.
  - apply (proj2 (proj2 (visualize_returns_one_explanation_per_row
                           no_columns _ _ None _ _ _ Hc))).
    intros v Hv.
    apply (ex_intro (fun v => _ = Ok v) v) in Hv.
    apply (proj1 (visualize_returns_one_explanation_per_row
                    no_columns _ _ None _ _ _ Hc)) in Hv.
    simpl in Hv. lia.
Defined.

(** X17 (visualize, lines 311-334).  SHAP values that are no numpy array
    are handed to [iml.visualize] whatever the other arguments are.  For an
    array, [visualize] raises AttributeError exactly when the features, or
    [data] in their place, are [None] or a Python list: the test of line 328
    never holds, so a list reaches [features.shape] as [None] does.  In
    particular the default [features=None] fails. *)
Theorem visualize_needs_features_with_a_shape
  (s : shap_arg) (features : vfeatures) (fn : option (list cell))
  (outs : option (list String.string)) (data : vfeatures) :
  visualize SOther features fn outs data = Ok Delegated
  /\ (s <> SOther ->
      (visualize s features fn outs data = Raise AttributeError
       <-> (with_data features data = VNone
            \/ exists items, with_data features data = VList items))
      /\ visualize s VNone fn outs VNone = Raise AttributeError).
Proof.
  split; [reflexivity|]. intros Hs. split.
  - split.
    + intros H.
      destruct (convert (with_data features data) fn) as [[c names]|x] eqn:Hc.
      * pose proof (visualize_raise _ _ _ _ _ _ _ _ Hs Hc H). discriminate.
      * destruct (with_data features data) as [| | |items|vs|t];
          try (now left); try (right; now eexists); try discriminate.
        simpl in Hc. destruct fn; discriminate.
    + intros Hf. unfold visualize.
      destruct Hf as [->|[items ->]]; now destruct s.
  - now destruct s.
Qed.

(** A row of SHAP values without features, and with a list in [data]. *)
Lemma visualize_needs_features_with_a_shape_witness :
  SVector [1; 2; 3] <> SOther
  /\ visualize (SVector [1; 2; 3]) VNone None None VNone
     = Raise AttributeError
  /\ visualize (SVector [1; 2; 3]) VNone None None (VList age_sex)
     = Raise AttributeError.
Proof.
  assert (Hs : SVector [1; 2; 3] <> SOther) by discriminate.
  split; [exact Hs|]. split.
  - exact (proj2 (proj2 (visualize_needs_features_with_a_shape
                           _ VNone None None VNone) Hs)).
  - apply (proj1 (proj2 (visualize_needs_features_with_a_shape
                           _ VNone None None (VList age_sex)) Hs)).
    right. now exists age_sex.
Defined.

(** X18 (visualize, lines 332-334, 345-348 and 368-371).  A vector of
    features given without names is taken for the names: every explanation
    is labelled with it and displays empty strings in place of values.  With
    names, or as a pandas Series, the vector stays the features and can
    only be shown for a single row of SHAP values: with two rows or more,
    [features[i,:]] raises IndexError. *)
Theorem feature_vector_without_names_becomes_the_names
  (a : ndarray) (values : list cell) (outs : option (list String.string)) :
  (forall v e,
      visualize (SMatrix a) (VVector values) None outs VNone = Ok v ->
      In e (explanations v) ->
      group_names e = values
      /\ group_display_values e = repeat blank (length values))
  /\ (forall names v,
        shape0 a = 1%nat ->
        visualize (SMatrix a) (VVector values) (Some names) outs VNone
        = Ok v ->
        exists e, v = One e /\ group_names e = names
                  /\ group_display_values e = values)
  /\ (forall names index fn,
        (2 <= shape0 a)%nat ->
        visualize (SMatrix a) (VVector values) (Some names) outs VNone
        = Raise IndexError
        /\ visualize (SMatrix a) (VSeries index values) fn outs VNone
           = Raise IndexError).
Proof.
  split; [|split].
  - intros v e.
    rewrite (visualize_array (SMatrix a) _ _ _ _ CNone (Some values))
      by (congruence || auto).
    cbv zeta. cbn [array_of default_names display_flat display_row].
    destruct (shape0 a =? 1)%nat.
    + destruct (explain a 0 0 _ _ _) as [e0|x] eqn:H0; [|discriminate].
      simpl. intros Hv He. injection Hv as <-. destruct He as [<-|[]].
      destruct (explain_inv _ _ _ _ _ _ _ H0) as (k & _ & ->). now split.
    + destruct (for_each _ _) as [es|x] eqn:Hes; [|discriminate].
      simpl. intros Hv He. injection Hv as <-. simpl in He.
      destruct (In_nth_error _ _ He) as [k Hk].
      destruct (for_each_nth_inv _ _ _ _ _ Hes Hk) as (i & _ & Hi).
      simpl in Hi.
      destruct (explain_inv _ _ _ _ _ _ _ Hi) as (k' & _ & ->). now split.
  - intros names v H1.
    rewrite (visualize_array (SMatrix a) _ _ _ _ (CVector values)
               (Some names)) by (congruence || auto).
    cbv zeta. cbn [array_of default_names display_flat].
    rewrite H1. simpl.
    destruct (explain a 0 0 _ _ _) as [e0|x] eqn:H0; [|discriminate].
    simpl. intros Hv. injection Hv as <-. exists e0.
    destruct (explain_inv _ _ _ _ _ _ _ H0) as (k & _ & ->). now repeat split.
  - intros names index fn H2.
    assert (E : forall nm os,
               (if (shape0 a =? 1)%nat
                then e <- explain a 0 0 nm (display_flat (CVector values) nm)
                                  os ;; Ok (One e)
                else es <- for_each
                             (fun i =>
                                display <- display_row (CVector values) nm i ;;
                                explain a i 1 nm display os)
                             (seq 0 (shape0 a)) ;; Ok (Many es))
               = Raise IndexError).
    { intros nm os.
      destruct (shape0 a) as [|[|n]] eqn:Hn; [lia | lia |].
      reflexivity. }
    split.
    + rewrite (visualize_array (SMatrix a) _ _ _ _ (CVector values)
                 (Some names)) by (congruence || auto).
      apply E.
    + rewrite (visualize_array (SMatrix a) _ _ _ _ (CVector values)
                 (or_names fn index)) by (congruence || auto).
      apply E.
Qed.

(** Two names given as the features of two samples, and the same vector
    given with names. *)
Lemma feature_vector_without_names_becomes_the_names_witness :
  (2 <= shape0 two_rows)%nat
  /\ visualize (SMatrix two_rows) (VVector age_sex) (Some age_sex) None VNone
     = Raise IndexError
  /\ shape0 one_row = 1%nat
  /\ exists e, visualize (SMatrix one_row) (VVector age_sex) (Some age_sex)
                         None VNone = Ok (One e)
               /\ group_display_values e = age_sex.
Proof.
  assert (H2 : (2 <= shape0 two_rows)%nat) by (simpl; lia).
  assert (H1 : shape0 one_row = 1%nat) by reflexivity.
  split; [exact H2|]. split.
  - exact (proj1 (proj2 (proj2
             (feature_vector_without_names_becomes_the_names
                two_rows age_sex None)) age_sex [] None H2)).
  - split; [exact H1|].
    destruct (proj1 (proj2 (feature_vector_without_names_becomes_the_names
                              one_row age_sex None)) age_sex _ H1 eq_refl)
      as (e & He & _ & Hd).
    exists e. split; [now rewrite <- He | exact Hd].
Defined.

(** ** summary_plot: the dots of one row *)

Module DotFacts.

Import Dots.

Lemma Reqb_true x y : Reqb x y = true <-> x = y.
Proof. unfold Reqb. destruct (Req_dec_T x y); split; congruence. Qed.

Lemma Reqb_false x y : Reqb x y = false <-> x <> y.
Proof. unfold Reqb. destruct (Req_dec_T x y); split; congruence. Qed.

(** *** np.min, np.max *)

Lemma fold_Rmax_ge l : forall x, x <= fold_left Rmax l x.
Proof.
  induction l as [|y l IH]; intros x; simpl; [lra|].
  eapply Rle_trans; [apply Rmax_l | apply IH].
Qed.

Lemma fold_Rmax_all l :
  forall x y, In y l -> y <= fold_left Rmax l x.
Proof.
  induction l as [|z l IH]; intros x y Hy; simpl; [destruct Hy|].
  destruct Hy as [->|Hy]; [|now apply IH].
  eapply Rle_trans; [apply Rmax_r | apply fold_Rmax_ge].
Qed.

Lemma fold_Rmax_In l : forall x, In (fold_left Rmax l x) (x :: l).
Proof.
  induction l as [|y l IH]; intros x; simpl; [now left|].
  destruct (IH (Rmax x y)) as [H|H]; [|now right; right].
  rewrite <- H. unfold Rmax. destruct (Rle_dec x y); auto.
Qed.

Lemma fold_Rmin_le l : forall x, fold_left Rmin l x <= x.
Proof.
  induction l as [|y l IH]; intros x; simpl; [lra|].
  eapply Rle_trans; [apply IH | apply Rmin_l].
Qed.

Lemma fold_Rmin_all l :
  forall x y, In y l -> fold_left Rmin l x <= y.
Proof.
  induction l as [|z l IH]; intros x y Hy; simpl; [destruct Hy|].
  destruct Hy as [->|Hy]; [|now apply IH].
  eapply Rle_trans; [apply fold_Rmin_le | apply Rmin_r].
Qed.

Lemma amax_spec l m :
  amax l = Ok m -> In m l /\ forall y, In y l -> y <= m.
Proof.
  destruct l as [|x l]; simpl; [discriminate|].
  intros H. injection H as <-. split; [apply fold_Rmax_In|].
  intros y [<-|Hy]; [apply fold_Rmax_ge | now apply fold_Rmax_all].
Qed.

Lemma amin_spec l m :
  amin l = Ok m -> forall y, In y l -> m <= y.
Proof.
  destruct l as [|x l]; simpl; [discriminate|].
  intros H. injection H as <-.
  intros y [<-|Hy]; [apply fold_Rmin_le | now apply fold_Rmin_all].
Qed.

(** *** The bins *)

Lemma round_bounds x (lo hi : Z) :
  IZR lo <= x -> x < IZR hi ->
  exists z, round x = IZR z /\ (lo <= z <= hi)%Z.
Proof.
  intros Hlo Hhi. destruct (base_Int_part x) as [H1 H2].
  assert (Hf : (lo <= Int_part x < hi)%Z).
  { split.
    - apply Z.lt_succ_r. apply lt_IZR. rewrite succ_IZR. lra.
    - apply lt_IZR. lra. }
  unfold round.
  destruct (Rltb _ _); [eexists; split; [reflexivity | lia]|].
  destruct (Rltb _ _); [eexists; split; [reflexivity | lia]|].
  destruct (Z.even _); eexists; split; try reflexivity; lia.
Qed.

(** Every bin is a whole number from 0 to 100. *)
Lemma quantize_spec shaps quant :
  quantize shaps = Ok quant ->
  length quant = length shaps
  /\ forall q, In q quant -> exists z, q = IZR z /\ (0 <= z <= 100)%Z.
Proof.
  unfold quantize.
  destruct (amax shaps) as [mx|e] eqn:Hmx; simpl; [|discriminate].
  destruct (amin shaps) as [mn|e] eqn:Hmn; simpl; [|discriminate].
  intros H. injection H as <-. split; [apply length_map|].
  intros q Hq. apply in_map_iff in Hq. destruct Hq as (s & <- & Hs).
  pose proof (proj2 (amax_spec _ _ Hmx) s Hs) as H1.
  pose proof (amin_spec _ _ Hmn s Hs) as H2.
  pose proof eps_pos as He.
  apply round_bounds; unfold nbins.
  - apply Rmult_le_pos; [nra|].
    apply Rlt_le, Rinv_0_lt_compat. lra.
  - apply Rmult_lt_reg_r with (r := mx - mn + eps); [lra|].
    unfold Rdiv. rewrite Rmult_assoc, Rinv_l by lra. nra.
Qed.

Lemma quantize_nil : quantize [] = Raise ValueError.
Proof. reflexivity. Qed.

Lemma quantize_ok shaps :
  shaps <> [] -> exists quant, quantize shaps = Ok quant.
Proof.
  destruct shaps as [|s shaps]; [congruence|]. intros _.
  unfold quantize. simpl. now eexists.
Qed.

(** *** The offsets of the layers: 0, 1, -2, 3, -4, ... *)

Lemma layer_offset_cases l :
  (Nat.even l = true /\ layer_offset l = - INR l)
  \/ (Nat.odd l = true /\ layer_offset l = INR l).
Proof.
  unfold layer_offset.
  destruct (Nat.even l) eqn:E.
  - left. split; [reflexivity|].
    apply Nat.even_spec in E. destruct E as [k ->].
    replace (2 * k mod 2)%nat with 0%nat
      by (symmetry; rewrite Nat.mul_comm; apply Nat.Div0.mod_mul).
    simpl. lra.
  - right. assert (O : Nat.odd l = true)
      by (unfold Nat.odd; now rewrite E).
    split; [exact O|].
    apply Nat.odd_spec in O. destruct O as [k ->].
    replace ((2 * k + 1) mod 2)%nat with 1%nat.
    + simpl. lra.
    + symmetry. rewrite Nat.add_comm, Nat.mul_comm.
      rewrite Nat.Div0.mod_add. reflexivity.
Qed.

Lemma layer_offset_abs l : Rabs (layer_offset l) = INR l.
Proof.
  pose proof (pos_INR l) as Hl.
  destruct (layer_offset_cases l) as [[_ ->]|[_ ->]].
  - rewrite Rabs_Ropp. now apply Rabs_pos_eq.
  - now apply Rabs_pos_eq.
Qed.

Lemma layer_offset_inj a b : layer_offset a = layer_offset b -> a = b.
Proof.
  intros H. apply INR_eq. rewrite <- !layer_offset_abs. now rewrite H.
Qed.

Lemma layer_offset_0 : layer_offset 0 = 0.
Proof. unfold layer_offset. simpl. lra. Qed.


(** A layer other than 0 is positive or comes after a positive one. *)
Lemma layer_offset_succ l :
  (layer_offset (S l) = INR (S l))
  \/ (layer_offset (S l) = - INR (S l) /\ layer_offset l = INR l
      /\ (1 <= l)%nat).
Proof.
  destruct (layer_offset_cases (S l)) as [[E H]|[_ H]]; [|now left].
  right. split; [exact H|].
  rewrite Nat.even_succ in E.
  destruct (layer_offset_cases l) as [[E' _]|[_ H']].
  - rewrite <- Nat.negb_odd in E'. rewrite E in E'. discriminate.
  - split; [exact H'|]. destruct l; [discriminate | lia].
Qed.

(** *** The loop *)

Lemma setitem_ok ys ind v :
  (ind < length ys)%nat ->
  exists ys', setitem ys ind v = Ok ys'
              /\ length ys' = length ys
              /\ nth ind ys' 0 = v
              /\ forall j, j <> ind -> nth j ys' 0 = nth j ys 0.
Proof.
  intros H. unfold setitem.
  destruct (ind <? length ys)%nat eqn:E; [|apply Nat.ltb_ge in E; lia].
  eexists. split; [reflexivity|].
  assert (Hf : length (firstn ind ys) = ind)
    by (rewrite length_firstn; lia).
  split; [|split].
  - rewrite length_app, Hf. cbn [length]. rewrite length_skipn. lia.
  - rewrite app_nth2 by lia. rewrite Hf, Nat.sub_diag. reflexivity.
  - intros j Hj. destruct (Nat.lt_ge_cases j ind) as [Hlt|Hge].
    + rewrite app_nth1 by lia. rewrite nth_firstn.
      now rewrite (proj2 (Nat.ltb_lt _ _) Hlt).
    + rewrite app_nth2 by lia. rewrite Hf.
      destruct (j - ind)%nat as [|k] eqn:Hk; [lia|]. cbn [nth].
      rewrite nth_skipn. f_equal. lia.
Qed.

(** The loop writes the offset of the layer of each turn, and nothing
    else. *)
Lemma dot_loop_spec quant inds :
  forall st,
  (forall i, In i inds -> (i < length quant)%nat /\ (i < length (ys st))%nat) ->
  NoDup inds ->
  exists st',
    dot_loop quant st inds = Ok st'
    /\ length (ys st') = length (ys st)
    /\ (forall j, ~ In j inds -> nth j (ys st') 0 = nth j (ys st) 0)
    /\ (forall p, (p < length inds)%nat ->
        nth (nth p inds 0%nat) (ys st') 0
        = layer_offset
            (nth p (layers_from quant (layer st) (last_bin st) inds) 0%nat)).
Proof.
  induction inds as [|i inds IH]; intros st Hin Hnd.
  - exists st. simpl. repeat split; auto. intros p Hp. simpl in Hp. lia.
  - destruct (Hin i (or_introl eq_refl)) as [Hq Hy].
    inversion Hnd as [|? ? Hni Hnd']; subst.
    cbn [dot_loop]. unfold dot_step, getitem.
    rewrite (nth_error_nth' quant 0 Hq). cbn [bind].
    set (q := nth i quant 0).
    set (l := if Reqb q (last_bin st) then layer st else 0%nat).
    destruct (setitem_ok (ys st) i (layer_offset l) Hy)
      as (ys1 & -> & Hlen & Hset & Hother).
    cbn [bind].
    destruct (IH (mk_dot_state (S l) q ys1)) as (st' & Hl & Hlen' & Hout & Hp).
    { intros k Hk. cbn [ys]. rewrite Hlen.
      apply Hin. now right. }
    { exact Hnd'. }
    cbn [ys layer last_bin] in *.
    exists st'. split; [exact Hl|]. split; [congruence|]. split.
    + intros j Hj. rewrite Hout by (intros H; apply Hj; now right).
      apply Hother. intros ->. apply Hj. now left.
    + intros [|p] Hlt; cbn [nth layers_from]; fold q; fold l.
      * rewrite Hout by exact Hni. exact Hset.
      * apply Hp. simpl in Hlt. lia.
Qed.

(** *** The layers *)

Lemma layers_from_length quant inds :
  forall layer last, length (layers_from quant layer last inds) = length inds.
Proof.
  induction inds as [|i inds IH]; intros layer last; simpl; [reflexivity|].
  now rewrite IH.
Qed.

(** A layer is 0, or the first one and the one the loop starts with, or
    one more than the layer of the turn before, which was in the same
    bin. *)
Lemma layers_from_chain quant inds :
  forall layer last p, (p < length inds)%nat ->
  let L := layers_from quant layer last inds in
  nth p L 0%nat = 0%nat
  \/ (p = 0%nat /\ nth p L 0%nat = layer)
  \/ (exists p', p = S p'
                 /\ nth p L 0%nat = S (nth p' L 0%nat)
                 /\ nth (nth p inds 0%nat) quant 0
                    = nth (nth p' inds 0%nat) quant 0).
Proof.
  induction inds as [|i inds IH]; intros layer last p Hp; [simpl in Hp; lia|].
  cbv zeta. cbn [layers_from].
  set (q := nth i quant 0).
  set (l := if Reqb q last then layer else 0%nat).
  destruct p as [|p].
  - cbn [nth]. unfold l. destruct (Reqb q last); auto.
  - cbn [nth]. simpl in Hp.
    destruct (IH (S l) q p ltac:(lia)) as [H|[[-> H]|(p' & -> & H1 & H2)]].
    + now left.
    + right. right. exists 0%nat. split; [reflexivity|].
      cbn [nth]. split; [exact H|].
      destruct inds as [|i' inds]; [simpl in Hp; lia|].
      cbn [layers_from nth] in H. cbn [nth].
      destruct (Reqb (nth i' quant 0) q) eqn:E;
        [now apply Reqb_true in E | discriminate].
    + right. right. exists (S p'). split; [reflexivity|].
      cbn [nth]. split; [exact H1 | exact H2].
Qed.

Section SortedBins.

Variable quant : list R.

(** In a run of turns that stay in the bin of the turn before the loop,
    the layers count on. *)
Lemma layers_from_run inds :
  forall layer last p, (p < length inds)%nat ->
  StronglySorted (fun i j => nth i quant 0 <= nth j quant 0) inds ->
  (forall i, In i inds -> last <= nth i quant 0) ->
  nth (nth p inds 0%nat) quant 0 = last ->
  nth p (layers_from quant layer last inds) 0%nat = (layer + p)%nat.
Proof.
  induction inds as [|i inds IH]; intros layer last p Hp Hs Hlo Hq;
    [simpl in Hp; lia|].
  apply StronglySorted_inv in Hs. destruct Hs as [Hs' Hall].
  rewrite Forall_forall in Hall.
  cbn [layers_from].
  assert (Hi : nth i quant 0 = last).
  { destruct p as [|p]; [exact Hq|]. cbn [nth] in Hq.
    assert (In (nth p inds 0%nat) inds)
      by (apply nth_In; simpl in Hp; lia).
    pose proof (Hall _ H). pose proof (Hlo i (or_introl eq_refl)). lra. }
  rewrite (proj2 (Reqb_true _ _) Hi).
  destruct p as [|p]; cbn [nth]; [lia|].
  cbn [nth] in Hq. simpl in Hp.
  assert (E : nth p (layers_from quant (S layer) (nth i quant 0) inds) 0%nat
              = (S layer + p)%nat).
  { apply IH; [lia | exact Hs' | | now rewrite Hi].
    intros k Hk. rewrite Hi. apply Hlo. now right. }
  rewrite E. lia.
Qed.

(** Two turns in one bin have different layers. *)
Lemma layers_from_increase inds :
  forall layer last p p', (p < p')%nat -> (p' < length inds)%nat ->
  StronglySorted (fun i j => nth i quant 0 <= nth j quant 0) inds ->
  nth (nth p inds 0%nat) quant 0 = nth (nth p' inds 0%nat) quant 0 ->
  (nth p (layers_from quant layer last inds) 0
   < nth p' (layers_from quant layer last inds) 0)%nat.
Proof.
  induction inds as [|i inds IH]; intros layer last p p' Hlt Hp' Hs Hq;
    [simpl in Hp'; lia|].
  apply StronglySorted_inv in Hs. destruct Hs as [Hs' Hall].
  rewrite Forall_forall in Hall.
  cbn [layers_from]. destruct p' as [|p']; [lia|]. simpl in Hp'.
  destruct p as [|p]; cbn [nth] in *.
  - rewrite layers_from_run; auto; lia.
  - apply IH; auto; lia.
Qed.

End SortedBins.

(** *** The order of the turns *)

Lemma bin_order_range quant noise i :
  In i (bin_order quant noise) ->
  (i < length quant)%nat /\ (i < length noise)%nat.
Proof.
  intros H. apply argsort_in_range in H.
  rewrite length_map, length_combine in H. lia.
Qed.

Lemma bin_order_NoDup quant noise : NoDup (bin_order quant noise).
Proof.
  eapply Permutation_NoDup;
    [apply Permutation_sym, argsort_perm | apply seq_NoDup].
Qed.

Lemma bin_order_perm quant noise :
  length noise = length quant ->
  Permutation (bin_order quant noise) (seq 0 (length quant)).
Proof.
  intros H. unfold bin_order.
  eapply perm_trans; [apply argsort_perm|].
  rewrite length_map, length_combine, H, Nat.min_id. apply Permutation_refl.
Qed.

Lemma nth_keys quant noise k :
  length noise = length quant -> (k < length quant)%nat ->
  nth k (map (fun p => fst p + snd p * / 1000000) (combine quant noise)) 0
  = nth k quant 0 + nth k noise 0 * / 1000000.
Proof.
  intros Hlen Hk.
  rewrite (nth_indep _ 0 ((fun p => fst p + snd p * / 1000000) (0, 0)))
    by (rewrite length_map, length_combine; lia).
  rewrite (map_nth (fun p => fst p + snd p * / 1000000)).
  rewrite combine_nth by congruence. reflexivity.
Qed.

Lemma StronglySorted_weaken {A : Type} (P Q : A -> A -> Prop) l :
  (forall a b, In a l -> In b l -> P a b -> Q a b) ->
  StronglySorted P l -> StronglySorted Q l.
Proof.
  intros H Hs. induction Hs as [|a l Hs IH Hall]; constructor.
  - apply IH. intros x y Hx Hy. apply H; now right.
  - rewrite Forall_forall in *. intros b Hb.
    apply H; [now left | now right | now apply Hall].
Qed.

(** With small draws the turns go through the bins in ascending order. *)
Lemma bin_order_sorted quant noise :
  length noise = length quant ->
  (forall q, In q quant -> exists z, q = IZR z) ->
  small_noise noise ->
  StronglySorted (fun i j => nth i quant 0 <= nth j quant 0)
                 (bin_order quant noise).
Proof.
  intros Hlen Hz Hsmall.
  apply StronglySorted_weaken
    with (P := fun i j =>
                 nth i (map (fun p => fst p + snd p * / 1000000)
                            (combine quant noise)) 0
                 <= nth j (map (fun p => fst p + snd p * / 1000000)
                               (combine quant noise)) 0);
    [|apply argsort_sorted].
  intros i j Hi Hj. apply bin_order_range in Hi, Hj.
  rewrite !nth_keys by (auto; lia).
  unfold small_noise in Hsmall. rewrite Forall_forall in Hsmall.
  assert (Hn : forall k, (k < length noise)%nat ->
                         - (1 / 2) < nth k noise 0 * / 1000000 < 1 / 2).
  { intros k Hk. pose proof (Hsmall _ (nth_In noise 0 Hk)) as H.
    assert (Hs : 0 < / 1000000) by (apply Rinv_0_lt_compat; lra).
    pose proof (Rle_abs (nth k noise 0)) as H1.
    pose proof (Rle_abs (- nth k noise 0)) as H2.
    rewrite Rabs_Ropp in H2. split; nra. }
  destruct (Hz _ (nth_In quant 0 (proj1 Hi))) as [zi ->].
  destruct (Hz _ (nth_In quant 0 (proj1 Hj))) as [zj ->].
  pose proof (Hn i (proj2 Hi)). pose proof (Hn j (proj2 Hj)).
  intros Hkey. apply IZR_le.
  destruct (Z.le_gt_cases zi zj) as [Hle|Hgt]; [exact Hle|].
  assert (IZR zj + 1 <= IZR zi).
  { rewrite <- plus_IZR. apply IZR_le. lia. }
  lra.
Qed.

(** *** The offsets before line 235 *)

Lemma nth_scaled ys c i :
  nth i (map (fun y => y * c) ys) 0 = nth i ys 0 * c.
Proof.
  destruct (Nat.lt_ge_cases i (length ys)) as [Hlt|Hge].
  - rewrite (nth_indep _ 0 ((fun y => y * c) 0)) by now rewrite length_map.
    apply (map_nth (fun y => y * c)).
  - rewrite !nth_overflow by (try rewrite length_map; lia). lra.
Qed.

(** What the loop leaves in [ys]. *)
Lemma loop_outcome quant noise :
  let inds := bin_order quant noise in
  let L := layers_from quant 0 (-1) inds in
  exists st,
    dot_loop quant (mk_dot_state 0 (-1) (repeat 0 (length quant))) inds
    = Ok st
    /\ length (ys st) = length quant
    /\ (forall j, ~ In j inds -> nth j (ys st) 0 = 0)
    /\ (forall p, (p < length inds)%nat ->
        nth (nth p inds 0%nat) (ys st) 0 = layer_offset (nth p L 0%nat)).
Proof.
  cbv zeta.
  destruct (dot_loop_spec quant (bin_order quant noise)
              (mk_dot_state 0 (-1) (repeat 0 (length quant))))
    as (st & Hl & Hlen & Hout & Hp).
  - intros i Hi. cbn [ys]. rewrite repeat_length.
    apply bin_order_range in Hi. lia.
  - apply bin_order_NoDup.
  - cbn [ys layer last_bin] in *. rewrite repeat_length in Hlen.
    exists st. split; [exact Hl|]. split; [exact Hlen|]. split; [|exact Hp].
    intros j Hj. rewrite (Hout j Hj). apply nth_repeat.
Qed.

(** Every entry is the offset of a layer, and a layer other than 0 comes
    with the layer below it. *)
Lemma loop_entries quant noise st :
  dot_loop quant (mk_dot_state 0 (-1) (repeat 0 (length quant)))
           (bin_order quant noise) = Ok st ->
  length (ys st) = length quant
  /\ forall j, (j < length quant)%nat ->
     exists l, nth j (ys st) 0 = layer_offset l
               /\ (l = 0%nat
                   \/ exists l' j', l = S l' /\ (j' < length quant)%nat
                                    /\ nth j' (ys st) 0 = layer_offset l').
Proof.
  intros Hst.
  destruct (loop_outcome quant noise) as (st' & Hl & Hlen & Hout & Hp).
  cbv zeta in *. rewrite Hst in Hl. injection Hl as <-.
  split; [exact Hlen|]. intros j Hj.
  set (inds := bin_order quant noise) in *.
  destruct (in_dec Nat.eq_dec j inds) as [Hin|Hnin].
  - destruct (In_nth _ _ 0%nat Hin) as (p & Hlt & <-).
    exists (nth p (layers_from quant 0 (-1) inds) 0%nat).
    split; [now apply Hp|].
    destruct (layers_from_chain quant inds 0%nat (-1) p Hlt)
      as [H|[[_ H]|(p' & -> & H1 & _)]]; cbv zeta in *.
    + now left.
    + now left.
    + right. exists (nth p' (layers_from quant 0 (-1) inds) 0%nat).
      exists (nth p' inds 0%nat). split; [exact H1|]. split.
      * apply (bin_order_range quant noise). fold inds. apply nth_In. lia.
      * apply Hp. lia.
  - exists 0%nat. split; [|now left].
    rewrite layer_offset_0. now apply Hout.
Qed.


Lemma dot_offsets_ok shaps noise quant :
  quantize shaps = Ok quant ->
  exists st m,
    dot_loop quant (mk_dot_state 0 (-1) (repeat 0 (length quant)))
             (bin_order quant noise) = Ok st
    /\ amax (ys st) = Ok m
    /\ dot_offsets shaps noise
       = Ok (if Reqb m 0 then None
             else Some (map (fun y => y * (row_height / m)) (ys st))).
Proof.
  intros Hq. destruct (quantize_spec _ _ Hq) as [Hlen _].
  destruct (loop_outcome quant noise) as (st & Hl & Hlen' & _).
  cbv zeta in Hl.
  assert (Hne : ys st <> []).
  { intros E. rewrite E in Hlen'. simpl in Hlen'.
    destruct shaps; [discriminate|]. simpl in Hlen. lia. }
  destruct (ys st) as [|y0 ys0] eqn:Hys; [congruence|].
  exists st, (fold_left Rmax ys0 y0). split; [exact Hl|].
  rewrite Hys. split; [reflexivity|].
  unfold dot_offsets. rewrite Hq. cbn [bind]. rewrite <- Hlen, Hl.
  cbn [bind]. unfold scale. rewrite Hys. cbn [amax bind].
  now destruct (Reqb _ 0).
Qed.

Section Entries.

Variables (quant noise : list R) (st : dot_state) (m : R).

Hypothesis Hst :
  dot_loop quant (mk_dot_state 0 (-1) (repeat 0 (length quant)))
           (bin_order quant noise) = Ok st.

Hypothesis Hm : amax (ys st) = Ok m.


(** With a layer other than 0 the largest offset is 1 or more. *)
Lemma max_ge_one j l :
  (j < length quant)%nat -> nth j (ys st) 0 = layer_offset (S l) ->
  1 <= m.
Proof.
  destruct (loop_entries _ _ _ Hst) as [Hlen Hent].
  destruct (amax_spec _ _ Hm) as [_ Hmax].
  intros Hj Hl.
  assert (Hin : forall k, (k < length quant)%nat -> nth k (ys st) 0 <= m).
  { intros k Hk. apply Hmax, nth_In. now rewrite Hlen. }
  destruct (layer_offset_succ l) as [H|(H & H' & Hl')].
  - pose proof (Hin j Hj) as Hle. rewrite Hl, H in Hle.
    rewrite S_INR in Hle. pose proof (pos_INR l). lra.
  - destruct (Hent j Hj) as (l1 & H1 & [->|(l' & j' & -> & Hj' & H2)]).
    + rewrite Hl in H1. apply layer_offset_inj in H1. discriminate.
    + rewrite Hl in H1. apply layer_offset_inj in H1. injection H1 as <-.
      pose proof (Hin j' Hj') as Hle. rewrite H2, H' in Hle.
      apply (le_INR 1) in Hl'. simpl in Hl'. lra.
Qed.


(** A row that has its bin to itself stays at 0. *)
Lemma alone_is_zero i :
  (i < length quant)%nat ->
  (forall j, (j < length quant)%nat -> j <> i ->
             nth j quant 0 <> nth i quant 0) ->
  nth i (ys st) 0 = 0.
Proof.
  intros Hi Halone.
  destruct (loop_outcome quant noise) as (st' & Hl & Hlen & Hout & Hp).
  cbv zeta in *. rewrite Hst in Hl. injection Hl as <-.
  set (inds := bin_order quant noise) in *.
  destruct (in_dec Nat.eq_dec i inds) as [Hin|Hnin]; [|now apply Hout].
  destruct (In_nth _ _ 0%nat Hin) as (p & Hlt & E).
  rewrite <- E, (Hp p Hlt).
  destruct (layers_from_chain quant inds 0%nat (-1) p Hlt)
    as [H|[[_ H]|(p' & -> & _ & H2)]]; cbv zeta in *.
  - rewrite H. apply layer_offset_0.
  - rewrite H. apply layer_offset_0.
  - exfalso. rewrite E in H2.
    apply (Halone (nth p' inds 0%nat)); [| |now symmetry].
    + apply (bin_order_range quant noise). fold inds. apply nth_In. lia.
    + intros E'. rewrite <- E in E'.
      pose proof (bin_order_NoDup quant noise) as Hnd. fold inds in Hnd.
      apply (proj1 (NoDup_nth inds 0%nat) Hnd) in E'; lia.
Qed.

(** With small draws two rows of one bin get different offsets, and the
    largest offset is 1 or more. *)
Lemma same_bin_differs i j :
  length noise = length quant ->
  (forall q, In q quant -> exists z, q = IZR z) ->
  small_noise noise ->
  (i < length quant)%nat -> (j < length quant)%nat -> i <> j ->
  nth i quant 0 = nth j quant 0 ->
  nth i (ys st) 0 <> nth j (ys st) 0 /\ 1 <= m.
Proof.
  intros Hlen Hz Hsmall Hi Hj Hij Hq.
  destruct (loop_outcome quant noise) as (st' & Hl & Hlen' & Hout & Hp).
  cbv zeta in *. rewrite Hst in Hl. injection Hl as <-.
  pose proof (bin_order_sorted quant noise Hlen Hz Hsmall) as Hs.
  pose proof (bin_order_perm quant noise Hlen) as Hperm.
  set (inds := bin_order quant noise) in *.
  assert (Hmem : forall k, (k < length quant)%nat -> In k inds).
  { intros k Hk. apply (Permutation_in _ (Permutation_sym Hperm)).
    apply in_seq. lia. }
  destruct (In_nth _ _ 0%nat (Hmem i Hi)) as (p & Hpl & Ep).
  destruct (In_nth _ _ 0%nat (Hmem j Hj)) as (p' & Hpl' & Ep').
  assert (Hpp : p <> p') by (intros ->; congruence).
  assert (Hlt : forall a b, (a < b)%nat -> (b < length inds)%nat ->
            nth (nth a inds 0%nat) quant 0 = nth (nth b inds 0%nat) quant 0 ->
            nth (nth a inds 0%nat) (ys st) 0
            <> nth (nth b inds 0%nat) (ys st) 0
            /\ 1 <= m).
  { intros a b Hab Hb Hqq.
    pose proof (layers_from_increase quant inds 0%nat (-1) a b Hab Hb Hs Hqq)
      as Hinc.
    rewrite (Hp a) by lia. rewrite (Hp b) by lia. split.
    - intros E. apply layer_offset_inj in E. lia.
    - destruct (nth b (layers_from quant 0 (-1) inds) 0%nat) as [|l] eqn:El;
        [lia|].
      apply (max_ge_one (nth b inds 0%nat) l).
      + apply (bin_order_range quant noise). fold inds. now apply nth_In.
      + rewrite (Hp b) by lia. now rewrite El. }
  destruct (Nat.lt_gt_cases p p') as [Hcases _].
  destruct (Hcases Hpp) as [H|H].
  - destruct (Hlt p p' H Hpl') as [H1 H2]; [congruence|].
    rewrite Ep, Ep' in H1. now split.
  - destruct (Hlt p' p H Hpl) as [H1 H2]; [congruence|].
    rewrite Ep, Ep' in H1. split; [congruence | exact H2].
Qed.

End Entries.

(** More than 101 rows cannot all have a bin to themselves. *)
Lemma bins_pigeonhole quant :
  (forall q, In q quant -> exists z, q = IZR z /\ (0 <= z <= 100)%Z) ->
  NoDup quant -> (length quant <= 101)%nat.
Proof.
  intros Hz Hnd.
  replace 101%nat
    with (length (map (fun k => IZR (Z.of_nat k)) (seq 0 101)))
    by (now rewrite length_map, length_seq).
  apply NoDup_incl_length; [exact Hnd|].
  intros q Hq. destruct (Hz q Hq) as (z & -> & Hz').
  apply in_map_iff. exists (Z.to_nat z). split.
  - now rewrite Stdlib.ZArith.Znat.Z2Nat.id by lia.
  - apply in_seq. lia.
Qed.

(** *** Three equal SHAP values *)

Lemma round_0 : round 0 = 0.
Proof.
  unfold round.
  assert (E : Int_part 0 = 0%Z) by (apply (Int_part_INR 0)).
  rewrite E, Rminus_diag.
  rewrite (proj2 (Rltb_true 0 (1 / 2))) by lra. reflexivity.
Qed.

Lemma quantize_zeros : quantize [0; 0; 0] = Ok [0; 0; 0].
Proof.
  unfold quantize. cbn [amax amin fold_left bind map].
  rewrite !(Rmax_left 0 0), !(Rmin_left 0 0) by lra. cbn [bind].
  replace (nbins * (0 - 0) / (0 - 0 + eps)) with 0 by (unfold Rdiv; ring).
  now rewrite round_0.
Qed.

Lemma quantize_zero : quantize [0] = Ok [0].
Proof.
  unfold quantize. cbn [amax amin fold_left bind map].
  replace (nbins * (0 - 0) / (0 - 0 + eps)) with 0 by (unfold Rdiv; ring).
  now rewrite round_0.
Qed.



Lemma small_noise_zeros n : small_noise (repeat 0 n).
Proof.
  apply Forall_forall. intros x Hx. apply repeat_spec in Hx. subst x.
  rewrite Rabs_R0. lra.
Qed.

End DotFacts.

Import Dots DotFacts.



(** X20 (summary_plot, lines 224-235).  When the random draws are too small
    to move a sample into the order of another bin, two samples of one bin
    never get the same offset, so that their dots do not cover each other
    by the layout, and a sample that has its bin to itself lies on the line
    of the row. *)
Theorem dots_of_one_bin_do_not_overlap (shaps noise quant : list R) :
  length noise = length shaps ->
  small_noise noise ->
  quantize shaps = Ok quant ->
  (forall i j,
      (i < length shaps)%nat -> (j < length shaps)%nat -> i <> j ->
      nth i quant 0 = nth j quant 0 ->
      exists offsets,
        dot_offsets shaps noise = Ok (Some offsets)
        /\ nth i offsets 0 <> nth j offsets 0)
  /\ (forall offsets i,
        dot_offsets shaps noise = Ok (Some offsets) ->
        (i < length shaps)%nat ->
        (forall j, (j < length shaps)%nat -> j <> i ->
                   nth j quant 0 <> nth i quant 0) ->
        nth i offsets 0 = 0).
Proof.
  intros Hlen Hsmall Hq.
  destruct (quantize_spec _ _ Hq) as [Hlq Hz].
  destruct (dot_offsets_ok shaps noise quant Hq) as (st & m & Hst & Hm & Hd).
  rewrite <- Hlq in *. split.
  - intros i j Hi Hj Hij Hb.
    destruct (same_bin_differs quant noise st m Hst Hm i j Hlen) as [Hne H1];
      auto.
    { intros q Hin. destruct (Hz q Hin) as (z & -> & _). now exists z. }
    rewrite (proj2 (Reqb_false m 0)) in Hd by lra.
    eexists. split; [exact Hd|]. rewrite !nth_scaled.
    assert (Hc : 0 < row_height / m).
    { unfold row_height. apply Rdiv_lt_0_compat; lra. }
    intros E. apply Hne. nra.
  - intros offsets i Ho Hi Halone. rewrite Hd in Ho.
    destruct (Reqb m 0); [discriminate|]. injection Ho as <-.
    rewrite nth_scaled.
    rewrite (alone_is_zero quant noise st Hst i Hi Halone). lra.
Qed.

(** Three samples in one bin: the second and the third dot. *)
Lemma dots_of_one_bin_do_not_overlap_witness :
  length [0; 0; 0] = length [0; 0; 0]
  /\ small_noise [0; 0; 0]
  /\ quantize [0; 0; 0] = Ok [0; 0; 0]
  /\ exists offsets,
       dot_offsets [0; 0; 0] [0; 0; 0] = Ok (Some offsets)
       /\ nth 1 offsets 0 <> nth 2 offsets 0.
Proof.
  assert (H1 : length [0; 0; 0] = length [0; 0; 0]) by reflexivity.
  assert (H2 : small_noise [0; 0; 0]) by exact (small_noise_zeros 3).
  split; [exact H1|]. split; [exact H2|]. split; [exact quantize_zeros|].
  apply (proj1 (dots_of_one_bin_do_not_overlap _ _ _ H1 H2 quantize_zeros));
    simpl; auto; lia.
Defined.

(** X21 (summary_plot, lines 221-235).  For a column without samples the
    layout raises ValueError at [np.max].  Otherwise, with draws that are
    too small to change the order of the bins, line 235 divides by zero,
    and leaves no offset that is a number, exactly when no two samples
    share a bin; with 102 samples or more this cannot happen, as there are
    101 bins. *)
Theorem dots_are_lost_without_a_shared_bin (shaps noise : list R) :
  length noise = length shaps ->
  small_noise noise ->
  (shaps = [] -> dot_offsets shaps noise = Raise ValueError)
  /\ (forall quant, quantize shaps = Ok quant ->
      (dot_offsets shaps noise = Ok None <-> NoDup quant))
  /\ ((102 <= length shaps)%nat ->
      exists offsets, dot_offsets shaps noise = Ok (Some offsets)).
Proof.
  intros Hlen Hsmall.
  assert (Hiff : forall quant, quantize shaps = Ok quant ->
                 (dot_offsets shaps noise = Ok None <-> NoDup quant)).
  { intros quant Hq.
    destruct (quantize_spec _ _ Hq) as [Hlq Hz].
    destruct (dot_offsets_ok shaps noise quant Hq)
      as (st & m & Hst & Hm & Hd).
    rewrite <- Hlq in Hlen. split.
    - intros Hnone. apply (NoDup_nth quant 0). intros i j Hi Hj Hb.
      destruct (Nat.eq_dec i j) as [E|Hij]; [exact E|]. exfalso.
      destruct (same_bin_differs quant noise st m Hst Hm i j Hlen)
        as [_ H1]; auto.
      { intros q Hin. destruct (Hz q Hin) as (z & -> & _). now exists z. }
      rewrite (proj2 (Reqb_false m 0)) in Hd by lra. congruence.
    - intros Hnd. rewrite Hd.
      destruct (amax_spec _ _ Hm) as [Hin _].
      destruct (loop_entries _ _ _ Hst) as [Hl _].
      destruct (In_nth _ _ 0 Hin) as (j & Hj & Ej). rewrite Hl in Hj.
      rewrite (alone_is_zero quant noise st Hst j Hj) in Ej.
      + rewrite (proj2 (Reqb_true m 0)) by congruence. reflexivity.
      + intros k Hk Hkj E. apply Hkj.
        now apply (proj1 (NoDup_nth quant 0) Hnd). }
  split; [|split; [exact Hiff|]].
  - intros ->. reflexivity.
  - intros Hn.
    destruct (quantize_ok shaps) as [quant Hq].
    { intros ->. simpl in Hn. lia. }
    destruct (quantize_spec _ _ Hq) as [Hlq Hz].
    destruct (dot_offsets_ok shaps noise quant Hq)
      as (st & m & _ & _ & Hd).
    destruct (Reqb m 0) eqn:Em; [|eexists; exact Hd].
    exfalso. apply (Hiff quant Hq) in Hd.
    pose proof (bins_pigeonhole quant Hz Hd). lia.
Qed.

(** One sample, and 102 samples. *)
Lemma dots_are_lost_without_a_shared_bin_witness :
  length [0] = length [0]
  /\ small_noise [0]
  /\ dot_offsets [0] [0] = Ok None
  /\ length (repeat 0 102) = length (repeat 0 102)
  /\ small_noise (repeat 0 102)
  /\ exists offsets,
       dot_offsets (repeat 0 102) (repeat 0 102) = Ok (Some offsets).
Proof.
  assert (H1 : length [0] = length [0]) by reflexivity.
  assert (H2 : small_noise [0]) by exact (small_noise_zeros 1).
  assert (H3 : length (repeat 0 102) = length (repeat 0 102)) by reflexivity.
  assert (H4 : small_noise (repeat 0 102)) by exact (small_noise_zeros 102).
  split; [exact H1|]. split; [exact H2|]. split.
  - apply (proj1 (proj2 (dots_are_lost_without_a_shared_bin _ _ H1 H2))
             [0] quantize_zero).
    repeat constructor. intros [].
  - split; [exact H3|]. split; [exact H4|].
    apply (proj2 (proj2 (dots_are_lost_without_a_shared_bin _ _ H3 H4))).
    rewrite repeat_length. lia.
Defined.

(** ** summary_plot: the colours of a violin *)

Module ViolinFacts.

Import Violin.

Lemma slice_firstn {A : Type} (l : list A) a b n :
  (b <= n)%nat -> slice (firstn n l) a b = slice l a b.
Proof.
  intros Hb. unfold slice.
  destruct (Nat.le_gt_cases a n) as [Han|Han].
  - replace n with (a + (n - a))%nat at 1 by lia.
    rewrite <- firstn_skipn_comm, firstn_firstn.
    f_equal. lia.
  - replace (b - a)%nat with 0%nat by lia. reflexivity.
Qed.

Lemma window_size_large n : (2000 <= n)%nat -> (100 <= window_size n)%nat.
Proof.
  intros H. unfold window_size.
  assert (100 <= n / 20)%nat by (apply Nat.div_le_lower_bound; lia).
  lia.
Qed.

End ViolinFacts.

Import Violin ViolinFacts.

(** X22 (summary_plot, lines 263-267).  The colours of a violin are
    smoothed over the positions of the 100 points of [xs], not over the
    samples: there are 99 smoothed values, they are read from the first 100
    feature values only, and from 2000 samples on all of them are the mean
    of the first 100 feature values, so that the violin has one colour. *)
Theorem violin_colours_use_the_first_100_values (values : list R) :
  length (smooth_values values) = 99%nat
  /\ (forall values',
        length values' = length values ->
        firstn 100 values' = firstn 100 values ->
        smooth_values values' = smooth_values values)
  /\ ((2000 <= length values)%nat ->
      forall v, In v (smooth_values values) ->
                v = Some (mean (firstn 100 values))).
Proof.
  split; [|split].
  - unfold smooth_values. now rewrite length_map, length_seq.
  - intros values' Hlen Hfirst. unfold smooth_values. rewrite Hlen.
    apply map_ext. intros j.
    rewrite <- (slice_firstn values' _ _ 100) by apply Nat.le_min_l.
    rewrite <- (slice_firstn values _ _ 100) by apply Nat.le_min_l.
    now rewrite Hfirst.
  - intros Hn v Hv. unfold smooth_values in Hv.
    apply in_map_iff in Hv. destruct Hv as (j & <- & Hj).
    apply in_seq in Hj. unfold len_xs in *.
    pose proof (window_size_large _ Hn) as Hw.
    replace (j - window_size (length values))%nat with 0%nat by lia.
    replace (Nat.min 100 (j + window_size (length values))) with 100%nat
      by lia.
    unfold slice. cbn [Nat.max skipn]. rewrite Nat.sub_0_r.
    destruct values as [|x values]; [simpl in Hn; lia|]. reflexivity.
Qed.

(** 2000 samples with the feature value 1. *)
Lemma violin_colours_use_the_first_100_values_witness :
  (2000 <= length (repeat 1 2000))%nat
  /\ forall v, In v (smooth_values (repeat 1 2000)) ->
               v = Some (mean (firstn 100 (repeat 1 2000))).
Proof.
  assert (H : (2000 <= length (repeat 1 2000))%nat)
    by (rewrite repeat_length; lia).
  split; [exact H|].
  exact (proj2 (proj2 (violin_colours_use_the_first_100_values
                         (repeat 1 2000))) H).
Defined.

(** ** summary_plot with dots: rows and labels *)

Module SummaryRun.

Import Summary.

Lemma dot_offsets_total shaps noise :
  shaps <> [] -> exists r, dot_offsets shaps noise = Ok r.
Proof.
  intros H. destruct (quantize_ok shaps H) as [quant Hq].
  destruct (dot_offsets_ok shaps noise quant Hq) as (st & m & _ & _ & Hd).
  rewrite Hd. now eexists.
Qed.

Lemma shaps_length a i :
  length (column a (arange (shape0 a)) i) = shape0 a.
Proof. unfold column, arange. now rewrite length_map, length_seq. Qed.

Lemma shaps_nil a i :
  shape0 a = 0%nat -> column a (arange (shape0 a)) i = [].
Proof. intros H. apply length_zero_iff_nil. now rewrite shaps_length. Qed.

(** A row of a matrix of SHAP values without rows stops at [np.max]. *)
Lemma draw_row_no_rows features a noise i :
  shape0 a = 0%nat ->
  draw_row features a noise i = inl (Raised ValueError).
Proof.
  intros H. unfold draw_row. now rewrite (shaps_nil a i H).
Qed.

(** With a row of SHAP values, a row of the plot stops only for its
    colours. *)
Lemma draw_row_rows features a noise i :
  (1 <= shape0 a)%nat ->
  exists ys,
    draw_row features a noise i
    = match colours features i (shape0 a) with
      | inl e => inl e
      | inr _ => inr ys
      end.
Proof.
  intros H. unfold draw_row.
  destruct (dot_offsets_total (column a (arange (shape0 a)) i) noise)
    as [ys Hys].
  { intros E. apply (f_equal (@length R)) in E.
    rewrite shaps_length in E. simpl in E. lia. }
  rewrite Hys, shaps_length. cbn [of_result]. now exists ys.
Qed.

Lemma draw_rows_ok features a noise order :
  forall pos,
  (forall i n, In i order -> exists ys, draw_row features a n i = inr ys) ->
  exists rows,
    draw_rows features a noise pos order = inr rows
    /\ length rows = length order.
Proof.
  induction order as [|i order IH]; intros pos H.
  - now exists [].
  - cbn [draw_rows].
    destruct (H i (noise pos) (or_introl eq_refl)) as [ys ->].
    destruct (IH (S pos)) as (rows & -> & Hlen).
    { intros j n Hj. apply H. now right. }
    exists (ys :: rows). split; [reflexivity | simpl; now rewrite Hlen].
Qed.

Lemma draw_rows_stop features a noise order e :
  forall pos,
  order <> [] ->
  (forall i n, In i order -> draw_row features a n i = inl e) ->
  draw_rows features a noise pos order = inl e.
Proof.
  destruct order as [|i order]; intros pos Hne H; [contradiction|].
  cbn [draw_rows]. now rewrite (H i (noise pos) (or_introl eq_refl)).
Qed.

End SummaryRun.

Import Summary SummaryRun.

(** X11.  Whatever [sort] and [max_display] are, the last column of the
    attribution matrix never gets a row, and without [sort] the rows are
    the first columns in their order.  For the dots (the default
    [plot_type]): with a row of SHAP values, at least [F - 1] feature
    names, and features that are a matrix or DataFrame with the rows of the
    SHAP values and at least [F - 1] columns, or a list of names, or a
    vector of names, the rows are drawn and every row finds its label.
    When some column gets a row, SHAP values without rows stop with
    [ValueError] at [np.max]; a vector of features given with names stops
    with [IndexError] at [features[:,i]]; a feature matrix with another
    number of rows stops with the assertion of line 240; and a feature
    matrix without names is drawn and then stops with [TypeError] at the
    labels of line 300.  [features] that is [None] stops with
    [AttributeError] in the conversion. *)
Theorem summary_rows_and_their_labels :
  forall (sort : bool) (max_display : Z) (shap_values : ndarray)
         (names : list cell) (noise : nat -> list R),
  let order := feature_order sort max_display shap_values in
  let labels := map (fun i => nth i names (CNum 0)) order in
  let dots features feature_names :=
    summary_plot_dot features feature_names sort max_display shap_values
                     noise in
  let drawn r := exists rows, r = inr (rows, labels)
                              /\ length rows = length order in
  let fits X := shape0 X = shape0 shap_values
                /\ (shape1 shap_values - 1 <= shape1 X)%nat in
  (forall i, In i order -> (i < shape1 shap_values - 1)%nat)
  /\ ((0 <= max_display)%Z ->
      feature_order false max_display shap_values
      = seq 0 (Nat.min (Z.to_nat max_display) (shape1 shap_values - 1)))
  /\ ((shape1 shap_values - 1 <= length names)%nat ->
      (1 <= shape0 shap_values)%nat ->
      (forall X, fits X -> drawn (dots (FMatrix X) (Some names)))
      /\ (forall X, fits X -> drawn (dots (FDataFrame names X) None))
      /\ drawn (dots (FList names) None)
      /\ drawn (dots (FVector names) None))
  /\ (order <> [] ->
      (shape0 shap_values = 0%nat ->
       forall features feature_names, features <> FNone ->
       dots features feature_names = inl (Raised ValueError))
      /\ ((1 <= shape0 shap_values)%nat ->
          (forall values given,
             dots (FVector values) (Some given) = inl (Raised IndexError))
          /\ (forall X feature_names,
                (shape1 shap_values - 1 <= shape1 X)%nat ->
                shape0 X <> shape0 shap_values ->
                dots (FMatrix X) feature_names = inl AssertionError)
          /\ (forall X, fits X ->
                dots (FMatrix X) None = inl (Raised TypeError))))
  /\ (forall feature_names,
        dots FNone feature_names = inl (Raised AttributeError)).
Proof.
  intros sort m a names noise. cbv zeta.
  set (order := feature_order sort m a).
  assert (Hrange : forall i, In i order -> (i < shape1 a - 1)%nat)
    by (intros i; apply feature_order_in_range).
  assert (Hdots : forall features feature_names kf kn,
             summary_plot_arguments features feature_names = Ok (kf, kn) ->
             summary_plot_dot features feature_names sort m a noise
             = match draw_rows kf a noise 0 order with
               | inl e => inl e
               | inr rows =>
                   match tick_labels kn order with
                   | Raise e => inl (Raised e)
                   | Ok labels => inr (rows, labels)
                   end
               end).
  { intros features fn kf kn H. unfold summary_plot_dot. now rewrite H. }
  assert (Hrow : forall kf, (1 <= shape0 a)%nat ->
             (forall i, In i order -> colours kf i (shape0 a) = inr tt) ->
             exists rows, draw_rows kf a noise 0 order = inr rows
                          /\ length rows = length order).
  { intros kf Hrows Hcol. apply draw_rows_ok. intros i n Hi.
    destruct (draw_row_rows kf a n i Hrows) as [ys Hys].
    rewrite (Hcol i Hi) in Hys. now exists ys. }
  assert (Hstop : forall kf e, (1 <= shape0 a)%nat -> order <> [] ->
             (forall i, In i order -> colours kf i (shape0 a) = inl e) ->
             draw_rows kf a noise 0 order = inl e).
  { intros kf e Hrows Hne Hcol. apply draw_rows_stop; [exact Hne|].
    intros i n Hi. destruct (draw_row_rows kf a n i Hrows) as [ys Hys].
    now rewrite (Hcol i Hi) in Hys. }
  assert (Hfit : forall X, shape0 X = shape0 a ->
             (shape1 a - 1 <= shape1 X)%nat ->
             forall i, In i order -> colours (KMatrix X) i (shape0 a) = inr tt).
  { intros X H0 H1 i Hi. apply Hrange in Hi. unfold colours.
    rewrite (proj2 (Nat.ltb_lt i (shape1 X))) by lia.
    now rewrite (proj2 (Nat.eqb_eq _ _) H0). }
  split; [exact Hrange|].
  split.
  { intros Hm. unfold feature_order, arange_int. f_equal. lia. }
  split.
  - intros Hlen Hrows.
    assert (Hlab : tick_labels (Some names) order
                   = Ok (map (fun i => nth i names (CNum 0)) order)).
    { apply tick_labels_ok. intros i Hi. apply Hrange in Hi. lia. }
    assert (Hmat : forall X features fn,
               summary_plot_arguments features fn
               = Ok (KMatrix X, Some names) ->
               shape0 X = shape0 a /\ (shape1 a - 1 <= shape1 X)%nat ->
               exists rows,
                 summary_plot_dot features fn sort m a noise
                 = inr (rows, map (fun i => nth i names (CNum 0)) order)
                 /\ length rows = length order).
    { intros X features fn Hc [H0 H1]. rewrite (Hdots _ _ _ _ Hc).
      destruct (Hrow (KMatrix X) Hrows (Hfit X H0 H1)) as (rows & -> & Hl).
      rewrite Hlab. now exists rows. }
    assert (Hnone : forall features fn,
               summary_plot_arguments features fn = Ok (KNone, Some names) ->
               exists rows,
                 summary_plot_dot features fn sort m a noise
                 = inr (rows, map (fun i => nth i names (CNum 0)) order)
                 /\ length rows = length order).
    { intros features fn Hc. rewrite (Hdots _ _ _ _ Hc).
      destruct (Hrow KNone Hrows (fun i _ => eq_refl)) as (rows & -> & Hl).
      rewrite Hlab. now exists rows. }
    split; [intros X HX; now apply (Hmat X)|].
    split; [intros X HX; now apply (Hmat X)|].
    split; now apply Hnone.
  - split.
    + intros Hne. split.
      * intros H0 features fn Hf.
        destruct (summary_plot_arguments features fn) as [[kf kn]|e] eqn:Hc.
        -- rewrite (Hdots _ _ _ _ Hc).
           rewrite (draw_rows_stop kf a noise order (Raised ValueError));
             [reflexivity | exact Hne|].
           intros i n _. now apply draw_row_no_rows.
        -- destruct features; try discriminate; [contradiction|].
           simpl in Hc. destruct fn; discriminate.
      * intros Hrows. split; [|split].
        -- intros values given.
           rewrite (Hdots (FVector values) (Some given) (KVector values)
                     (Some given) eq_refl).
           now rewrite (Hstop (KVector values) (Raised IndexError) Hrows Hne).
        -- intros X fn H1 H0.
           rewrite (Hdots (FMatrix X) fn (KMatrix X) fn eq_refl).
           rewrite (Hstop (KMatrix X) AssertionError Hrows Hne);
             [reflexivity|].
           intros i Hi. apply Hrange in Hi. unfold colours.
           rewrite (proj2 (Nat.ltb_lt i (shape1 X))) by lia.
           now rewrite (proj2 (Nat.eqb_neq _ _) H0).
        -- intros X [H0 H1].
           rewrite (Hdots (FMatrix X) None (KMatrix X) None eq_refl).
           destruct (Hrow (KMatrix X) Hrows (Hfit X H0 H1))
             as (rows & -> & _).
           unfold tick_labels. fold order.
           destruct order as [|i order']; [contradiction | reflexivity].
    + intros fn. reflexivity.
Qed.

(** The ramp's attributions with two names, and with the ramp as the
    features and no names. *)
Lemma summary_rows_and_their_labels_witness :
  ((0 <= 5)%Z /\ feature_order false 5 ramp_shap = [0; 1]%nat)
  /\ ((shape1 ramp_shap - 1 <= length [CNum 1; CNum 2])%nat
      /\ (1 <= shape0 ramp_shap)%nat
      /\ exists rows,
           summary_plot_dot (FList [CNum 1; CNum 2]) None false 5 ramp_shap
                            (fun _ => repeat 0 20)
           = inr (rows, [CNum 1; CNum 2])
           /\ length rows = 2%nat)
  /\ (feature_order false 5 ramp_shap <> []
      /\ (shape0 ramp = shape0 ramp_shap
          /\ (shape1 ramp_shap - 1 <= shape1 ramp)%nat)
      /\ summary_plot_dot (FMatrix ramp) None false 5 ramp_shap
                          (fun _ => repeat 0 20)
         = inl (Raised TypeError)).
Proof.
  pose proof (summary_rows_and_their_labels false 5 ramp_shap
                [CNum 1; CNum 2] (fun _ => repeat 0 20)) as T.
  cbv zeta in T. destruct T as (_ & T2 & T3 & T4 & _).
  assert (H5 : (0 <= 5)%Z) by lia.
  assert (Hl : (shape1 ramp_shap - 1 <= length [CNum 1; CNum 2])%nat)
    by (simpl; lia).
  assert (Hr : (1 <= shape0 ramp_shap)%nat) by (simpl; lia).
  assert (Hne : feature_order false 5 ramp_shap <> [])
    by (rewrite (T2 H5); discriminate).
  assert (Hfit : shape0 ramp = shape0 ramp_shap
                 /\ (shape1 ramp_shap - 1 <= shape1 ramp)%nat)
    by (simpl; lia).
  split; [split; [exact H5 | exact (T2 H5)]|].
  split.
  - split; [exact Hl|]. split; [exact Hr|].
    destruct (proj1 (proj2 (proj2 (T3 Hl Hr)))) as (rows & E & Hlen).
    rewrite (T2 H5) in E, Hlen. exists rows. split; [exact E | exact Hlen].
  - split; [exact Hne|]. split; [exact Hfit|].
    exact (proj2 (proj2 (proj2 (T4 Hne) Hr)) ramp Hfit).
Defined.
